(** * A shallow embedding of [chess_game.py]

    The rules engine of the repository: the piece classes with their move
    generators, and the [ChessGame] class (selection, move application,
    promotion, resignation, check and terminal-state detection).

    Python objects are modelled through an explicit store.  A piece is an
    object whose [position] and pawn flags are mutated in place and which is
    referenced from the board, from [selected_piece], from [promotion_pawn]
    and from the snapshots of [position_history]; the rows of a board are
    list objects, copied by [row[:]] when a move is simulated.  Both kinds of
    objects live in a [Heap] and are named by references.  Rendering (images,
    rectangles, the pygame loop) is left out. *)

From Stdlib Require Import ZArith List Bool String Lia.
From stdpp Require Import base list strings.

Local Open Scope Z_scope.

(** ** Results and exceptions *)

(** The exceptions the modelled code can raise.  [DanglingRef] is not a
    Python exception: it is the outcome of following a reference that names
    no object of the store, which no Python program can do. *)
Inductive exn := IndexError | AttributeError | DanglingRef.

Inductive Res (A : Type) : Type :=
| Ok (a : A)
| Raise (e : exn).
Arguments Ok {A} a.
Arguments Raise {A} e.

#[global] Instance Res_ret : MRet Res := fun A a => Ok a.
#[global] Instance Res_bind : MBind Res := fun A B f m =>
  match m with
  | Ok a => f a
  | Raise e => Raise e
  end.

#[global] Instance exn_eq_dec : EqDecision exn.
Proof. solve_decision. Defined.

(** ** Python lists *)

(** [l[i]] for a list of length [len]: an index in [[0, len)] is used as it
    is, an index in [[-len, 0)] counts from the end, anything else raises
    [IndexError]. *)
Definition py_index (len i : Z) : option nat :=
  if (0 <=? i) && (i <? len) then Some (Z.to_nat i)
  else if (- len <=? i) && (i <? 0) then Some (Z.to_nat (len + i))
  else None.

Definition getitem {A} (l : list A) (i : Z) : Res A :=
  match py_index (Z.of_nat (length l)) i with
  | Some n =>
      match l !! n with
      | Some x => Ok x
      | None => Raise IndexError
      end
  | None => Raise IndexError
  end.

Definition setitem {A} (l : list A) (i : Z) (x : A) : Res (list A) :=
  match py_index (Z.of_nat (length l)) i with
  | Some n => Ok (<[n:=x]> l)
  | None => Raise IndexError
  end.

(** A loop whose body yields the elements it appends to [moves]. *)
Fixpoint collect {A B} (f : A -> Res (list B)) (l : list A) : Res (list B) :=
  match l with
  | [] => Ok []
  | a :: rest =>
      xs ← f a;
      ys ← collect f rest;
      Ok (xs ++ ys)
  end.

(** ** Pieces *)

Inductive Color := white | black.

(** The concrete subclasses of [Piece]. *)
Inductive PieceClass := Pawn | Rook | Knight | Bishop | Queen | King.

#[global] Instance Color_eq_dec : EqDecision Color.
Proof. solve_decision. Defined.
#[global] Instance PieceClass_eq_dec : EqDecision PieceClass.
Proof. solve_decision. Defined.

Definition Square : Type := Z * Z.

(** A reference to an object of the store. *)
Definition ref : Type := nat.

(** A piece object.  [has_moved] and [en_passant_vulnerable] are attributes
    of [Pawn] objects only; the code reads them only after an
    [isinstance(_, Pawn)] test, and the model keeps them [false] on the
    other classes. *)
Record Piece := mkPiece {
  cls : PieceClass;
  color : Color;
  position : Square;
  has_moved : bool;
  en_passant_vulnerable : bool
}.

#[global] Instance Piece_eq_dec : EqDecision Piece.
Proof. solve_decision. Defined.

(** [Piece.__init__] / [Pawn.__init__]. *)
Definition new_piece (c : PieceClass) (clr : Color) (pos : Square) : Piece :=
  mkPiece c clr pos false false.

(** ** The store *)

Record Heap := mkHeap {
  objs : list Piece;
  lsts : list (list (option ref))
}.

Definition deref (h : Heap) (p : ref) : Res Piece :=
  match objs h !! p with
  | Some x => Ok x
  | None => Raise DanglingRef
  end.

Definition deref_list (h : Heap) (r : ref) : Res (list (option ref)) :=
  match lsts h !! r with
  | Some l => Ok l
  | None => Raise DanglingRef
  end.

(** A board is a list of (references to) row lists; [board[r][c]]. *)
Definition board_get (h : Heap) (board : list ref) (r c : Z) : Res (option ref) :=
  rr ← getitem board r;
  row ← deref_list h rr;
  getitem row c.

(** [0 <= x < 8] *)
Definition in_range (x : Z) : bool := (0 <=? x) && (x <? 8).

Definition color_eqb (a b : Color) : bool := bool_decide (a = b).
Definition is_class (c : PieceClass) (p : Piece) : bool := bool_decide (cls p = c).

(** ** Move generation: [get_valid_moves] of each class *)

Section MoveGenerator.
Variable h : Heap.
Variable board : list ref.

(** [Pawn.get_valid_moves]: the forward part. *)
Definition Pawn_forward (self : Piece) : Res (list Square) :=
  let '(row, col) := position self in
  let direction := if color_eqb (color self) white then -1 else 1 in
  if in_range (row + direction) then
    ahead ← board_get h board (row + direction) col;
    match ahead with
    | None =>
        double ←
          (if negb (has_moved self) then
             two ← board_get h board (row + 2 * direction) col;
             match two with
             | None => Ok [(row + 2 * direction, col)]
             | Some _ => Ok []
             end
           else Ok []);
        Ok ((row + direction, col) :: double)
    | Some _ => Ok []
    end
  else Ok [].

(** [Pawn.get_valid_moves]: the body of [for dcol in [-1, 1]]. *)
Definition Pawn_diagonal (self : Piece) (dcol : Z) : Res (list Square) :=
  let '(row, col) := position self in
  let direction := if color_eqb (color self) white then -1 else 1 in
  if in_range (row + direction) && in_range (col + dcol) then
    target ← board_get h board (row + direction) (col + dcol);
    match target with
    | Some q =>
        qp ← deref h q;
        if negb (color_eqb (color qp) (color self))
        then Ok [(row + direction, col + dcol)]
        else Ok []
    | None =>
        if ((row =? 3) && color_eqb (color self) white)
           || ((row =? 4) && color_eqb (color self) black)
        then
          beside ← board_get h board row (col + dcol);
          match beside with
          | Some q =>
              qp ← deref h q;
              if is_class Pawn qp && en_passant_vulnerable qp
              then Ok [(row + direction, col + dcol)]
              else Ok []
          | None => Ok []
          end
        else Ok []
    end
  else Ok [].

Definition Pawn_get_valid_moves (self : Piece) : Res (list Square) :=
  fwd ← Pawn_forward self;
  diag ← collect (Pawn_diagonal self) [-1; 1];
  Ok (fwd ++ diag).

(** The inner loop [for i in range(1, 8)] of the sliding pieces, for one
    direction; [steps] is what is left of the range. *)
Fixpoint slide (clr : Color) (pos : Square) (dr dc : Z) (steps : list Z)
  : Res (list Square) :=
  match steps with
  | [] => Ok []
  | i :: rest =>
      let row := fst pos + i * dr in
      let col := snd pos + i * dc in
      if in_range row && in_range col then
        cell ← board_get h board row col;
        match cell with
        | None =>
            more ← slide clr pos dr dc rest;
            Ok ((row, col) :: more)
        | Some q =>
            qp ← deref h q;
            if negb (color_eqb (color qp) clr) then Ok [(row, col)] else Ok []
        end
      else Ok []
  end.

Definition range_1_8 : list Z := [1; 2; 3; 4; 5; 6; 7].

(** [Rook._get_straight_moves]; [Queen] calls it on a temporary [Rook] of
    its own colour and position, so it takes these two values. *)
Definition _get_straight_moves (clr : Color) (pos : Square) : Res (list Square) :=
  collect (fun d : Z * Z => slide clr pos (fst d) (snd d) range_1_8)
          [(0, 1); (1, 0); (0, -1); (-1, 0)].

(** [Bishop._get_diagonal_moves]. *)
Definition _get_diagonal_moves (clr : Color) (pos : Square) : Res (list Square) :=
  collect (fun d : Z * Z => slide clr pos (fst d) (snd d) range_1_8)
          [(1, 1); (1, -1); (-1, 1); (-1, -1)].

(** The loop body shared by [Knight.get_valid_moves] and
    [King.get_valid_moves]. *)
Definition jump (self : Piece) (d : Z * Z) : Res (list Square) :=
  let row := fst (position self) + fst d in
  let col := snd (position self) + snd d in
  if in_range row && in_range col then
    cell ← board_get h board row col;
    match cell with
    | None => Ok [(row, col)]
    | Some q =>
        qp ← deref h q;
        if negb (color_eqb (color qp) (color self)) then Ok [(row, col)] else Ok []
    end
  else Ok [].

Definition knight_moves : list (Z * Z) :=
  [(-2, -1); (-2, 1); (-1, -2); (-1, 2); (1, -2); (1, 2); (2, -1); (2, 1)].

Definition king_moves : list (Z * Z) :=
  [(0, 1); (1, 0); (0, -1); (-1, 0); (1, 1); (1, -1); (-1, 1); (-1, -1)].

(** [piece.get_valid_moves(board)], dispatched on the class of [piece]. *)
Definition get_valid_moves (self : Piece) : Res (list Square) :=
  match cls self with
  | Pawn => Pawn_get_valid_moves self
  | Rook => _get_straight_moves (color self) (position self)
  | Knight => collect (jump self) knight_moves
  | Bishop => _get_diagonal_moves (color self) (position self)
  | Queen =>
      straight ← _get_straight_moves (color self) (position self);
      diagonal ← _get_diagonal_moves (color self) (position self);
      Ok (straight ++ diagonal)
  | King => collect (jump self) king_moves
  end.

End MoveGenerator.

(** ** The attack oracle *)

Definition range_8 : list Z := [0; 1; 2; 3; 4; 5; 6; 7].

(** The squares in the order of [for row in range(8): for col in range(8)]. *)
Definition all_squares : list Square :=
  flat_map (fun r => map (fun c => (r, c)) range_8) range_8.

Definition Square_eqb (a b : Square) : bool :=
  (fst a =? fst b) && (snd a =? snd b).

(** [square in moves], where [square] may be [None] (no king found). *)
Definition square_in (square : option Square) (moves : list Square) : bool :=
  match square with
  | Some sq => existsb (Square_eqb sq) moves
  | None => false
  end.

Section Oracle.
Variable h : Heap.

(** [ChessGame.find_king]: the loops, over what is left of the squares. *)
Fixpoint find_king_from (clr : Color) (board : list ref) (sqs : list Square)
  : Res (option Square) :=
  match sqs with
  | [] => Ok None
  | (row, col) :: rest =>
      cell ← board_get h board row col;
      match cell with
      | Some q =>
          qp ← deref h q;
          if is_class King qp && color_eqb (color qp) clr
          then Ok (Some (row, col))
          else find_king_from clr board rest
      | None => find_king_from clr board rest
      end
  end.

Definition find_king (clr : Color) (board : list ref) : Res (option Square) :=
  find_king_from clr board all_squares.

(** [ChessGame.is_square_under_attack]. *)
Fixpoint is_square_under_attack_from (square : option Square) (clr : Color)
    (board : list ref) (sqs : list Square) : Res bool :=
  match sqs with
  | [] => Ok false
  | (row, col) :: rest =>
      cell ← board_get h board row col;
      match cell with
      | Some q =>
          qp ← deref h q;
          if negb (color_eqb (color qp) clr) then
            moves ← get_valid_moves h board qp;
            if square_in square moves then Ok true
            else is_square_under_attack_from square clr board rest
          else is_square_under_attack_from square clr board rest
      | None => is_square_under_attack_from square clr board rest
      end
  end.

Definition is_square_under_attack (square : option Square) (clr : Color)
    (board : list ref) : Res bool :=
  is_square_under_attack_from square clr board all_squares.

End Oracle.

(** ** The game object *)

Definition Snapshot : Type := list (list (option ref)).

(** The attributes of a [ChessGame].  [in_check] is the dictionary with the
    two keys ['white'] and ['black'], kept as the pair of its values. *)
Record ChessGame := mkGame {
  board : list ref;
  turn : Color;
  selected_piece : option ref;
  dragging : bool;
  valid_moves : list Square;
  player_color : Color;
  board_flipped : bool;
  in_check : bool * bool;
  game_over : bool;
  game_result : option string;
  position_history : list Snapshot;
  last_move : option (Z * Z * Z * Z);
  promotion_pawn : option ref
}.

Definition in_check_of (g : ChessGame) (c : Color) : bool :=
  match c with
  | white => fst (in_check g)
  | black => snd (in_check g)
  end.

Definition set_turn (v : Color) (g : ChessGame) : ChessGame :=
  mkGame (board g) v (selected_piece g) (dragging g) (valid_moves g)
    (player_color g) (board_flipped g) (in_check g) (game_over g)
    (game_result g) (position_history g) (last_move g) (promotion_pawn g).

Definition set_selected_piece (v : option ref) (g : ChessGame) : ChessGame :=
  mkGame (board g) (turn g) v (dragging g) (valid_moves g)
    (player_color g) (board_flipped g) (in_check g) (game_over g)
    (game_result g) (position_history g) (last_move g) (promotion_pawn g).

Definition set_dragging (v : bool) (g : ChessGame) : ChessGame :=
  mkGame (board g) (turn g) (selected_piece g) v (valid_moves g)
    (player_color g) (board_flipped g) (in_check g) (game_over g)
    (game_result g) (position_history g) (last_move g) (promotion_pawn g).

Definition set_valid_moves (v : list Square) (g : ChessGame) : ChessGame :=
  mkGame (board g) (turn g) (selected_piece g) (dragging g) v
    (player_color g) (board_flipped g) (in_check g) (game_over g)
    (game_result g) (position_history g) (last_move g) (promotion_pawn g).

Definition set_board_flipped (v : bool) (g : ChessGame) : ChessGame :=
  mkGame (board g) (turn g) (selected_piece g) (dragging g) (valid_moves g)
    (player_color g) v (in_check g) (game_over g)
    (game_result g) (position_history g) (last_move g) (promotion_pawn g).

Definition set_in_check (c : Color) (v : bool) (g : ChessGame) : ChessGame :=
  mkGame (board g) (turn g) (selected_piece g) (dragging g) (valid_moves g)
    (player_color g) (board_flipped g)
    (match c with
     | white => (v, snd (in_check g))
     | black => (fst (in_check g), v)
     end)
    (game_over g) (game_result g) (position_history g) (last_move g)
    (promotion_pawn g).

(** [self.game_over = True; self.game_result = msg] *)
Definition set_over (msg : string) (g : ChessGame) : ChessGame :=
  mkGame (board g) (turn g) (selected_piece g) (dragging g) (valid_moves g)
    (player_color g) (board_flipped g) (in_check g) true
    (Some msg) (position_history g) (last_move g) (promotion_pawn g).

Definition set_position_history (v : list Snapshot) (g : ChessGame) : ChessGame :=
  mkGame (board g) (turn g) (selected_piece g) (dragging g) (valid_moves g)
    (player_color g) (board_flipped g) (in_check g) (game_over g)
    (game_result g) v (last_move g) (promotion_pawn g).

Definition set_last_move (v : option (Z * Z * Z * Z)) (g : ChessGame) : ChessGame :=
  mkGame (board g) (turn g) (selected_piece g) (dragging g) (valid_moves g)
    (player_color g) (board_flipped g) (in_check g) (game_over g)
    (game_result g) (position_history g) v (promotion_pawn g).

Definition set_promotion_pawn (v : option ref) (g : ChessGame) : ChessGame :=
  mkGame (board g) (turn g) (selected_piece g) (dragging g) (valid_moves g)
    (player_color g) (board_flipped g) (in_check g) (game_over g)
    (game_result g) (position_history g) (last_move g) v.

(** The program state: the store and the one game object. *)
Record World := mkWorld {
  heap : Heap;
  self : ChessGame
}.

(** ** Methods: state and exceptions *)

(** A method call runs on a world and leaves a world, with a returned value
    or a raised exception; a raise keeps the mutations made before it. *)
Record M (A : Type) : Type := mkM { run : World -> World * Res A }.
Arguments mkM {A} run.
Arguments run {A} m w.

#[global] Instance M_ret : MRet M := fun A a => mkM (fun w => (w, Ok a)).
#[global] Instance M_bind : MBind M := fun A B f m =>
  mkM (fun w =>
         match run m w with
         | (w', Ok a) => run (f a) w'
         | (w', Raise e) => (w', Raise e)
         end).

Definition raise {A} (e : exn) : M A := mkM (fun w => (w, Raise e)).
Definition lift {A} (r : Res A) : M A := mkM (fun w => (w, r)).
Definition get_self : M ChessGame := mkM (fun w => (w, Ok (self w))).
Definition get_heap : M Heap := mkM (fun w => (w, Ok (heap w))).
Definition modify_self (f : ChessGame -> ChessGame) : M unit :=
  mkM (fun w => (mkWorld (heap w) (f (self w)), Ok tt)).
Definition put_heap (h : Heap) : M unit :=
  mkM (fun w => (mkWorld h (self w), Ok tt)).

(** Reading an attribute of an object, [obj.attr]. *)
Definition load (p : ref) : M Piece := h ← get_heap; lift (deref h p).

(** Creating a piece object. *)
Definition alloc_piece (p : Piece) : M ref :=
  h ← get_heap;
  put_heap (mkHeap (objs h ++ [p]) (lsts h));;
  mret (length (objs h)).

(** Creating a list object. *)
Definition alloc_list (l : list (option ref)) : M ref :=
  h ← get_heap;
  put_heap (mkHeap (objs h) (lsts h ++ [l]));;
  mret (length (lsts h)).

(** Assigning attributes of the piece [p]: [p.attr = v]. *)
Definition update_piece (p : ref) (f : Piece -> Piece) : M unit :=
  h ← get_heap;
  x ← lift (deref h p);
  put_heap (mkHeap (<[p:=f x]> (objs h)) (lsts h)).

(** [b[r][c] = v] *)
Definition board_set (b : list ref) (r c : Z) (v : option ref) : M unit :=
  rr ← lift (getitem b r);
  h ← get_heap;
  row ← lift (deref_list h rr);
  row' ← lift (setitem row c v);
  put_heap (mkHeap (objs h) (<[rr:=row']> (lsts h))).

(** [b[r][c]] *)
Definition board_read (b : list ref) (r c : Z) : M (option ref) :=
  h ← get_heap; lift (board_get h b r c).

Fixpoint for_each {A} (l : list A) (body : A -> M unit) : M unit :=
  match l with
  | [] => mret tt
  | a :: rest => body a;; for_each rest body
  end.

Fixpoint map_M {A B} (f : A -> M B) (l : list A) : M (list B) :=
  match l with
  | [] => mret []
  | a :: rest => b ← f a; bs ← map_M f rest; mret (b :: bs)
  end.

Definition set_position (pos : Square) (p : Piece) : Piece :=
  mkPiece (cls p) (color p) pos (has_moved p) (en_passant_vulnerable p).
Definition set_has_moved (v : bool) (p : Piece) : Piece :=
  mkPiece (cls p) (color p) (position p) v (en_passant_vulnerable p).
Definition set_en_passant_vulnerable (v : bool) (p : Piece) : Piece :=
  mkPiece (cls p) (color p) (position p) (has_moved p) v.

(** ** [ChessGame] *)

Definition BOARD_SIZE : Z := 480.
Definition DIMENSION : Z := 8.
Definition SQ_SIZE : Z := BOARD_SIZE / DIMENSION.

Definition opposite (c : Color) : Color :=
  match c with
  | white => black
  | black => white
  end.

(** ['Black' if self.turn == 'white' else 'White'] *)
Definition winner_name (t : Color) : string :=
  if color_eqb t white then "Black"%string else "White"%string.

(** [ChessGame.get_board_position]; [//] is floor division. *)
Definition get_board_position (g : ChessGame) (screen_position : Z * Z) : Square :=
  let '(x, y) := screen_position in
  if board_flipped g then (7 - y / SQ_SIZE, 7 - x / SQ_SIZE)
  else (y / SQ_SIZE, x / SQ_SIZE).

(** [ChessGame.get_current_position]: a tuple of tuples, a value that
    later mutations of the rows do not reach. *)
Definition get_current_position : M Snapshot :=
  g ← get_self;
  h ← get_heap;
  lift (collect (fun rr => row ← deref_list h rr; Ok [row]) (board g)).

(** [ChessGame.update_position_history] *)
Definition update_position_history : M unit :=
  pos ← get_current_position;
  modify_self (fun g => set_position_history (position_history g ++ [pos]) g).

(** [Counter(l)]: the distinct elements in the order of their first
    occurrence, each with its number of occurrences. *)
Fixpoint counter_add {K} `{EqDecision K} (x : K) (cnt : list (K * nat)) : list (K * nat) :=
  match cnt with
  | [] => [(x, 1%nat)]
  | (k, n) :: rest =>
      if decide (k = x) then (k, S n) :: rest else (k, n) :: counter_add x rest
  end.

Definition Counter {K} `{EqDecision K} (l : list K) : list (K * nat) :=
  fold_left (fun cnt x => counter_add x cnt) l [].

(** [ChessGame.is_draw_by_repetition] *)
Definition is_draw_by_repetition (g : ChessGame) : bool :=
  if (length (position_history g) <? 8)%nat then false
  else existsb (fun kn => (3 <=? snd kn)%nat) (Counter (position_history g)).

(** [ChessGame.move_causes_check] *)
Definition move_causes_check (piece : ref) (move : Square) : M bool :=
  g ← get_self;
  temp_board ← map_M (fun rr => h ← get_heap; row ← lift (deref_list h rr); alloc_list row)
                     (board g);
  p ← load piece;
  let '(start_row, start_col) := position p in
  let '(end_row, end_col) := move in
  board_set temp_board end_row end_col (Some piece);;
  board_set temp_board start_row start_col None;;
  h ← get_heap;
  king_position ← lift (find_king h (color p) temp_board);
  lift (is_square_under_attack h king_position (color p) temp_board).

(** The loop of [ChessGame.get_legal_moves]. *)
Fixpoint legal_among (piece : ref) (potential_moves : list Square) : M (list Square) :=
  match potential_moves with
  | [] => mret []
  | move :: rest =>
      bad ← move_causes_check piece move;
      more ← legal_among piece rest;
      mret (if (bad : bool) then more else move :: more)
  end.

(** [ChessGame.get_legal_moves] *)
Definition get_legal_moves (piece : ref) : M (list Square) :=
  g ← get_self;
  h ← get_heap;
  p ← lift (deref h piece);
  potential_moves ← lift (get_valid_moves h (board g) p);
  legal_among piece potential_moves.

(** [ChessGame.is_in_check] *)
Definition is_in_check (clr : Color) : M bool :=
  g ← get_self;
  h ← get_heap;
  king_position ← lift (find_king h clr (board g));
  lift (is_square_under_attack h king_position clr (board g)).

(** [ChessGame.update_check_status] *)
Definition update_check_status : M unit :=
  w ← is_in_check white;
  modify_self (set_in_check white w);;
  b ← is_in_check black;
  modify_self (set_in_check black b).

(** The loops of [ChessGame.has_no_legal_moves]. *)
Fixpoint has_no_legal_moves_from (clr : Color) (sqs : list Square) : M bool :=
  match sqs with
  | [] => mret true
  | (row, col) :: rest =>
      g ← get_self;
      cell ← board_read (board g) row col;
      match cell with
      | Some q =>
          qp ← load q;
          if color_eqb (color qp) clr then
            moves ← get_legal_moves q;
            match moves with
            | [] => has_no_legal_moves_from clr rest
            | _ :: _ => mret false
            end
          else has_no_legal_moves_from clr rest
      | None => has_no_legal_moves_from clr rest
      end
  end.

Definition has_no_legal_moves (clr : Color) : M bool :=
  has_no_legal_moves_from clr all_squares.

(** [ChessGame.is_checkmate] *)
Definition is_checkmate (clr : Color) : M bool :=
  g ← get_self;
  if negb (in_check_of g clr) then mret false else has_no_legal_moves clr.

(** [ChessGame.is_stalemate] *)
Definition is_stalemate (clr : Color) : M bool :=
  g ← get_self;
  if in_check_of g clr then mret false else has_no_legal_moves clr.

(** [ChessGame.update_game_over] *)
Definition update_game_over : M unit :=
  g ← get_self;
  mate ← is_checkmate (turn g);
  if (mate : bool) then
    modify_self (fun g => set_over (winner_name (turn g) +:+ " wins by checkmate!") g)
  else
    stale ← is_stalemate (turn g);
    if (stale : bool) then modify_self (set_over "Draw by stalemate!")
    else
      g' ← get_self;
      if is_draw_by_repetition g' then modify_self (set_over "Draw by repetition!")
      else mret tt.

(** [ChessGame.select_piece] *)
Definition select_piece (pos : Z * Z) : M unit :=
  if BOARD_SIZE <=? snd pos then mret tt
  else
    g ← get_self;
    let '(row, col) := get_board_position g pos in
    cell ← board_read (board g) row col;
    chosen ←
      match cell with
      | Some q => qp ← load q; mret (color_eqb (color qp) (turn g))
      | None => mret false
      end;
    if (chosen : bool) then
      modify_self (set_selected_piece cell);;
      match cell with
      | Some q =>
          moves ← get_legal_moves q;
          modify_self (set_valid_moves moves);;
          modify_self (set_dragging true)
      | None => mret tt
      end
    else
      modify_self (set_selected_piece None);;
      modify_self (set_valid_moves []).

(** The loop of [move_piece] that clears [en_passant_vulnerable] on the
    other pawns of the mover's colour. *)
Definition reset_en_passant (mover : ref) (clr : Color) : M unit :=
  g ← get_self;
  for_each (board g) (fun rr =>
    h ← get_heap;
    row ← lift (deref_list h rr);
    for_each row (fun cell =>
      match cell with
      | Some q =>
          qp ← load q;
          if is_class Pawn qp && color_eqb (color qp) clr && negb (q =? mover)%nat
          then update_piece q (set_en_passant_vulnerable false)
          else mret tt
      | None => mret tt
      end)).

(** [ChessGame.move_piece] *)
Definition move_piece (end_pos : Z * Z) : M bool :=
  if BOARD_SIZE <=? snd end_pos then mret false
  else
    g ← get_self;
    let '(end_row, end_col) := get_board_position g end_pos in
    sel ← match selected_piece g with
          | Some p => mret p
          | None => raise AttributeError
          end;
    piece ← load sel;
    let '(start_row, start_col) := position piece in
    if existsb (Square_eqb (end_row, end_col)) (valid_moves g) then
      (if is_class Pawn piece && negb (end_col =? start_col) then
         dest ← board_read (board g) end_row end_col;
         match dest with
         | None => board_set (board g) start_row end_col None
         | Some _ => mret tt
         end
       else mret tt);;
      board_set (board g) end_row end_col (Some sel);;
      board_set (board g) start_row start_col None;;
      update_piece sel (set_position (end_row, end_col));;
      if is_class Pawn piece && ((end_row =? 0) || (end_row =? 7)) then
        modify_self (set_promotion_pawn (Some sel));;
        mret true
      else
        (if is_class Pawn piece then
           update_piece sel (set_has_moved true);;
           update_piece sel
             (set_en_passant_vulnerable (Z.abs (start_row - end_row) =? 2))
         else mret tt);;
        reset_en_passant sel (color piece);;
        modify_self (set_last_move (Some (start_row, start_col, end_row, end_col)));;
        modify_self (fun g => set_turn (if color_eqb (turn g) white then black else white) g);;
        update_check_status;;
        update_game_over;;
        update_position_history;;
        mret true
    else mret false.

(** [ChessGame.promote_pawn] *)
Definition promote_pawn (piece_class : PieceClass) : M unit :=
  g ← get_self;
  pawn ← match promotion_pawn g with
         | Some p => load p
         | None => raise AttributeError
         end;
  let '(row, col) := position pawn in
  fresh ← alloc_piece (new_piece piece_class (color pawn) (row, col));
  board_set (board g) row col (Some fresh);;
  modify_self (set_promotion_pawn None);;
  update_check_status;;
  update_game_over;;
  update_position_history.

(** [ChessGame.resign] *)
Definition resign : M unit :=
  modify_self (fun g => set_over (winner_name (turn g) +:+ " wins by resignation!") g).

(** [ChessGame.handle_click] *)
Definition handle_click (pos : Z * Z) : M unit :=
  g ← get_self;
  if negb (game_over g) then
    match selected_piece g with
    | None => select_piece pos
    | Some _ =>
        moved ← move_piece pos;
        if (moved : bool) then
          modify_self (set_selected_piece None);;
          modify_self (set_valid_moves [])
        else select_piece pos
    end
  else mret tt.

(** [ChessGame.handle_release] *)
Definition handle_release (pos : Z * Z) : M unit :=
  g ← get_self;
  if bool_decide (is_Some (selected_piece g)) && dragging g && negb (game_over g) then
    move_piece pos;;
    modify_self (set_selected_piece None);;
    modify_self (set_valid_moves []);;
    modify_self (set_dragging false)
  else mret tt.

(** [ChessGame.flip_board] *)
Definition flip_board : M unit :=
  modify_self (fun g => set_board_flipped (negb (board_flipped g)) g).

(** [ChessGame._initialize_pieces] *)
Definition _initialize_pieces : M unit :=
  g ← get_self;
  for_each range_8 (fun col =>
    bp ← alloc_piece (new_piece Pawn black (1, col));
    board_set (board g) 1 col (Some bp);;
    wp ← alloc_piece (new_piece Pawn white (6, col));
    board_set (board g) 6 col (Some wp));;
  for_each (combine range_8 [Rook; Knight; Bishop; Queen; King; Bishop; Knight; Rook])
    (fun '(col, piece_class) =>
       bp ← alloc_piece (new_piece piece_class black (0, col));
       board_set (board g) 0 col (Some bp);;
       wp ← alloc_piece (new_piece piece_class white (7, col));
       board_set (board g) 7 col (Some wp)).

(** [ChessGame.__init__], run on a store [h]: the eight rows are created,
    the pieces are placed, and the attributes get their first values (the
    model gives the attributes that [__init__] assigns after
    [_initialize_pieces], all constants, at once). *)
Definition ChessGame_init (h : Heap) (player : Color) : World * Res unit :=
  let rows := replicate 8 (replicate 8 (@None ref)) in
  let refs := seq (length (lsts h)) 8 in
  let g := mkGame refs white None false [] player (color_eqb player black)
                  (false, false) false None [] None None in
  run _initialize_pieces (mkWorld (mkHeap (objs h) (lsts h ++ rows)) g).

(** A new game in an empty store. *)
Definition new_game (player : Color) : World :=
  fst (ChessGame_init (mkHeap [] []) player).

(** ** Playing a game through the mouse handlers *)

(** The middle of the square [(row, col)] on the screen of an unflipped
    board. *)
Definition square_center (s : Square) : Z * Z :=
  (SQ_SIZE * snd s + SQ_SIZE / 2, SQ_SIZE * fst s + SQ_SIZE / 2).

(** One move with the mouse, as the main loop dispatches it: the button goes
    down on [a] ([handle_click]) and up on [b] ([handle_release]). *)
Definition drag (a b : Square) : M unit :=
  handle_click (square_center a);;
  handle_release (square_center b).

Definition play (moves : list (Square * Square)) : M unit :=
  for_each moves (fun m => drag (fst m) (snd m)).

(** 1. f4 c6 2. f5 Qa5 3. Kf2 a6 4. Kg3 b6 5. Kh4 e6 6. Kh5 g5 *)
Definition en_passant_game : list (Square * Square) :=
  [((6, 5), (4, 5)); ((1, 2), (2, 2)); ((4, 5), (3, 5)); ((0, 3), (3, 0));
   ((7, 4), (6, 5)); ((1, 0), (2, 0)); ((6, 5), (5, 6)); ((1, 1), (2, 1));
   ((5, 6), (4, 7)); ((1, 4), (2, 4)); ((4, 7), (3, 7)); ((1, 6), (3, 6))].

Definition en_passant_position : World :=
  fst (run (play en_passant_game) (new_game white)).

(** 1. a4 b5 2. axb5 a6 3. bxa6 Bb7 4. axb7 Nc6 5. bxa8 *)
Definition promotion_game : list (Square * Square) :=
  [((6, 0), (4, 0)); ((1, 1), (3, 1)); ((4, 0), (3, 1)); ((1, 0), (2, 0));
   ((3, 1), (2, 0)); ((0, 2), (1, 1)); ((2, 0), (1, 1)); ((0, 1), (2, 2));
   ((1, 1), (0, 0))].

Definition promotion_position : World :=
  fst (run (play promotion_game) (new_game white)).

(** 1. Nf3 Nf6 2. Ng1 Ng8, twice more, up to 5. Nf3 Nf6 *)
Definition repetition_game : list (Square * Square) :=
  [((7, 6), (5, 5)); ((0, 6), (2, 5)); ((5, 5), (7, 6)); ((2, 5), (0, 6));
   ((7, 6), (5, 5)); ((0, 6), (2, 5)); ((5, 5), (7, 6)); ((2, 5), (0, 6));
   ((7, 6), (5, 5)); ((0, 6), (2, 5))].

Definition repetition_position : World :=
  fst (run (play repetition_game) (new_game white)).

(** The legal moves of a whole side: for every piece of colour [clr], in
    board order, its class, its square and its legal destinations. *)
Fixpoint legal_moves_of_side_from (clr : Color) (sqs : list Square)
  : M (list (PieceClass * Square * list Square)) :=
  match sqs with
  | [] => mret []
  | (row, col) :: rest =>
      g ← get_self;
      cell ← board_read (board g) row col;
      here ←
        match cell with
        | Some q =>
            qp ← load q;
            if color_eqb (color qp) clr then
              moves ← get_legal_moves q;
              mret [(cls qp, (row, col), moves)]
            else mret []
        | None => mret []
        end;
      more ← legal_moves_of_side_from clr rest;
      mret (here ++ more)
  end.

Definition legal_moves_of_side (clr : Color) : M (list (PieceClass * Square * list Square)) :=
  legal_moves_of_side_from clr all_squares.

(** The number of moves of the pieces of class [c] in such a list. *)
Definition count_moves_of (c : PieceClass)
    (l : list (PieceClass * Square * list Square)) : nat :=
  list_sum (map (fun e => if bool_decide (fst (fst e) = c) then length (snd e) else 0%nat) l).

(** ** Specifications of methods *)

(** [hoare P m Q E]: started in a world of [P], the call [m] either returns
    a value [a] in a world of [Q a] or raises in a world of [E]. *)
Definition hoare {A} (P : World -> Prop) (m : M A) (Q : A -> World -> Prop)
    (E : World -> Prop) : Prop :=
  forall w, P w ->
    match run m w with
    | (w', Ok a) => Q a w'
    | (w', Raise _) => E w'
    end.

(** A call that does not assign to an attribute of the game object. *)
Definition heap_only {A} (m : M A) : Prop :=
  forall w, self (fst (run m w)) = self w.

(** A call that leaves [self.turn] as it is. *)
Definition keeps_turn {A} (m : M A) : Prop :=
  forall w, turn (self (fst (run m w))) = turn (self w).

(** [extends w0 w]: [w] is [w0] with more list objects; the game object, the
    pieces and the lists of [w0] are what they were. *)
Definition extends (w0 w : World) : Prop :=
  self w = self w0 /\
  objs (heap w) = objs (heap w0) /\
  exists extra, lsts (heap w) = lsts (heap w0) ++ extra.

(** [rr] names a list object created after [w0]. *)
Definition fresh_in (w0 : World) (rr : ref) : Prop :=
  (length (lsts (heap w0)) <= rr)%nat.

(** [self.game_over = True; self.game_result = msg] on the game of [w]. *)
Definition over_with (msg : string) (w : World) : World :=
  mkWorld (heap w) (set_over msg (self w)).

(** ** Counting *)

(** The number of occurrences of [x] in [l]. *)
Definition occurrences {K} `{EqDecision K} (l : list K) (x : K) : nat :=
  count_occ (decide_rel (=)) l x.

(** [cnt] holds the counts of [l]: one entry per element of [l], with the
    number of its occurrences. *)
Definition counts_of {K} `{EqDecision K} (l : list K) (cnt : list (K * nat)) : Prop :=
  NoDup (map fst cnt) /\
  forall k n, In (k, n) cnt <-> (n = occurrences l k /\ (0 < n)%nat).

(** ** Squares and boards *)

(** [0 <= row < 8] and [0 <= col < 8] *)
Definition in_bounds (s : Square) : Prop :=
  0 <= fst s < 8 /\ 0 <= snd s < 8.

(** The step of a pawn: [-1 if self.color == 'white' else 1]. *)
Definition direction_of (c : Color) : Z :=
  match c with
  | white => -1
  | black => 1
  end.

(** The rank from which one step of a pawn of colour [c] reaches its last
    rank. *)
Definition last_but_one (c : Color) : Z :=
  match c with
  | white => 1
  | black => 6
  end.

(** A row of eight cells, each empty or a reference to a piece object. *)
Definition row_ok (h : Heap) (row : list (option ref)) : bool :=
  (length row =? 8)%nat
  && forallb (fun cell => match cell with
                          | Some q => (q <? length (objs h))%nat
                          | None => true
                          end) row.

(** Eight rows, each a list object of the store that is such a row. *)
Definition board_ok (h : Heap) (board : list ref) : bool :=
  (length board =? 8)%nat
  && forallb (fun rr => match lsts h !! rr with
                        | Some row => row_ok h row
                        | None => false
                        end) board.

(** ** En passant destinations *)

(** [dest] is a diagonal move into an empty square in the move set of
    [self]. *)
Definition en_passant_destination (h : Heap) (board : list ref) (self : Piece)
    (dest : Square) : Prop :=
  exists moves,
    get_valid_moves h board self = Ok moves /\
    In dest moves /\
    snd dest <> snd (position self) /\
    board_get h board (fst dest) (snd dest) = Ok None.

(** What allows it: [self] stands on rank index 3 (white) or 4 (black), and
    the square beside it, on the file of [dest], holds a pawn whose
    [en_passant_vulnerable] flag is set; with [opposing], that pawn is of
    the other colour as well. *)
Definition en_passant_source (opposing : bool) (h : Heap) (board : list ref)
    (self : Piece) (dest : Square) : Prop :=
  let row := fst (position self) in
  let col := snd (position self) in
  ((row = 3 /\ color self = white) \/ (row = 4 /\ color self = black)) /\
  (snd dest = col - 1 \/ snd dest = col + 1) /\
  fst dest = row + direction_of (color self) /\
  exists q qp,
    board_get h board row (snd dest) = Ok (Some q) /\
    deref h q = Ok qp /\
    cls qp = Pawn /\
    en_passant_vulnerable qp = true /\
    (opposing = true -> color qp = opposite (color self)).

(** ** Two boards outside play *)

Definition empty_row : list (option ref) := replicate 8 None.

(** A white pawn that has not moved on a7, alone on the board. *)
Definition stray_pawn : Piece := mkPiece Pawn white (1, 0) false false.
Definition stray_pawn_heap : Heap :=
  mkHeap [stray_pawn]
         [empty_row; Some 0%nat :: replicate 7 None; empty_row; empty_row;
          empty_row; empty_row; empty_row; empty_row].

(** Two white pawns side by side on a5 and b5, the second one flagged. *)
Definition left_pawn : Piece := mkPiece Pawn white (3, 0) true false.
Definition flagged_pawn : Piece := mkPiece Pawn white (3, 1) true true.
Definition two_pawns_heap : Heap :=
  mkHeap [left_pawn; flagged_pawn]
         [empty_row; empty_row; empty_row;
          Some 0%nat :: Some 1%nat :: replicate 6 None;
          empty_row; empty_row; empty_row; empty_row].

Definition rows_0_to_7 : list ref := seq 0 8.

(** * More of the code *)

(** ** Screen coordinates *)

(** [ChessGame.get_screen_position] *)
Definition get_screen_position (g : ChessGame) (board_position : Square) : Z * Z :=
  let '(row, col) := board_position in
  if board_flipped g then ((7 - col) * SQ_SIZE, (7 - row) * SQ_SIZE)
  else (col * SQ_SIZE, row * SQ_SIZE).

(** ** What a move generator may return *)

(** The square [s] of the board is empty. *)
Definition empty_at (h : Heap) (board : list ref) (s : Square) : Prop :=
  board_get h board (fst s) (snd s) = Ok None.

(** The square [s] holds a piece that is not of colour [clr]. *)
Definition enemy_at (h : Heap) (board : list ref) (clr : Color) (s : Square) : Prop :=
  exists q qp,
    board_get h board (fst s) (snd s) = Ok (Some q) /\
    deref h q = Ok qp /\
    color qp <> clr.

(** [i] steps from [pos] in the direction [d]. *)
Definition step_to (pos : Square) (d : Z * Z) (i : Z) : Square :=
  (fst pos + i * fst d, snd pos + i * snd d).

Definition rook_directions : list (Z * Z) := [(0, 1); (1, 0); (0, -1); (-1, 0)].
Definition bishop_directions : list (Z * Z) := [(1, 1); (1, -1); (-1, 1); (-1, -1)].

(** The directions in which a piece of class [c] slides. *)
Definition directions_of (c : PieceClass) : list (Z * Z) :=
  match c with
  | Rook => rook_directions
  | Bishop => bishop_directions
  | Queen => rook_directions ++ bishop_directions
  | _ => []
  end.

(** The offsets by which a piece of class [c] jumps. *)
Definition offsets_of (c : PieceClass) : list (Z * Z) :=
  match c with
  | Knight => knight_moves
  | King => king_moves
  | _ => []
  end.

(** [dest] is reached from [pos] by sliding in one of [dirs]: between one
    and seven steps, every square passed on the board and empty, and [dest]
    on the board, empty or held by a piece of the other colour. *)
Definition slides_to (h : Heap) (board : list ref) (clr : Color) (pos : Square)
    (dirs : list (Z * Z)) (dest : Square) : Prop :=
  exists d i,
    In d dirs /\ 1 <= i <= 7 /\ dest = step_to pos d i /\
    (forall j, 1 <= j < i ->
               in_bounds (step_to pos d j) /\ empty_at h board (step_to pos d j)) /\
    in_bounds dest /\
    (empty_at h board dest \/ enemy_at h board clr dest).

(** [dest] is reached from [pos] by one of the [offsets], is on the board,
    and is empty or held by a piece of the other colour. *)
Definition jumps_to (h : Heap) (board : list ref) (clr : Color) (pos : Square)
    (offsets : list (Z * Z)) (dest : Square) : Prop :=
  exists d,
    In d offsets /\ dest = (fst pos + fst d, snd pos + snd d) /\
    in_bounds dest /\
    (empty_at h board dest \/ enemy_at h board clr dest).

(** The square beside [self] on the file [col] holds a pawn whose
    [en_passant_vulnerable] flag is set, and [self] stands on rank index 3
    (white) or 4 (black). *)
Definition en_passant_allowed (h : Heap) (board : list ref) (self : Piece)
    (col : Z) : Prop :=
  ((fst (position self) = 3 /\ color self = white) \/
   (fst (position self) = 4 /\ color self = black)) /\
  exists q qp,
    board_get h board (fst (position self)) col = Ok (Some q) /\
    deref h q = Ok qp /\
    cls qp = Pawn /\
    en_passant_vulnerable qp = true.

(** The four kinds of pawn move: one step ahead into an empty square; two
    steps ahead through and into empty squares, for a pawn whose [has_moved]
    is clear; a diagonal step onto a piece of the other colour; a diagonal
    step into an empty square beside a flagged pawn. *)
Definition pawn_moves_to (h : Heap) (board : list ref) (self : Piece)
    (dest : Square) : Prop :=
  let row := fst (position self) in
  let col := snd (position self) in
  let ahead := row + direction_of (color self) in
  0 <= ahead < 8 /\
  ((dest = (ahead, col) /\ empty_at h board (ahead, col)) \/
   (dest = (row + 2 * direction_of (color self), col) /\
    has_moved self = false /\
    empty_at h board (ahead, col) /\
    empty_at h board (row + 2 * direction_of (color self), col)) \/
   (exists dcol,
       (dcol = -1 \/ dcol = 1) /\ dest = (ahead, col + dcol) /\
       0 <= col + dcol < 8 /\
       (enemy_at h board (color self) dest \/
        (empty_at h board dest /\ en_passant_allowed h board self (col + dcol))))).

(** ** What the attack oracle looks for *)

(** The square [s] holds a king of colour [clr]. *)
Definition king_at (h : Heap) (board : list ref) (clr : Color) (s : Square) : Prop :=
  exists q qp,
    board_get h board (fst s) (snd s) = Ok (Some q) /\
    deref h q = Ok qp /\
    cls qp = King /\
    color qp = clr.

(** [a] comes before [b] in the order of the two loops over rows and
    columns. *)
Definition square_before (a b : Square) : Prop :=
  fst a < fst b \/ (fst a = fst b /\ snd a < snd b).

(** The square [s] holds a piece that is not of colour [clr] and has
    [target] among its destinations. *)
Definition attacked_from (h : Heap) (board : list ref) (clr : Color)
    (target : Square) (s : Square) : Prop :=
  exists q qp moves,
    board_get h board (fst s) (snd s) = Ok (Some q) /\
    deref h q = Ok qp /\
    color qp <> clr /\
    get_valid_moves h board qp = Ok moves /\
    In target moves.

(** ** What a call leaves alone *)

(** A call that leaves the attribute [f] of the game object as it is. *)
Definition keeps_attr {A X} (f : ChessGame -> X) (m : M A) : Prop :=
  forall w, f (self (fst (run m w))) = f (self w).

(** The store of [w] is the store of [w0] with more list objects: the piece
    objects and the lists of [w0] are what they were. *)
Definition heap_grows (w0 w : World) : Prop :=
  objs (heap w) = objs (heap w0) /\
  exists extra, lsts (heap w) = lsts (heap w0) ++ extra.

(** A call after which the store has only grown. *)
Definition grows {A} (m : M A) : Prop :=
  forall w, heap_grows w (fst (run m w)).

(** A call that keeps a finished game finished. *)
Definition stays_over {A} (m : M A) : Prop :=
  forall w, game_over (self w) = true -> game_over (self (fst (run m w))) = true.

(** The rows of the board of [w], as [get_current_position] reads them. *)
Definition board_rows (w : World) : Res Snapshot :=
  collect (fun rr => row ← deref_list (heap w) rr; Ok [row]) (board (self w)).

(** ** Boards as grids *)

(** [b] is a grid in the store [h]: eight different list objects of eight
    cells each. *)
Definition grid (h : Heap) (b : list ref) : Prop :=
  length b = 8%nat /\
  NoDup b /\
  forall rr, In rr b -> exists row, lsts h !! rr = Some row /\ length row = 8%nat.

(** A call after which every list object that existed is what it was. *)
Definition keeps_lists {A} (m : M A) : Prop :=
  forall w, exists extra, lsts (heap (fst (run m w))) = lsts (heap w) ++ extra.

(** [x'] is the piece [x] up to its pawn flags. *)
Definition same_place (x x' : Piece) : Prop :=
  cls x' = cls x /\ color x' = color x /\ position x' = position x.

(** A call after which every piece object that existed is still there, of
    the same class and colour and with the same stored position. *)
Definition keeps_places {A} (m : M A) : Prop :=
  forall w q x,
    objs (heap w) !! q = Some x ->
    exists x', objs (heap (fst (run m w))) !! q = Some x' /\ same_place x x'.

(** Every piece on the board of [w] stores the square it stands on. *)
Definition synced (w : World) : Prop :=
  forall s q,
    in_bounds s ->
    board_get (heap w) (board (self w)) (fst s) (snd s) = Ok (Some q) ->
    exists x, deref (heap w) q = Ok x /\ position x = s.

(** The move of the piece [p] to [dest] is carried out as an en passant
    capture: a pawn changes file and lands on an empty square. *)
Definition captures_en_passant (w : World) (p : Piece) (dest : Square) : Prop :=
  cls p = Pawn /\
  snd dest <> snd (position p) /\
  board_get (heap w) (board (self w)) (fst dest) (snd dest) = Ok None.

(** ** [ai.py] *)

(** [ChessAI.get_state_representation]: the pieces on the board, in the
    order of the two loops. *)
Definition get_state_representation (h : Heap) (g : ChessGame) : Res (list ref) :=
  collect (fun s : Square =>
             cell ← board_get h (board g) (fst s) (snd s);
             Ok (match cell with
                 | Some q => [q]
                 | None => []
                 end))
          all_squares.

(** [ChessAI.get_possible_actions] *)
Definition get_possible_actions (h : Heap) (g : ChessGame)
  : Res (list (Square * Square)) :=
  state ← get_state_representation h g;
  collect (fun q =>
             p ← deref h q;
             moves ← get_valid_moves h (board g) p;
             Ok (map (fun move => (position p, move)) moves))
          state.

(** ** Checking a world *)

(** [grid], computed. *)
Definition gridb (h : Heap) (b : list ref) : bool :=
  (length b =? 8)%nat
  && bool_decide (NoDup b)
  && forallb (fun rr => match lsts h !! rr with
                        | Some row => (length row =? 8)%nat
                        | None => false
                        end) b.

(** [synced], computed. *)
Definition syncedb (w : World) : bool :=
  forallb (fun s : Square =>
             match board_get (heap w) (board (self w)) (fst s) (snd s) with
             | Ok (Some q) =>
                 match deref (heap w) q with
                 | Ok x => Square_eqb (position x) s
                 | Raise _ => false
                 end
             | _ => true
             end) all_squares.

(** ** Worlds in which the handlers run *)

(** A piece that stands on the board and, if it is a pawn whose [has_moved]
    is clear, not one rank before its last rank. *)
Definition piece_ok (p : Piece) : Prop :=
  in_bounds (position p) /\
  (cls p = Pawn -> has_moved p = false ->
   fst (position p) <> last_but_one (color p)).

(** Every list object of the store is a row of eight cells, each empty or a
    reference to a piece object. *)
Definition rows_ok (h : Heap) : Prop :=
  Forall (fun row => row_ok h row = true) (lsts h).

(** [b] is made of eight of the first [m] list objects. *)
Definition board_in (m : nat) (b : list ref) : Prop :=
  length b = 8%nat /\ Forall (fun rr => (rr < m)%nat) b.

(** The store [h] holds the pieces [os] and at least [m] rows. *)
Definition heap_in (os : list Piece) (m : nat) (h : Heap) : Prop :=
  objs h = os /\ (m <= length (lsts h))%nat /\ rows_ok h.

(** The same of the store of [w], the board of its game being [b]. *)
Definition stable (os : list Piece) (b : list ref) (m : nat) (w : World) : Prop :=
  heap_in os m (heap w) /\ board (self w) = b.

(** The same for some pieces, [n] of them, that are all [piece_ok]. *)
Definition stable_ok (n : nat) (b : list ref) (m : nat) (w : World) : Prop :=
  exists os, stable os b m w /\ Forall piece_ok os /\ length os = n.

(** The selection names a piece object, and the destinations kept for it
    are on the board. *)
Definition selection_ok (n : nat) (g : ChessGame) : Prop :=
  (forall q, selected_piece g = Some q -> (q < n)%nat) /\
  Forall in_bounds (valid_moves g).

(** A world as the handlers expect and leave it. *)
Definition well_formed (w : World) : Prop :=
  Forall piece_ok (objs (heap w)) /\
  rows_ok (heap w) /\
  board_in (length (lsts (heap w))) (board (self w)) /\
  selection_ok (length (objs (heap w))) (self w).

(** From a world of [P] the call [m] returns, in a world of [Q]: it raises
    no exception. *)
Definition returns {A} (P : World -> Prop) (m : M A) (Q : A -> World -> Prop) : Prop :=
  hoare P m Q (fun _ => False).

(** [piece_ok], computed. *)
Definition piece_okb (p : Piece) : bool :=
  in_range (fst (position p)) && in_range (snd (position p))
  && (negb (is_class Pawn p) || has_moved p
      || negb (fst (position p) =? last_but_one (color p))).

(** [well_formed], computed. *)
Definition well_formedb (w : World) : bool :=
  forallb piece_okb (objs (heap w))
  && forallb (row_ok (heap w)) (lsts (heap w))
  && (length (board (self w)) =? 8)%nat
  && forallb (fun rr => (rr <? length (lsts (heap w)))%nat) (board (self w))
  && match selected_piece (self w) with
     | Some q => (q <? length (objs (heap w)))%nat
     | None => true
     end
  && forallb (fun s => in_range (fst s) && in_range (snd s)) (valid_moves (self w)).

(** ** The window *)

Definition WIDTH : Z := 480.
Definition HEIGHT : Z := 500.

(** A position of the mouse in the window, which [main] opens with the size
    [(WIDTH, HEIGHT + 50)]. *)
Definition in_window (pos : Z * Z) : Prop :=
  0 <= fst pos < WIDTH /\ 0 <= snd pos < HEIGHT + 50.

(** A call of one of the methods that an event of the mouse sets off. *)
Inductive Call :=
| Click (pos : Z * Z)
| Release (pos : Z * Z)
| Flip
| Resign.

Definition call (c : Call) : M unit :=
  match c with
  | Click pos => handle_click pos
  | Release pos => handle_release pos
  | Flip => flip_board
  | Resign => resign
  end.

(** The positions of the calls are in the window. *)
Definition call_in_window (c : Call) : Prop :=
  match c with
  | Click pos | Release pos => in_window pos
  | Flip | Resign => True
  end.

(** ** The flags of the pawns *)

(** [os'] is [os] with [en_passant_vulnerable] cleared on some pawns of
    colour [clr] other than [mover]. *)
Definition clears_flags (mover : ref) (clr : Color) (os os' : list Piece) : Prop :=
  length os' = length os /\
  forall q x, os !! q = Some x ->
    exists x', os' !! q = Some x' /\
      (x' = x \/
       (x' = set_en_passant_vulnerable false x /\
        cls x = Pawn /\ color x = clr /\ q <> mover)).

(** The piece [q], if it is a pawn of colour [clr] other than [mover], is
    not flagged. *)
Definition unflagged (mover : ref) (clr : Color) (os : list Piece) (q : ref) : Prop :=
  q <> mover ->
  forall x, os !! q = Some x -> cls x = Pawn -> color x = clr ->
            en_passant_vulnerable x = false.

(** ** Worlds that show the same board *)

(** [w1] has the game object and the pieces of [w], and its board, a grid
    as in [w], holds the same cells. *)
Definition same_board (w w1 : World) : Prop :=
  self w1 = self w /\
  objs (heap w1) = objs (heap w) /\
  grid (heap w) (board (self w)) /\
  grid (heap w1) (board (self w)) /\
  forall s, in_bounds s ->
            board_get (heap w1) (board (self w)) (fst s) (snd s)
            = board_get (heap w) (board (self w)) (fst s) (snd s).

(** No piece of colour [clr] on the board of [w] has a legal move. *)
Definition no_legal_move (w : World) (clr : Color) : Prop :=
  forall s q qp,
    in_bounds s ->
    board_get (heap w) (board (self w)) (fst s) (snd s) = Ok (Some q) ->
    deref (heap w) q = Ok qp -> color qp = clr ->
    exists w2, run (get_legal_moves q) w = (w2, Ok []).

(** 1. f3 e5 2. g4 Qh4 *)
Definition fools_mate_game : list (Square * Square) :=
  [((6, 5), (5, 5)); ((1, 4), (3, 4)); ((6, 6), (4, 6)); ((0, 3), (4, 7))].

Definition fools_mate_position : World :=
  fst (run (play fools_mate_game) (new_game white)).

(** * Properties *)

(** ** The logic of method calls *)

Lemma run_bind {A B} (m : M A) (f : A -> M B) (w : World) :
  run (m ≫= f) w =
  match run m w with
  | (w', Ok a) => run (f a) w'
  | (w', Raise e) => (w', Raise e)
  end.
Proof. reflexivity. Qed.

Lemma hoare_bind {A B} (P : World -> Prop) (m : M A) (Q : A -> World -> Prop)
    (f : A -> M B) (R : B -> World -> Prop) (E : World -> Prop) :
  hoare P m Q E -> (forall a, hoare (Q a) (f a) R E) -> hoare P (m ≫= f) R E.
Proof.
  intros Hm Hf w HP. rewrite run_bind.
  specialize (Hm w HP). destruct (run m w) as [w' [a|e]]; [|exact Hm].
  exact (Hf a w' Hm).
Qed.

Lemma hoare_ret {A} (P : World -> Prop) (a : A) (Q : A -> World -> Prop)
    (E : World -> Prop) :
  (forall w, P w -> Q a w) -> hoare P (mret a) Q E.
Proof. intros H w HP. apply H, HP. Qed.

Lemma hoare_post {A} (P : World -> Prop) (m : M A)
    (Q Q' : A -> World -> Prop) (E : World -> Prop) :
  hoare P m Q' E -> (forall a w, Q' a w -> Q a w) -> hoare P m Q E.
Proof.
  intros H HQ w Hw. specialize (H w Hw).
  destruct (run m w) as [w' [a|e]]; auto.
Qed.

(** A fact that does not depend on the world can be taken out of a
    precondition. *)
Lemma hoare_assume {A} (F : Prop) (P : World -> Prop) (m : M A)
    (Q : A -> World -> Prop) (E : World -> Prop) :
  (F -> hoare P m Q E) -> hoare (fun w => P w /\ F) m Q E.
Proof. intros H w [HP HF]. exact (H HF w HP). Qed.

(** Calls that only read: the world stays, and the value is the one read. *)
Lemma hoare_lift {A} (P E : World -> Prop) (r : Res A) :
  (forall w, P w -> E w) ->
  hoare P (lift r) (fun a w => P w /\ r = Ok a) E.
Proof. intros HE w HP. cbn. destruct r; auto. Qed.

Lemma hoare_raise {A} (P E : World -> Prop) (Q : A -> World -> Prop) (e : exn) :
  (forall w, P w -> E w) -> hoare P (raise e) Q E.
Proof. intros HE w HP. apply HE, HP. Qed.

Lemma hoare_get_self (P E : World -> Prop) :
  hoare P get_self (fun g w => P w /\ g = self w) E.
Proof. intros w HP. cbn. auto. Qed.

Lemma hoare_get_heap (P E : World -> Prop) :
  hoare P get_heap (fun h w => P w /\ h = heap w) E.
Proof. intros w HP. cbn. auto. Qed.

Lemma hoare_load (P E : World -> Prop) (p : ref) :
  (forall w, P w -> E w) ->
  hoare P (load p) (fun x w => P w /\ deref (heap w) p = Ok x) E.
Proof. intros HE w HP. unfold load. cbn. destruct (deref (heap w) p); auto. Qed.

Lemma hoare_board_read (P E : World -> Prop) (b : list ref) (r c : Z) :
  (forall w, P w -> E w) ->
  hoare P (board_read b r c) (fun x w => P w /\ board_get (heap w) b r c = Ok x) E.
Proof.
  intros HE w HP. unfold board_read. cbn.
  destruct (board_get (heap w) b r c); auto.
Qed.

Lemma hoare_modify_self (P E : World -> Prop) (f : ChessGame -> ChessGame) :
  hoare P (modify_self f)
    (fun _ w => exists w1, P w1 /\ w = mkWorld (heap w1) (f (self w1))) E.
Proof. intros w HP. cbn. eauto. Qed.

Lemma run_bind_Ok {A B} (m : M A) (f : A -> M B) (w w' : World) (b : B) :
  run (m ≫= f) w = (w', Ok b) ->
  exists w1 a, run m w = (w1, Ok a) /\ run (f a) w1 = (w', Ok b).
Proof.
  rewrite run_bind. destruct (run m w) as [w1 [a|e]]; [eauto|discriminate].
Qed.

Lemma hoare_fst {A} (P E : World -> Prop) (m : M A) (w : World) :
  hoare P m (fun _ => E) E -> P w -> E (fst (run m w)).
Proof. intros H HP. specialize (H w HP). by destruct (run m w) as [w' [a|e]]. Qed.

(** ** Calls that leave the game object alone *)

Lemma heap_only_bind {A B} (m : M A) (f : A -> M B) :
  heap_only m -> (forall a, heap_only (f a)) -> heap_only (m ≫= f).
Proof.
  intros Hm Hf w. rewrite run_bind. specialize (Hm w).
  destruct (run m w) as [w1 [a|e]]; cbn in *; [|exact Hm].
  by rewrite Hf.
Qed.

Lemma heap_only_ret {A} (a : A) : heap_only (mret a).
Proof. by intros w. Qed.
Lemma heap_only_lift {A} (r : Res A) : heap_only (lift r).
Proof. by intros w. Qed.
Lemma heap_only_get_heap : heap_only get_heap.
Proof. by intros w. Qed.
Lemma heap_only_put_heap (h : Heap) : heap_only (put_heap h).
Proof. by intros w. Qed.

Create HintDb heap_only.

#[local] Hint Resolve heap_only_ret heap_only_lift heap_only_get_heap
  heap_only_put_heap : heap_only.

Ltac heap_only_steps :=
  repeat first
    [ solve [auto with heap_only]
    | apply heap_only_bind; [|intros ?]
    | match goal with
      | |- heap_only (match ?x with _ => _ end) => destruct x
      end ].

Lemma heap_only_load (p : ref) : heap_only (load p).
Proof. unfold load. heap_only_steps. Qed.

Lemma heap_only_board_read (b : list ref) (r c : Z) : heap_only (board_read b r c).
Proof. unfold board_read. heap_only_steps. Qed.

Lemma heap_only_board_set (b : list ref) (r c : Z) (v : option ref) :
  heap_only (board_set b r c v).
Proof. unfold board_set. heap_only_steps. Qed.

Lemma heap_only_update_piece (p : ref) (f : Piece -> Piece) :
  heap_only (update_piece p f).
Proof. unfold update_piece. heap_only_steps. Qed.

#[local] Hint Resolve heap_only_load heap_only_board_read heap_only_board_set
  heap_only_update_piece : heap_only.

Lemma heap_only_for_each {A} (l : list A) (body : A -> M unit) :
  (forall a, heap_only (body a)) -> heap_only (for_each l body).
Proof.
  intros Hbody. induction l as [|a l IH]; cbn [for_each]; heap_only_steps.
Qed.

Lemma heap_only_run {A} (m : M A) (w w' : World) (r : Res A) :
  heap_only m -> run m w = (w', r) -> self w' = self w.
Proof. intros H Hrun. specialize (H w). by rewrite Hrun in H. Qed.

Lemma heap_only_get_self : heap_only get_self.
Proof. by intros w. Qed.

#[local] Hint Resolve heap_only_get_self : heap_only.

Lemma heap_only_reset_en_passant (mover : ref) (clr : Color) :
  heap_only (reset_en_passant mover clr).
Proof.
  intros w. unfold reset_en_passant. rewrite run_bind. cbn [get_self run].
  apply heap_only_for_each. intros rr. heap_only_steps.
  apply heap_only_for_each. intros cell. heap_only_steps.
Qed.

#[local] Hint Resolve heap_only_reset_en_passant : heap_only.

Lemma heap_only_is_in_check (clr : Color) : heap_only (is_in_check clr).
Proof. unfold is_in_check. heap_only_steps. Qed.

Lemma heap_only_alloc_piece (p : Piece) : heap_only (alloc_piece p).
Proof. unfold alloc_piece. heap_only_steps. Qed.

Lemma heap_only_get_current_position : heap_only get_current_position.
Proof. unfold get_current_position. heap_only_steps. Qed.

(** ** Extensions of the store *)

Lemma extends_refl (w : World) : extends w w.
Proof. repeat split. exists []. by rewrite app_nil_r. Qed.

Lemma getitem_elem {A} (l : list A) (i : Z) (x : A) :
  getitem l i = Ok x -> x ∈ l.
Proof.
  unfold getitem. destruct (py_index _ i) as [n|]; [|discriminate].
  destruct (l !! n) eqn:Hn; [|discriminate].
  intros [= <-]. by eapply list_elem_of_lookup_2.
Qed.

Section Frame.
Variable w0 : World.

Lemma alloc_list_extends (P : World -> Prop) (l : list (option ref)) :
  (forall w, P w -> extends w0 w) ->
  hoare P (alloc_list l) (fun r w => extends w0 w /\ fresh_in w0 r) (extends w0).
Proof.
  intros HP w Hw. destruct (HP w Hw) as (Hs & Ho & extra & Hl).
  cbn. repeat split; auto.
  - exists (extra ++ [l]). cbn. by rewrite Hl, app_assoc.
  - unfold fresh_in. rewrite Hl, length_app. lia.
Qed.

(** Writing into a list created after [w0] leaves the lists of [w0]. *)
Lemma board_set_extends (P : World -> Prop) (b : list ref) (r c : Z) (v : option ref) :
  (forall w, P w -> extends w0 w) ->
  Forall (fresh_in w0) b ->
  hoare P (board_set b r c v) (fun _ => extends w0) (extends w0).
Proof.
  intros HP Hb w Hw. apply HP in Hw. unfold board_set. rewrite run_bind. cbn.
  destruct (getitem b r) as [rr|e] eqn:Hrr; [|exact Hw].
  cbn. destruct (deref_list (heap w) rr) as [row|e]; [|exact Hw].
  cbn. destruct (setitem row c v) as [row'|e]; [|exact Hw].
  cbn. destruct Hw as (Hs & Ho & extra & Hl).
  repeat split; auto. cbn.
  apply getitem_elem in Hrr.
  rewrite Forall_forall in Hb. specialize (Hb rr Hrr).
  exists (<[(rr - length (lsts (heap w0)))%nat:=row']> extra).
  rewrite Hl. by apply insert_app_r_alt.
Qed.

(** [[row[:] for row in self.board]] *)
Lemma copy_rows_extends (P : World -> Prop) (rows : list ref) :
  (forall w, P w -> extends w0 w) ->
  hoare P
    (map_M (fun rr => h ← get_heap; row ← lift (deref_list h rr); alloc_list row) rows)
    (fun refs w => extends w0 w /\ Forall (fresh_in w0) refs)
    (extends w0).
Proof.
  revert P. induction rows as [|rr rows IH]; intros P HP; cbn [map_M].
  - apply hoare_ret. auto.
  - eapply hoare_bind.
    + eapply hoare_bind; [apply hoare_get_heap|]. intros h.
      eapply hoare_bind; [apply hoare_lift; intros w [Hw _]; auto|].
      intros row. apply alloc_list_extends. intros w [[Hw _] _]. auto.
    + intros r. apply hoare_assume. intros Hr. eapply hoare_bind.
      * apply IH. intros w Hw. exact Hw.
      * intros refs. apply hoare_ret. intros w [H1 H2]. split; auto.
Qed.

Lemma move_causes_check_extends (P : World -> Prop) (piece : ref) (move : Square) :
  (forall w, P w -> extends w0 w) ->
  hoare P (move_causes_check piece move) (fun _ => extends w0) (extends w0).
Proof.
  intros HP. unfold move_causes_check.
  eapply hoare_bind; [apply hoare_get_self|]. intros g.
  eapply hoare_bind; [apply copy_rows_extends; intros w [Hw _]; auto|].
  intros temp_board. apply hoare_assume. intros Hfresh.
  eapply hoare_bind; [apply hoare_load; auto|]. intros p.
  destruct (position p) as [start_row start_col], move as [end_row end_col].
  eapply hoare_bind; [apply board_set_extends; [intros w [Hw _]; exact Hw|exact Hfresh]|].
  intros ?.
  eapply hoare_bind; [apply board_set_extends; [auto|exact Hfresh]|].
  intros ?.
  eapply hoare_bind; [apply hoare_get_heap|]. intros h.
  eapply hoare_bind; [apply hoare_lift; intros w [Hw _]; exact Hw|].
  intros king. eapply hoare_post; [apply hoare_lift; intros w [[Hw _] _]; exact Hw|].
  intros b w [[[Hw _] _] _]. exact Hw.
Qed.

Lemma legal_among_extends (P : World -> Prop) (piece : ref) (moves : list Square) :
  (forall w, P w -> extends w0 w) ->
  hoare P (legal_among piece moves) (fun _ => extends w0) (extends w0).
Proof.
  revert P. induction moves as [|move rest IH]; intros P HP; cbn [legal_among].
  - apply hoare_ret. auto.
  - eapply hoare_bind; [apply move_causes_check_extends, HP|]. intros bad.
    eapply hoare_bind; [apply IH; auto|]. intros more.
    apply hoare_ret. auto.
Qed.

Lemma get_legal_moves_extends (P : World -> Prop) (piece : ref) :
  (forall w, P w -> extends w0 w) ->
  hoare P (get_legal_moves piece) (fun _ => extends w0) (extends w0).
Proof.
  intros HP. unfold get_legal_moves.
  eapply hoare_bind; [apply hoare_get_self|]. intros g.
  eapply hoare_bind; [apply hoare_get_heap|]. intros h.
  eapply hoare_bind; [apply hoare_lift; intros w [[Hw _] _]; auto|]. intros p.
  eapply hoare_bind; [apply hoare_lift; intros w [[[Hw _] _] _]; auto|].
  intros potential. apply legal_among_extends.
  intros w [[[[Hw _] _] _] _]. auto.
Qed.
End Frame.

(** C9. Computing the legal moves of a piece leaves the committed state as
    it was: whatever the world and the piece, and whether the call returns
    or raises, the game object (board, turn, check flags, game-over flag,
    last move, history, selection) and every piece object (position, flags)
    are unchanged, and so is every list object that existed before the call,
    the rows of the real board among them.  The only trace of the simulated
    moves is the list objects created for the temporary boards, which nothing
    refers to. *)
Theorem get_legal_moves_leaves_state (w : World) (piece : ref) :
  exists (temporary : list (list (option ref))) (r : Res (list Square)),
    run (get_legal_moves piece) w =
    (mkWorld (mkHeap (objs (heap w)) (lsts (heap w) ++ temporary)) (self w), r).
Proof.
  pose proof (get_legal_moves_extends w (extends w) piece (fun _ H => H) w
                (extends_refl w)) as H.
  destruct (run (get_legal_moves piece) w) as [[[o l] g] r].
  assert (extends w (mkWorld (mkHeap o l) g)) as (Hs & Ho & extra & Hl)
    by (destruct r; exact H).
  cbn in Hs, Ho, Hl. subst. eauto.
Qed.

(** ** The frame of the terminal tests *)

Section FrameOfChecks.
Variable w0 : World.

Lemma has_no_legal_moves_from_extends (P : World -> Prop) (clr : Color)
    (sqs : list Square) :
  (forall w, P w -> extends w0 w) ->
  hoare P (has_no_legal_moves_from clr sqs) (fun _ => extends w0) (extends w0).
Proof.
  revert P. induction sqs as [|[row col] rest IH]; intros P HP;
    cbn [has_no_legal_moves_from].
  - apply hoare_ret. auto.
  - eapply hoare_bind; [apply hoare_get_self|]. intros g.
    eapply hoare_bind; [apply hoare_board_read; intros w [Hw _]; auto|].
    intros [q|]; [|apply IH; intros w [[Hw _] _]; auto].
    eapply hoare_bind; [apply hoare_load; intros w [[Hw _] _]; auto|].
    intros qp. destruct (color_eqb (color qp) clr);
      [|apply IH; intros w [[[Hw _] _] _]; auto].
    eapply hoare_bind;
      [apply get_legal_moves_extends; intros w [[[Hw _] _] _]; auto|].
    intros [|move moves]; [apply IH; auto|apply hoare_ret; auto].
Qed.

Lemma is_checkmate_extends (clr : Color) :
  hoare (extends w0) (is_checkmate clr) (fun _ => extends w0) (extends w0).
Proof.
  unfold is_checkmate.
  eapply hoare_bind; [apply hoare_get_self|]. intros g.
  destruct (negb (in_check_of g clr)).
  - apply hoare_ret. intros w [Hw _]. exact Hw.
  - apply has_no_legal_moves_from_extends. intros w [Hw _]. exact Hw.
Qed.

Lemma is_stalemate_extends (clr : Color) :
  hoare (extends w0) (is_stalemate clr) (fun _ => extends w0) (extends w0).
Proof.
  unfold is_stalemate.
  eapply hoare_bind; [apply hoare_get_self|]. intros g.
  destruct (in_check_of g clr).
  - apply hoare_ret. intros w [Hw _]. exact Hw.
  - apply has_no_legal_moves_from_extends. intros w [Hw _]. exact Hw.
Qed.
End FrameOfChecks.

Lemma heap_only_of_extends {A} (m : M A) :
  (forall w0, hoare (extends w0) m (fun _ => extends w0) (extends w0)) ->
  heap_only m.
Proof.
  intros H w.
  destruct (hoare_fst (extends w) (extends w) m w (H w) (extends_refl w)) as [Hs _].
  exact Hs.
Qed.

Lemma heap_only_is_checkmate (clr : Color) : heap_only (is_checkmate clr).
Proof. apply heap_only_of_extends. intros w0. apply is_checkmate_extends. Qed.

Lemma heap_only_is_stalemate (clr : Color) : heap_only (is_stalemate clr).
Proof. apply heap_only_of_extends. intros w0. apply is_stalemate_extends. Qed.

(** ** The turn *)

Lemma keeps_turn_heap_only {A} (m : M A) : heap_only m -> keeps_turn m.
Proof. intros H w. by rewrite H. Qed.

Lemma keeps_turn_bind {A B} (m : M A) (f : A -> M B) :
  keeps_turn m -> (forall a, keeps_turn (f a)) -> keeps_turn (m ≫= f).
Proof.
  intros Hm Hf w. rewrite run_bind. specialize (Hm w).
  destruct (run m w) as [w1 [a|e]]; cbn in *; [|exact Hm].
  by rewrite Hf.
Qed.

Lemma keeps_turn_modify_self (f : ChessGame -> ChessGame) :
  (forall g, turn (f g) = turn g) -> keeps_turn (modify_self f).
Proof. intros Hf w. cbn. apply Hf. Qed.

Create HintDb keeps_turn.

#[local] Hint Resolve heap_only_is_checkmate heap_only_is_stalemate
  heap_only_is_in_check heap_only_alloc_piece heap_only_get_current_position
  : heap_only.

Ltac keeps_turn_steps :=
  repeat first
    [ solve [auto with keeps_turn]
    | solve [apply keeps_turn_heap_only; auto with heap_only]
    | solve [apply keeps_turn_modify_self; intros ?; reflexivity]
    | apply keeps_turn_bind; [|intros ?]
    | match goal with
      | |- keeps_turn (match ?x with _ => _ end) => destruct x
      end ].

Lemma keeps_turn_update_check_status : keeps_turn update_check_status.
Proof. unfold update_check_status. keeps_turn_steps. Qed.

Lemma keeps_turn_update_game_over : keeps_turn update_game_over.
Proof. unfold update_game_over. keeps_turn_steps. Qed.

Lemma keeps_turn_update_position_history : keeps_turn update_position_history.
Proof. unfold update_position_history. keeps_turn_steps. Qed.

#[local] Hint Resolve keeps_turn_update_check_status keeps_turn_update_game_over
  keeps_turn_update_position_history : keeps_turn.

(** ** Rejected requests *)

Lemma existsb_Square_eqb (s : Square) (l : list Square) :
  existsb (Square_eqb s) l = true <-> In s l.
Proof.
  rewrite existsb_exists. split.
  - intros (x & Hin & Heq). unfold Square_eqb in Heq.
    apply andb_true_iff in Heq as [H1 H2].
    apply Z.eqb_eq in H1, H2. destruct s, x; cbn in *; by subst.
  - intros Hin. exists s. split; [exact Hin|].
    unfold Square_eqb. by rewrite !Z.eqb_refl.
Qed.

(** C7. A move request whose destination is not in the legal-move set of
    the selected piece (the set that [select_piece] stored in [valid_moves])
    is rejected: [move_piece] returns [False] and the world after the call
    is the world before it, so the board, every piece's position and flags,
    the turn, the check flags, the game-over flag, the last move and the
    history are what they were, and the caller may ask again. *)
Theorem move_piece_rejects_illegal (w : World) (sel : ref) (p : Piece)
    (legal : list Square) (end_pos : Z * Z) :
  selected_piece (self w) = Some sel ->
  deref (heap w) sel = Ok p ->
  snd (run (get_legal_moves sel) w) = Ok legal ->
  valid_moves (self w) = legal ->
  ~ In (get_board_position (self w) end_pos) legal ->
  run (move_piece end_pos) w = (w, Ok false).
Proof.
  intros Hsel Hp _ Hvalid Hnot. unfold move_piece.
  destruct (BOARD_SIZE <=? end_pos.2); [reflexivity|].
  rewrite run_bind. cbn [get_self run].
  destruct (get_board_position (self w) end_pos) as [end_row end_col] eqn:Hpos.
  rewrite Hsel, run_bind. cbn [mret M_ret run].
  rewrite run_bind. unfold load. rewrite run_bind. cbn [get_heap run lift].
  rewrite Hp. destruct (position p) as [start_row start_col].
  destruct (existsb _ _) eqn:Hex; [|reflexivity].
  apply existsb_Square_eqb in Hex. rewrite Hvalid in Hex. contradiction.
Qed.

(** The request of the witness: in a new game the pawn on e2 is selected and
    released on e5. *)
Lemma move_piece_rejects_illegal_witness :
  let w := fst (run (handle_click (square_center (6, 4))) (new_game white)) in
  run (move_piece (square_center (3, 4))) w = (w, Ok false).
Proof.
  intros w.
  apply (move_piece_rejects_illegal w 9%nat (mkPiece Pawn white (6, 4) false false)
           [(5, 4); (4, 4)]).
  - vm_compute. reflexivity.
  - vm_compute. reflexivity.
  - vm_compute. reflexivity.
  - vm_compute. reflexivity.
  - vm_compute. intros [H|[H|[]]]; discriminate H.
Defined.

(** ** Promotion without a pending pawn *)

(** C3, as the code has it. With no promotion pending, [promote_pawn] raises
    [AttributeError] (it reads [self.promotion_pawn.position] first) and
    leaves the world as it was; nothing is returned to the caller. *)
Theorem promote_pawn_without_pending (w : World) (piece_class : PieceClass) :
  promotion_pawn (self w) = None ->
  run (promote_pawn piece_class) w = (w, Raise AttributeError).
Proof.
  intros Hnone. unfold promote_pawn.
  rewrite run_bind. cbn [get_self run]. rewrite Hnone. reflexivity.
Qed.

Lemma promote_pawn_without_pending_witness :
  run (promote_pawn Queen) (new_game white) = (new_game white, Raise AttributeError).
Proof.
  apply (promote_pawn_without_pending (new_game white) Queen).
  vm_compute. reflexivity.
Defined.

(** C3, as the specification has it, fails in a new game: no promotion is
    pending there, and the call does not return. *)
Lemma promote_pawn_in_new_game_raises :
  promotion_pawn (self (new_game white)) = None /\
  ~ exists v : unit, snd (run (promote_pawn Queen) (new_game white)) = Ok v.
Proof.
  split; [vm_compute; reflexivity|].
  intros [v Hv]. vm_compute in Hv. discriminate Hv.
Qed.

(** ** Resignation *)

Lemma resign_run (w : World) :
  run resign w =
  (mkWorld (heap w)
     (set_over (winner_name (turn (self w)) +:+ " wins by resignation!") (self w)),
   Ok tt).
Proof. reflexivity. Qed.

(** Whatever the state, [resign] leaves the game over, won by the opponent
    of the side to move. *)
Lemma resign_result (w : World) :
  let w' := fst (run resign w) in
  game_over (self w') = true /\
  game_result (self w') =
    Some (match turn (self w) with
          | white => "Black wins by resignation!"
          | black => "White wins by resignation!"
          end)%string.
Proof. cbn. split; [reflexivity|]. by destruct (turn (self w)). Qed.

(** C5, at a game that is over. After 1. Nf3 Nf6 2. Ng1 Ng8 played until the
    game is drawn by repetition, [resign] replaces the recorded result: the
    draw becomes a win for Black. *)
Theorem resign_overwrites_result_of_finished_game :
  snd (run (play repetition_game) (new_game white)) = Ok tt /\
  game_over (self repetition_position) = true /\
  game_result (self repetition_position) = Some "Draw by repetition!"%string /\
  turn (self repetition_position) = white /\
  let w' := fst (run resign repetition_position) in
  game_over (self w') = true /\
  game_result (self w') = Some "Black wins by resignation!"%string.
Proof. vm_compute. repeat split; reflexivity. Qed.

(** ** Promotion *)

(** Whatever the state and the class chosen, and whether it returns or
    raises, [promote_pawn] leaves the turn where it was. *)
Lemma promote_pawn_keeps_turn (piece_class : PieceClass) :
  keeps_turn (promote_pawn piece_class).
Proof.
  unfold promote_pawn.
  apply keeps_turn_bind; [keeps_turn_steps|intros g].
  apply keeps_turn_bind; [keeps_turn_steps|intros pawn].
  destruct (position pawn) as [row col]. keeps_turn_steps.
Qed.

(** A promotion ends with the three updates as well, run for the side that
    has just promoted. *)
Lemma promote_pawn_completed (w w' : World) (piece_class : PieceClass) :
  run (promote_pawn piece_class) w = (w', Ok tt) ->
  exists w1,
    turn (self w1) = turn (self w) /\
    run (update_check_status;; update_game_over;; update_position_history) w1
    = (w', Ok tt).
Proof.
  intros Hrun. unfold promote_pawn in Hrun.
  rewrite run_bind in Hrun. cbn [get_self run] in Hrun.
  apply run_bind_Ok in Hrun as (wa & pawn & Ha & Hrun).
  destruct (position pawn) as [row col].
  apply run_bind_Ok in Hrun as (wb & fresh & Hb & Hrun).
  apply run_bind_Ok in Hrun as (wc & [] & Hc & Hrun).
  apply run_bind_Ok in Hrun as (wd & [] & Hd & Hrun).
  exists wd. split; [|exact Hrun].
  cbn in Hd. injection Hd as <-. cbn.
  apply heap_only_run in Ha, Hb, Hc; [congruence|heap_only_steps..].
Qed.


(** C2, at a pending promotion. After 1. a4 b5 2. axb5 a6 3. bxa6 Bb7
    4. axb7 Nc6 5. bxa8 the white pawn (object 1) waits on a8 with White
    still to move. [promote_pawn Queen] puts a new white queen (object 32)
    on a8, recomputes the check flags, evaluates the terminal conditions and
    appends one snapshot, but the turn stays with White, and [last_move] is
    still Black's knight move. *)
Theorem promote_pawn_does_not_flip_turn :
  snd (run (play promotion_game) (new_game white)) = Ok tt /\
  let w := promotion_position in
  promotion_pawn (self w) = Some 1%nat /\
  deref (heap w) 1%nat = Ok (mkPiece Pawn white (0, 0) true false) /\
  turn (self w) = white /\
  length (position_history (self w)) = 8%nat /\
  let w' := fst (run (promote_pawn Queen) w) in
  snd (run (promote_pawn Queen) w) = Ok tt /\
  board_get (heap w') (board (self w')) 0 0 = Ok (Some 32%nat) /\
  deref (heap w') 32%nat = Ok (mkPiece Queen white (0, 0) false false) /\
  promotion_pawn (self w') = None /\
  length (position_history (self w')) = 9%nat /\
  last_move (self w') = Some (0, 1, 2, 2) /\
  turn (self w') = white.
Proof. vm_compute. repeat split; reflexivity. Qed.

(** ** En passant and the legality filter *)

(** C1, at an en passant capture. After 1. f4 c6 2. f5 Qa5 3. Kf2 a6 4. Kg3
    b6 5. Kh4 e6 6. Kh5 g5 the white king is on h5, the white pawn (object
    11) on f5, the black pawn that has just moved two ranks on g5 and the
    black queen on a5.  The filter accepts the capture f5xg6: on its
    temporary board the pawn on g5 still stands between queen and king.
    [move_piece] removes that pawn, and the white king is attacked as soon as
    the move is applied. *)
Theorem en_passant_capture_exposes_king :
  snd (run (play en_passant_game) (new_game white)) = Ok tt /\
  let w := en_passant_position in
  turn (self w) = white /\
  game_over (self w) = false /\
  board_get (heap w) (board (self w)) 3 5 = Ok (Some 11%nat) /\
  deref (heap w) 11%nat = Ok (mkPiece Pawn white (3, 5) true false) /\
  find_king (heap w) white (board (self w)) = Ok (Some (3, 7)) /\
  is_square_under_attack (heap w) (Some (3, 7)) white (board (self w)) = Ok false /\
  snd (run (get_legal_moves 11%nat) w) = Ok [(2, 5); (2, 4); (2, 6)] /\
  let w' := fst (run (drag (3, 5) (2, 6)) w) in
  snd (run (drag (3, 5) (2, 6)) w) = Ok tt /\
  board_get (heap w') (board (self w')) 2 6 = Ok (Some 11%nat) /\
  board_get (heap w') (board (self w')) 3 6 = Ok None /\
  last_move (self w') = Some (3, 5, 2, 6) /\
  find_king (heap w') white (board (self w')) = Ok (Some (3, 7)) /\
  is_square_under_attack (heap w') (Some (3, 7)) white (board (self w')) = Ok true.
Proof. vm_compute. repeat split; reflexivity. Qed.

(** ** The starting position *)

(** C10. In a new game White is to move and has exactly 20 moves: 16 of the
    pawns, 4 of the knights, none of any other piece. *)
Theorem new_game_white_has_20_legal_moves :
  turn (self (new_game white)) = white /\
  exists l,
    snd (run (legal_moves_of_side white) (new_game white)) = Ok l /\
    length (concat (map snd l)) = 20%nat /\
    count_moves_of Pawn l = 16%nat /\
    count_moves_of Knight l = 4%nat /\
    NoDup (concat (map (fun e => map (fun d => (snd (fst e), d)) (snd e)) l)).
Proof.
  split; [reflexivity|].
  eexists. split; [vm_compute; reflexivity|].
  repeat split; try (vm_compute; reflexivity).
  apply (bool_decide_unpack _). vm_compute. exact I.
Qed.

(** ** Counting snapshots *)

Section Counting.
Context {K : Type} `{EqDecision K}.

Lemma counter_add_keys (x : K) (cnt : list (K * nat)) (k : K) :
  In k (map fst (counter_add x cnt)) <-> k = x \/ In k (map fst cnt).
Proof.
  induction cnt as [|[k' n'] cnt IH]; cbn.
  - intuition auto.
  - destruct (decide (k' = x)) as [->|Hne]; cbn.
    + intuition auto.
    + rewrite IH. intuition auto.
Qed.

Lemma counter_add_NoDup (x : K) (cnt : list (K * nat)) :
  NoDup (map fst cnt) -> NoDup (map fst (counter_add x cnt)).
Proof.
  induction cnt as [|[k' n'] cnt IH]; cbn; intros Hnd.
  - repeat constructor. intros H'. inversion H'.
  - inversion Hnd as [|? ? Hnotin Hnd']; subst.
    destruct (decide (k' = x)) as [->|Hne]; cbn.
    + by constructor.
    + constructor; [|by apply IH].
      rewrite list_elem_of_In, counter_add_keys.
      rewrite list_elem_of_In in Hnotin. intuition auto.
Qed.

Lemma counter_add_In (x : K) (cnt : list (K * nat)) (k : K) (n : nat) :
  NoDup (map fst cnt) ->
  In (k, n) (counter_add x cnt) <->
  (k <> x /\ In (k, n) cnt) \/
  (k = x /\ ((exists m, In (x, m) cnt /\ n = S m) \/
             (~ In x (map fst cnt) /\ n = 1%nat))).
Proof.
  induction cnt as [|[k' n'] cnt IH]; cbn; intros Hnd.
  - split.
    + intros [[= <- <-]|[]]. right. split; [done|]. right. tauto.
    + intros [[_ []]|(-> & [(m & [] & _)|(_ & ->)])]. by left.
  - inversion Hnd as [|? ? Hnotin Hnd']; subst.
    rewrite list_elem_of_In in Hnotin.
    destruct (decide (k' = x)) as [->|Hne]; cbn.
    + split.
      * intros [[= <- <-]|Hin].
        -- right. split; [done|]. left. exists n'. auto.
        -- left. split; [|auto]. intros ->. apply Hnotin.
           apply in_map_iff. by exists (x, n).
      * intros [(Hk & [[= -> ->]|Hin])|(-> & [(m & [[= ->]|Hin] & ->)|(Hno & _)])].
        -- done.
        -- by right.
        -- by left.
        -- exfalso. apply Hnotin. apply in_map_iff. by exists (x, m).
        -- exfalso. apply Hno. by left.
    + rewrite (IH Hnd'). split.
      * intros [[= -> ->]|[(Hk & Hin)|(-> & [(m & Hin & ->)|(Hno & ->)])]].
        -- left. split; [done|]. by left.
        -- left. split; [done|]. by right.
        -- right. split; [done|]. left. exists m. split; [by right|done].
        -- right. split; [done|]. right. split; [|done].
           intros [Heq|Hin]; [by apply Hne|by apply Hno].
      * intros [(Hk & [[= -> ->]|Hin])|(-> & [(m & [[= -> ->]|Hin] & ->)|(Hno & ->)])].
        -- by left.
        -- right. left. by split.
        -- done.
        -- right. right. split; [done|]. left. by exists m.
        -- right. right. split; [done|]. right. split; [|done].
           intros Hin. apply Hno. by right.
Qed.

Lemma occurrences_snoc (l : list K) (x k : K) :
  occurrences (l ++ [x]) k =
  (occurrences l k + (if decide (x = k) then 1 else 0))%nat.
Proof.
  unfold occurrences. rewrite count_occ_app. cbn.
  reflexivity.
Qed.

Lemma occurrences_pos (l : list K) (k : K) :
  (0 < occurrences l k)%nat <-> In k l.
Proof. unfold occurrences. symmetry. apply count_occ_In. Qed.

Lemma counter_add_counts (l : list K) (x : K) (cnt : list (K * nat)) :
  counts_of l cnt -> counts_of (l ++ [x]) (counter_add x cnt).
Proof.
  intros [Hnd Hcnt]. split; [by apply counter_add_NoDup|].
  intros k n. rewrite (counter_add_In _ _ _ _ Hnd), occurrences_snoc.
  assert (Hkeys : forall y, In y (map fst cnt) <-> (0 < occurrences l y)%nat).
  { intros y. rewrite in_map_iff. split.
    - intros ([y' m] & <- & Hin). apply Hcnt in Hin. cbn. lia.
    - intros Hpos. exists (y, occurrences l y). split; [done|].
      apply Hcnt. auto. }
  destruct (decide (x = k)) as [->|Hne].
  - split.
    + intros [[Hk _]|(_ & [(m & Hin & ->)|(Hno & ->)])]; [done| |].
      * apply Hcnt in Hin. lia.
      * rewrite Hkeys in Hno. lia.
    + intros [-> _]. right. split; [done|].
      destruct (occurrences l k) as [|m] eqn:Hocc.
      * right. rewrite Hkeys, Hocc. split; [lia|done].
      * left. exists (S m). split; [|lia]. apply Hcnt. rewrite Hocc. lia.
  - rewrite Hcnt. split.
    + intros [[_ [-> Hpos]]|[Hk _]]; [lia|by subst].
    + intros [-> Hpos]. left. split; [by intros ->|]. lia.
Qed.

Lemma Counter_snoc (l : list K) (x : K) :
  Counter (l ++ [x]) = counter_add x (Counter l).
Proof. unfold Counter. by rewrite fold_left_app. Qed.

Lemma Counter_counts (l : list K) : counts_of l (Counter l).
Proof.
  induction l as [|x l IH] using rev_ind.
  - split; [constructor|]. intros k n. cbn. split; [done|]. lia.
  - rewrite Counter_snoc. by apply counter_add_counts.
Qed.

(** [any(count >= 3 for count in Counter(l).values())] *)
Lemma Counter_any_3 (l : list K) :
  existsb (fun kn => (3 <=? snd kn)%nat) (Counter l) = true <->
  exists x, (3 <= occurrences l x)%nat.
Proof.
  destruct (Counter_counts l) as [_ Hcnt].
  rewrite existsb_exists. split.
  - intros ([k n] & Hin & Hn). cbn [snd] in Hn. apply Nat.leb_le in Hn.
    apply Hcnt in Hin as [-> _]. by exists k.
  - intros [x Hx]. exists (x, occurrences l x). split.
    + apply Hcnt. split; [done|lia].
    + cbn [snd]. by apply Nat.leb_le.
Qed.
End Counting.

(** ** Terminal conditions *)

(** The order of the terminal conditions in [update_game_over]. *)
Lemma update_game_over_run (w : World) :
  run update_game_over w =
  match run (is_checkmate (turn (self w))) w with
  | (w1, Raise e) => (w1, Raise e)
  | (w1, Ok true) =>
      (over_with (winner_name (turn (self w1)) +:+ " wins by checkmate!") w1, Ok tt)
  | (w1, Ok false) =>
      match run (is_stalemate (turn (self w))) w1 with
      | (w2, Raise e) => (w2, Raise e)
      | (w2, Ok true) => (over_with "Draw by stalemate!" w2, Ok tt)
      | (w2, Ok false) =>
          if is_draw_by_repetition (self w2)
          then (over_with "Draw by repetition!" w2, Ok tt)
          else (w2, Ok tt)
      end
  end.
Proof.
  unfold update_game_over. rewrite run_bind. cbn [get_self run].
  rewrite run_bind.
  destruct (run (is_checkmate (turn (self w))) w) as [w1 [[|]|e]]; try reflexivity.
  rewrite run_bind.
  destruct (run (is_stalemate (turn (self w))) w1) as [w2 [[|]|e]]; try reflexivity.
  rewrite run_bind. cbn [get_self run].
  destruct (is_draw_by_repetition (self w2)); reflexivity.
Qed.

(** [is_draw_by_repetition]: at least 8 snapshots, one of them 3 times. *)
Lemma is_draw_by_repetition_iff (g : ChessGame) :
  is_draw_by_repetition g = true <->
  (8 <= length (position_history g))%nat /\
  exists snapshot : Snapshot, (3 <= occurrences (position_history g) snapshot)%nat.
Proof.
  unfold is_draw_by_repetition.
  destruct (length (position_history g) <? 8)%nat eqn:Hlen.
  - apply Nat.ltb_lt in Hlen. split; [discriminate|]. intros [H _]. lia.
  - apply Nat.ltb_ge in Hlen. rewrite Counter_any_3. tauto.
Qed.

(** A completed move that is not a pawn reaching the last rank ends with
    the three updates, run once the turn has passed to the other side. *)
Lemma move_piece_completed (w w' : World) (end_pos : Z * Z) (sel : ref) (p : Piece) :
  selected_piece (self w) = Some sel ->
  deref (heap w) sel = Ok p ->
  is_class Pawn p
    && ((fst (get_board_position (self w) end_pos) =? 0)
        || (fst (get_board_position (self w) end_pos) =? 7)) = false ->
  run (move_piece end_pos) w = (w', Ok true) ->
  exists w1,
    turn (self w1) = opposite (turn (self w)) /\
    run (update_check_status;; update_game_over;; update_position_history) w1
    = (w', Ok tt).
Proof.
  intros Hsel Hp Hnopromo Hrun. unfold move_piece in Hrun.
  destruct (BOARD_SIZE <=? end_pos.2); [discriminate|].
  rewrite run_bind in Hrun. cbn [get_self run] in Hrun.
  destruct (get_board_position (self w) end_pos) as [end_row end_col].
  cbn [fst] in Hnopromo.
  rewrite Hsel, run_bind in Hrun. cbn [mret M_ret run] in Hrun.
  rewrite run_bind in Hrun. unfold load in Hrun. rewrite run_bind in Hrun.
  cbn [get_heap run lift] in Hrun. rewrite Hp in Hrun.
  destruct (position p) as [start_row start_col].
  destruct (existsb _ _); [|discriminate].
  apply run_bind_Ok in Hrun as (wa & [] & Ha & Hrun).
  apply run_bind_Ok in Hrun as (wb & [] & Hb & Hrun).
  apply run_bind_Ok in Hrun as (wc & [] & Hc & Hrun).
  apply run_bind_Ok in Hrun as (wd & [] & Hd & Hrun).
  rewrite Hnopromo in Hrun.
  apply run_bind_Ok in Hrun as (we & [] & He & Hrun).
  apply run_bind_Ok in Hrun as (wf & [] & Hf & Hrun).
  apply run_bind_Ok in Hrun as (wg & [] & Hg & Hrun).
  apply run_bind_Ok in Hrun as (wh & [] & Hh & Hrun).
  assert (Hself : self wf = self w).
  { apply heap_only_run in Ha, Hb, Hc, Hd, He, Hf; [congruence|heap_only_steps..]. }
  cbn in Hg. injection Hg as <-. cbn in Hh. injection Hh as <-.
  eexists. split; [|].
  2:{ apply run_bind_Ok in Hrun as (w1 & [] & H1 & Hrun).
      apply run_bind_Ok in Hrun as (w2 & [] & H2 & Hrun).
      apply run_bind_Ok in Hrun as (w3 & [] & H3 & Hrun).
      cbn in Hrun. injection Hrun as <-.
      rewrite run_bind, H1, run_bind, H2. exact H3. }
  cbn. rewrite Hself. by destruct (turn (self w)).
Qed.

(** C8. After a completed move the terminal conditions are evaluated for
    the side whose turn it now is: [move_piece] passes the turn and then runs
    [update_check_status], [update_game_over] and [update_position_history];
    [promote_pawn] runs the same three with the turn as it finds it.
    [update_game_over] tests checkmate of [self.turn] first, then stalemate,
    then repetition, and ends the game with the first that holds; the two
    tests leave the game object as it is.  The repetition test holds exactly
    when the history has at least 8 snapshots and some snapshot occurs in it
    3 times or more, and the game then ends as a draw. *)
Theorem terminal_conditions_after_move :
  (forall (w w' : World) (end_pos : Z * Z) (sel : ref) (p : Piece),
      selected_piece (self w) = Some sel ->
      deref (heap w) sel = Ok p ->
      is_class Pawn p
        && ((fst (get_board_position (self w) end_pos) =? 0)
            || (fst (get_board_position (self w) end_pos) =? 7)) = false ->
      run (move_piece end_pos) w = (w', Ok true) ->
      exists w1,
        turn (self w1) = opposite (turn (self w)) /\
        run (update_check_status;; update_game_over;; update_position_history) w1
        = (w', Ok tt)) /\
  (forall (w w' : World) (piece_class : PieceClass),
      run (promote_pawn piece_class) w = (w', Ok tt) ->
      exists w1,
        turn (self w1) = turn (self w) /\
        run (update_check_status;; update_game_over;; update_position_history) w1
        = (w', Ok tt)) /\
  (forall w : World,
      run update_game_over w =
      match run (is_checkmate (turn (self w))) w with
      | (w1, Raise e) => (w1, Raise e)
      | (w1, Ok true) =>
          (over_with (winner_name (turn (self w)) +:+ " wins by checkmate!") w1, Ok tt)
      | (w1, Ok false) =>
          match run (is_stalemate (turn (self w))) w1 with
          | (w2, Raise e) => (w2, Raise e)
          | (w2, Ok true) => (over_with "Draw by stalemate!" w2, Ok tt)
          | (w2, Ok false) =>
              if is_draw_by_repetition (self w)
              then (over_with "Draw by repetition!" w2, Ok tt)
              else (w2, Ok tt)
          end
      end) /\
  (forall (w : World) (clr : Color),
      extends w (fst (run (is_checkmate clr) w)) /\
      extends w (fst (run (is_stalemate clr) w))) /\
  (forall g : ChessGame,
      is_draw_by_repetition g = true <->
      (8 <= length (position_history g))%nat /\
      exists snapshot : Snapshot,
        (3 <= occurrences (position_history g) snapshot)%nat).
Proof.
  split; [exact move_piece_completed|].
  split; [exact promote_pawn_completed|].
  assert (Hframe : forall (w : World) (clr : Color),
             extends w (fst (run (is_checkmate clr) w)) /\
             extends w (fst (run (is_stalemate clr) w))).
  { intros w clr. split.
    - apply (hoare_fst (extends w)); [apply is_checkmate_extends|apply extends_refl].
    - apply (hoare_fst (extends w)); [apply is_stalemate_extends|apply extends_refl]. }
  split; [|split; [exact Hframe|exact is_draw_by_repetition_iff]].
  intros w. rewrite update_game_over_run.
  destruct (Hframe w (turn (self w))) as [Hmate _].
  destruct (run (is_checkmate (turn (self w))) w) as [w1 [[|]|e]]; cbn [fst] in Hmate;
    destruct Hmate as (Hs1 & _).
  - by rewrite Hs1.
  - destruct (Hframe w1 (turn (self w))) as [_ Hstale].
    destruct (run (is_stalemate (turn (self w))) w1) as [w2 [[|]|e']];
      cbn [fst] in Hstale; destruct Hstale as (Hs2 & _); try reflexivity.
    by rewrite Hs2, Hs1.
  - reflexivity.
Qed.

(** The tenth move of the repetition game: Black's knight, on g8 for the
    third time, goes to f6. *)
Lemma terminal_conditions_after_move_witness :
  let w := fst (run (handle_click (square_center (0, 6)))
                  (fst (run (play (take 9 repetition_game)) (new_game white)))) in
  let w' := fst (run (move_piece (square_center (2, 5))) w) in
  game_result (self w') = Some "Draw by repetition!"%string /\
  exists w1,
    turn (self w1) = white /\
    run (update_check_status;; update_game_over;; update_position_history) w1
    = (w', Ok tt).
Proof.
  intros w w'. split; [vm_compute; reflexivity|].
  destruct terminal_conditions_after_move as [H _].
  apply (H w w' (square_center (2, 5)) 28%nat (mkPiece Knight black (0, 6) false false)).
  - vm_compute. reflexivity.
  - vm_compute. reflexivity.
  - vm_compute. reflexivity.
  - vm_compute. reflexivity.
Defined.

(** ** Destinations of the move generators *)

Lemma in_range_spec (x : Z) : in_range x = true <-> 0 <= x < 8.
Proof. unfold in_range. rewrite andb_true_iff, Z.leb_le, Z.ltb_lt. tauto. Qed.

Lemma direction_of_eq (c : Color) :
  (if color_eqb c white then -1 else 1) = direction_of c.
Proof. by destruct c. Qed.

Lemma collect_In {A B} (f : A -> Res (list B)) (l : list A) (ys : list B) (y : B) :
  collect f l = Ok ys -> In y ys -> exists a xs, In a l /\ f a = Ok xs /\ In y xs.
Proof.
  revert ys. induction l as [|a l IH]; cbn; intros ys Hc Hin.
  - injection Hc as <-. inversion Hin.
  - destruct (f a) as [xs|e] eqn:Hfa; [|discriminate]. cbn in Hc.
    destruct (collect f l) as [zs|e]; [|discriminate]. cbn in Hc.
    injection Hc as <-. apply in_app_or in Hin as [Hin|Hin].
    + exists a, xs. auto.
    + destruct (IH zs eq_refl Hin) as (a' & xs' & Ha' & Hf' & Hy). 
      exists a', xs'. auto.
Qed.

Lemma collect_ok {A B} (f : A -> Res (list B)) (l : list A) (P : B -> Prop) :
  (forall a, In a l -> exists xs, f a = Ok xs /\ Forall P xs) ->
  exists ys, collect f l = Ok ys /\ Forall P ys.
Proof.
  induction l as [|a l IH]; cbn; intros Hf.
  - exists []. auto.
  - destruct (Hf a (or_introl eq_refl)) as (xs & -> & Hxs).
    destruct IH as (ys & -> & Hys); [intros; apply Hf; by right|].
    cbn. exists (xs ++ ys). split; [done|]. by apply Forall_app.
Qed.

Ltac res_simpl := cbn [mbind Res_bind mret Res_ret].

(** Closes a goal [exists moves, Ok l = Ok moves /\ Forall in_bounds moves]
    for an explicit [l]. *)
Ltac moves_ok :=
  eexists; split; [reflexivity|];
  repeat (apply List.Forall_cons; [unfold in_bounds; cbn [fst snd]; lia|]);
  first [apply List.Forall_nil | assumption].

Section WellFormedBoard.
Variable h : Heap.
Variable board : list ref.
Hypothesis Hboard : board_ok h board = true.

Lemma getitem_ok {A} (l : list A) (i : Z) :
  length l = 8%nat -> 0 <= i < 8 -> exists x, getitem l i = Ok x /\ In x l.
Proof.
  intros Hlen Hi. unfold getitem, py_index. rewrite Hlen.
  change (Z.of_nat 8) with 8.
  assert (H0 : (0 <=? i) = true) by lia.
  assert (H8 : (i <? 8) = true) by lia.
  rewrite H0, H8. cbn [andb].
  destruct (l !! Z.to_nat i) as [x|] eqn:Hx.
  - exists x. split; [done|]. apply list_elem_of_In. by eapply list_elem_of_lookup_2.
  - apply lookup_ge_None in Hx. lia.
Qed.

(** On a well-formed board a square in range can be read, and what is read
    is empty or a piece of the store. *)
Lemma board_get_ok (r c : Z) :
  0 <= r < 8 -> 0 <= c < 8 ->
  exists cell, board_get h board r c = Ok cell /\
               forall q, cell = Some q -> exists qp, deref h q = Ok qp.
Proof.
  intros Hr Hc. unfold board_ok in Hboard.
  apply andb_true_iff in Hboard as [Hlen Hrows].
  apply Nat.eqb_eq in Hlen. rewrite forallb_forall in Hrows.
  destruct (getitem_ok board r Hlen Hr) as (rr & Hrr & Hin).
  unfold board_get. rewrite Hrr. cbn. specialize (Hrows rr Hin).
  unfold deref_list. destruct (lsts h !! rr) as [row|]; [|discriminate]. res_simpl.
  unfold row_ok in Hrows. apply andb_true_iff in Hrows as [Hrlen Hcells].
  apply Nat.eqb_eq in Hrlen. rewrite forallb_forall in Hcells.
  destruct (getitem_ok row c Hrlen Hc) as (cell & Hcell & Hcin).
  exists cell. split; [done|]. intros q ->.
  specialize (Hcells _ Hcin). cbn in Hcells. apply Nat.ltb_lt in Hcells.
  unfold deref. destruct (objs h !! q) as [qp|] eqn:Hq; [eauto|].
  apply lookup_ge_None in Hq. lia.
Qed.

Lemma slide_ok (clr : Color) (pos : Square) (dr dc : Z) (steps : list Z) :
  exists moves, slide h board clr pos dr dc steps = Ok moves /\
                Forall in_bounds moves.
Proof.
  induction steps as [|i rest IH]; cbn [slide].
  - exists []. auto.
  - destruct (in_range (pos.1 + i * dr) && in_range (pos.2 + i * dc)) eqn:Hin;
      [|moves_ok].
    apply andb_true_iff in Hin as [Hr Hc]. apply in_range_spec in Hr, Hc.
    destruct (board_get_ok _ _ Hr Hc) as (cell & -> & Hcell). res_simpl.
    destruct cell as [q|].
    + destruct (Hcell q eq_refl) as (qp & ->). res_simpl.
      destruct (negb _); moves_ok.
    + destruct IH as (more & -> & Hmore). res_simpl. moves_ok.
Qed.

Lemma jump_ok (self : Piece) (d : Z * Z) :
  exists moves, jump h board self d = Ok moves /\ Forall in_bounds moves.
Proof.
  unfold jump.
  destruct (in_range _ && in_range _) eqn:Hin; [|moves_ok].
  apply andb_true_iff in Hin as [Hr Hc]. apply in_range_spec in Hr, Hc.
  destruct (board_get_ok _ _ Hr Hc) as (cell & -> & Hcell). res_simpl.
  destruct cell as [q|].
  - destruct (Hcell q eq_refl) as (qp & ->). res_simpl.
    destruct (negb _); moves_ok.
  - moves_ok.
Qed.

Lemma Pawn_diagonal_ok (self : Piece) (dcol : Z) :
  exists moves, Pawn_diagonal h board self dcol = Ok moves /\
                Forall in_bounds moves.
Proof.
  unfold Pawn_diagonal. destruct (position self) as [row col].
  destruct (in_range _ && in_range _) eqn:Hin; [|moves_ok].
  apply andb_true_iff in Hin as [Hr Hc]. apply in_range_spec in Hr, Hc.
  destruct (board_get_ok _ _ Hr Hc) as (cell & -> & Hcell). res_simpl.
  destruct cell as [q|].
  - destruct (Hcell q eq_refl) as (qp & ->). res_simpl.
    destruct (negb _); moves_ok.
  - destruct (_ || _) eqn:Hrank; [|moves_ok].
    assert (Hrow : 0 <= row < 8).
    { apply orb_true_iff in Hrank as [H|H];
        apply andb_true_iff in H as [H _]; apply Z.eqb_eq in H; lia. }
    clear Hrank.
    destruct (board_get_ok _ _ Hrow Hc) as (beside & -> & Hbeside). res_simpl.
    destruct beside as [q|]; [|moves_ok].
    destruct (Hbeside q eq_refl) as (qp & ->). res_simpl.
    destruct (_ && _); moves_ok.
Qed.

Lemma Pawn_forward_ok (self : Piece) :
  in_bounds (position self) ->
  (has_moved self = false -> fst (position self) <> last_but_one (color self)) ->
  exists moves, Pawn_forward h board self = Ok moves /\ Forall in_bounds moves.
Proof.
  unfold Pawn_forward, in_bounds. destruct (position self) as [row col].
  cbn [fst snd]. rewrite direction_of_eq. intros [Hrow Hcol] Hrank.
  assert (Htwo : has_moved self = false ->
                 0 <= row + direction_of (color self) < 8 ->
                 0 <= row + 2 * direction_of (color self) < 8).
  { intros Hm. specialize (Hrank Hm). destruct (color self); cbn in *; lia. }
  destruct (in_range _) eqn:Hin; [|moves_ok].
  apply in_range_spec in Hin.
  destruct (board_get_ok _ _ Hin Hcol) as (ahead & -> & _). res_simpl.
  destruct ahead as [q|]; [moves_ok|].
  destruct (has_moved self); res_simpl.
  - moves_ok.
  - specialize (Htwo eq_refl Hin).
    destruct (board_get_ok _ _ Htwo Hcol) as (two & -> & _). res_simpl.
    destruct two; moves_ok.
Qed.

(** C6, as the code has it. On a board of eight rows of eight cells, a
    piece that stands on the board gets its destinations, and every one of
    them is on the board, provided that a pawn whose [has_moved] flag is
    clear does not stand one rank before its last rank (rank index 1 for
    white, 6 for black): its two-step square is read without a bounds
    test. *)
Theorem get_valid_moves_in_bounds (self : Piece) :
  in_bounds (position self) ->
  (cls self = Pawn -> has_moved self = false ->
   fst (position self) <> last_but_one (color self)) ->
  exists moves, get_valid_moves h board self = Ok moves /\
                Forall in_bounds moves.
Proof.
  intros Hpos Htwo. unfold get_valid_moves.
  destruct (cls self).
  - unfold Pawn_get_valid_moves.
    destruct (Pawn_forward_ok self Hpos (Htwo eq_refl)) as (fwd & -> & Hfwd). res_simpl.
    destruct (collect_ok (Pawn_diagonal h board self) [-1; 1] in_bounds)
      as (diag & -> & Hdiag); [intros; apply Pawn_diagonal_ok|].
    res_simpl. eexists; split; [reflexivity|]. by apply Forall_app.
  - apply collect_ok. intros. apply slide_ok.
  - apply collect_ok. intros. apply jump_ok.
  - apply collect_ok. intros. apply slide_ok.
  - destruct (collect_ok
                (fun d : Z * Z => slide h board (color self) (position self) d.1 d.2 range_1_8)
                [(0, 1); (1, 0); (0, -1); (-1, 0)] in_bounds)
      as (straight & Hs & Hstraight); [intros; apply slide_ok|].
    destruct (collect_ok
                (fun d : Z * Z => slide h board (color self) (position self) d.1 d.2 range_1_8)
                [(1, 1); (1, -1); (-1, 1); (-1, -1)] in_bounds)
      as (diagonal & Hd & Hdiagonal); [intros; apply slide_ok|].
    unfold _get_straight_moves, _get_diagonal_moves. rewrite Hs. res_simpl. rewrite Hd. res_simpl.
    eexists; split; [reflexivity|]. by apply Forall_app.
  - apply collect_ok. intros. apply jump_ok.
Qed.
End WellFormedBoard.

(** The pawn on e2 of a new game. *)
Lemma get_valid_moves_in_bounds_witness :
  exists moves,
    get_valid_moves (heap (new_game white)) (board (self (new_game white)))
      (mkPiece Pawn white (6, 4) false false) = Ok moves /\
    Forall in_bounds moves.
Proof.
  apply (get_valid_moves_in_bounds (heap (new_game white))
           (board (self (new_game white)))).
  - vm_compute. reflexivity.
  - unfold in_bounds. cbn. lia.
  - intros _ _. cbn. lia.
Defined.

(** C6, as the specification has it, fails for a white pawn that has not
    moved and stands on rank index 1: the two-step square is read as
    [board[-1][col]], which is the last row, and [(-1, col)] is a
    destination. *)
Lemma stray_pawn_steps_off_board :
  board_ok stray_pawn_heap rows_0_to_7 = true /\
  in_bounds (position stray_pawn) /\
  get_valid_moves stray_pawn_heap rows_0_to_7 stray_pawn = Ok [(0, 0); (-1, 0)] /\
  ~ Forall in_bounds [(0, 0); (-1, 0)].
Proof.
  split; [vm_compute; reflexivity|].
  split; [unfold in_bounds; cbn; lia|].
  split; [vm_compute; reflexivity|].
  intros H. apply Forall_cons in H as [_ H]. apply Forall_cons in H as [[H _] _].
  cbn in H. lia.
Qed.

(** ** En passant *)

Lemma Res_bind_Ok {A B} (m : Res A) (f : A -> Res B) (b : B) :
  m ≫= f = Ok b -> exists a, m = Ok a /\ f a = Ok b.
Proof. destruct m as [a|e]; [eauto|discriminate]. Qed.

Lemma Pawn_forward_column (h : Heap) (board : list ref) (self : Piece)
    (moves : list Square) (dest : Square) :
  Pawn_forward h board self = Ok moves -> In dest moves ->
  snd dest = snd (position self).
Proof.
  unfold Pawn_forward. destruct (position self) as [row col].
  cbv beta iota zeta. intros H.
  destruct (in_range _); [|injection H as <-; intros []].
  apply Res_bind_Ok in H as ([q|] & _ & H); [injection H as <-; intros []|].
  apply Res_bind_Ok in H as (double & Hdouble & H). injection H as <-.
  intros [<-|Hin]; [done|].
  destruct (negb (has_moved self)); [|injection Hdouble as <-; destruct Hin].
  apply Res_bind_Ok in Hdouble as ([q|] & _ & H); injection H as <-;
    [destruct Hin|].
  destruct Hin as [<-|[]]. done.
Qed.

Lemma Pawn_diagonal_empty (h : Heap) (board : list ref) (self : Piece) (dcol : Z)
    (moves : list Square) (dest : Square) :
  Pawn_diagonal h board self dcol = Ok moves -> In dest moves ->
  board_get h board (fst dest) (snd dest) = Ok None ->
  dest = (fst (position self) + direction_of (color self),
          snd (position self) + dcol) /\
  ((fst (position self) = 3 /\ color self = white) \/
   (fst (position self) = 4 /\ color self = black)) /\
  exists q qp,
    board_get h board (fst (position self)) (snd (position self) + dcol)
    = Ok (Some q) /\
    deref h q = Ok qp /\
    cls qp = Pawn /\
    en_passant_vulnerable qp = true.
Proof.
  unfold Pawn_diagonal. destruct (position self) as [row col].
  cbv beta iota zeta. cbn [fst snd]. rewrite direction_of_eq. intros H.
  destruct (in_range _ && in_range _); [|injection H as <-; intros []].
  apply Res_bind_Ok in H as ([q|] & Htarget & H).
  - apply Res_bind_Ok in H as (qp & _ & H).
    destruct (negb _); injection H as <-; [|intros []].
    intros [<-|[]]. cbn [fst snd]. rewrite Htarget. discriminate.
  - destruct (_ || _) eqn:Hrank; [|injection H as <-; intros []].
    apply Res_bind_Ok in H as ([q|] & Hbeside & H); [|injection H as <-; intros []].
    apply Res_bind_Ok in H as (qp & Hq & H).
    destruct (is_class Pawn qp && en_passant_vulnerable qp) eqn:Hflag;
      injection H as <-; [|intros []].
    intros [<-|[]] _. split; [done|].
    apply andb_true_iff in Hflag as [Hcls Hvul].
    apply bool_decide_eq_true in Hcls.
    split; [|by exists q, qp].
    apply orb_true_iff in Hrank as [Hr|Hr]; apply andb_true_iff in Hr as [H1 H2];
      apply Z.eqb_eq in H1; apply bool_decide_eq_true in H2; auto.
Qed.

(** C4, as the code has it. Whatever the board and the pawn, a diagonal
    move into an empty square is in the pawn's move set only if the pawn is
    on rank index 3 (white) or 4 (black) and the square beside it, on the
    file of the destination, holds a pawn whose [en_passant_vulnerable] flag
    is set.  The colour of that pawn is not tested. *)
Theorem en_passant_only_beside_flagged_pawn (h : Heap) (board : list ref)
    (self : Piece) (dest : Square) :
  cls self = Pawn ->
  en_passant_destination h board self dest ->
  en_passant_source false h board self dest.
Proof.
  intros Hcls (moves & Hmoves & Hin & Hcol & Hempty).
  unfold get_valid_moves in Hmoves. rewrite Hcls in Hmoves.
  unfold Pawn_get_valid_moves in Hmoves.
  apply Res_bind_Ok in Hmoves as (fwd & Hfwd & Hmoves).
  apply Res_bind_Ok in Hmoves as (diag & Hdiag & Hmoves).
  injection Hmoves as <-. apply in_app_or in Hin as [Hin|Hin].
  - exfalso. apply Hcol. by eapply Pawn_forward_column.
  - destruct (collect_In _ _ _ _ Hdiag Hin) as (dcol & xs & Hdcol & Hxs & Hdest).
    destruct (Pawn_diagonal_empty _ _ _ _ _ _ Hxs Hdest Hempty)
      as (-> & Hrank & q & qp & Hbeside & Hq & Hpawn & Hflag).
    unfold en_passant_source. cbn [fst snd].
    split; [exact Hrank|]. split; [|split; [done|]].
    + destruct Hdcol as [<-|[<-|[]]]; lia.
    + exists q, qp. repeat split; auto. discriminate.
Qed.

(** White's pawn on f5 after 6... g5 in the en passant game. *)
Lemma en_passant_only_beside_flagged_pawn_witness :
  let w := en_passant_position in
  en_passant_source false (heap w) (board (self w))
    (mkPiece Pawn white (3, 5) true false) (2, 6).
Proof.
  intros w.
  apply (en_passant_only_beside_flagged_pawn (heap w) (board (self w))
           (mkPiece Pawn white (3, 5) true false) (2, 6)).
  - reflexivity.
  - exists [(2, 5); (2, 4); (2, 6)]. split; [vm_compute; reflexivity|].
    split; [cbn; tauto|]. split; [cbn; lia|]. vm_compute. reflexivity.
Defined.

(** C4, as the specification has it, fails on a board with two white pawns
    side by side on rank index 3, the second one flagged: the first may move
    diagonally into the empty square behind the second, a pawn of its own
    colour. *)
Lemma en_passant_beside_own_pawn :
  cls left_pawn = Pawn /\
  en_passant_destination two_pawns_heap rows_0_to_7 left_pawn (2, 1) /\
  ~ en_passant_source true two_pawns_heap rows_0_to_7 left_pawn (2, 1).
Proof.
  split; [reflexivity|]. split.
  - exists [(2, 0); (2, 1)]. split; [vm_compute; reflexivity|].
    split; [cbn; tauto|]. split; [cbn; lia|]. vm_compute. reflexivity.
  - intros (_ & _ & _ & q & qp & Hbeside & Hq & _ & _ & Hcolor).
    vm_compute in Hbeside. injection Hbeside as <-.
    vm_compute in Hq. injection Hq as <-.
    specialize (Hcolor eq_refl). discriminate Hcolor.
Qed.


(** * Further properties *)

(** ** Screen coordinates *)

(** X1. [get_board_position] undoes [get_screen_position]: every pixel of the
    square that [get_screen_position] draws for the board square [s] is
    mapped back to [s], whether the board is flipped or not. *)
Theorem board_position_of_screen_position (g : ChessGame) (s : Square) (dx dy : Z) :
  0 <= dx < SQ_SIZE -> 0 <= dy < SQ_SIZE ->
  get_board_position g
    (fst (get_screen_position g s) + dx, snd (get_screen_position g s) + dy) = s.
Proof.
  intros Hdx Hdy. destruct s as [row col].
  unfold get_board_position, get_screen_position.
  change SQ_SIZE with 60 in *.
  destruct (board_flipped g); cbn [fst snd]; f_equal;
    rewrite ?(Z.add_comm (_ * 60)), ?Z.div_add by lia;
    rewrite ?Z.div_small by lia; lia.
Qed.

Lemma board_position_of_screen_position_witness :
  let g := self (new_game black) in
  get_board_position g
    (fst (get_screen_position g (3, 4)) + 10,
     snd (get_screen_position g (3, 4)) + 20) = (3, 4).
Proof.
  intros g.
  apply (board_position_of_screen_position g (3, 4) 10 20);
    vm_compute; (split; [discriminate|reflexivity]).
Defined.

(** ** Sliding and jumping pieces *)

Lemma collect_In_conv {A B} (f : A -> Res (list B)) (l : list A) (ys xs : list B)
    (a : A) (y : B) :
  collect f l = Ok ys -> In a l -> f a = Ok xs -> In y xs -> In y ys.
Proof.
  revert ys. induction l as [|a' l IH]; cbn [collect]; intros ys Hc Ha Hf Hy.
  - destruct Ha.
  - apply Res_bind_Ok in Hc as (xs' & Hxs' & Hc).
    apply Res_bind_Ok in Hc as (zs & Hzs & Hc). injection Hc as <-.
    apply in_or_app. destruct Ha as [->|Ha].
    + left. rewrite Hf in Hxs'. by injection Hxs' as <-.
    + right. by apply IH.
Qed.

Lemma range_1_8_split (pre post : list Z) (i : Z) :
  range_1_8 = pre ++ i :: post ->
  1 <= i <= 7 /\ forall j, In j pre <-> 1 <= j < i.
Proof.
  unfold range_1_8. intros H.
  do 7 (destruct pre as [|? pre]; cbn [app] in H;
        [injection H as <- _; split; [lia|intros j; cbn [In]; lia]|
         injection H as <- H]).
  destruct pre; discriminate H.
Qed.

Lemma range_1_8_split_at (i : Z) :
  1 <= i <= 7 -> exists pre post, range_1_8 = pre ++ i :: post.
Proof.
  intros Hi. unfold range_1_8.
  assert (i = 1 \/ i = 2 \/ i = 3 \/ i = 4 \/ i = 5 \/ i = 6 \/ i = 7)
    as [->|[->|[->|[->|[->|[->| ->]]]]]] by lia.
  - by exists [], [2; 3; 4; 5; 6; 7].
  - by exists [1], [3; 4; 5; 6; 7].
  - by exists [1; 2], [4; 5; 6; 7].
  - by exists [1; 2; 3], [5; 6; 7].
  - by exists [1; 2; 3; 4], [6; 7].
  - by exists [1; 2; 3; 4; 5], [7].
  - by exists [1; 2; 3; 4; 5; 6], [].
Qed.

Section Generators.
Variable h : Heap.
Variable board : list ref.

Lemma in_bounds_in_range (r c : Z) :
  in_range r && in_range c = true <-> in_bounds (r, c).
Proof.
  unfold in_bounds. cbn [fst snd].
  rewrite andb_true_iff, !in_range_spec. tauto.
Qed.

(** What the cell test of the sliding and jumping pieces lets through. *)
Lemma free_cell (clr : Color) (s : Square) (cell : option ref) :
  board_get h board (fst s) (snd s) = Ok cell ->
  (match cell with
   | None => True
   | Some q => exists qp, deref h q = Ok qp /\ color_eqb (color qp) clr = false
   end) <->
  (empty_at h board s \/ enemy_at h board clr s).
Proof.
  intros Hcell. unfold empty_at, enemy_at. rewrite Hcell. destruct cell as [q|].
  - split.
    + intros (qp & Hq & Hc). right. exists q, qp. repeat split; auto.
      intros Heq. unfold color_eqb in Hc. by rewrite bool_decide_eq_false in Hc.
    + intros [H|(q' & qp & [= <-] & Hq & Hc)]; [discriminate|].
      exists qp. split; [done|]. unfold color_eqb. by rewrite bool_decide_eq_false.
  - split; auto.
Qed.

Lemma slide_sound (clr : Color) (pos : Square) (d : Z * Z) (steps : list Z)
    (moves : list Square) (dest : Square) :
  slide h board clr pos (fst d) (snd d) steps = Ok moves ->
  In dest moves ->
  exists pre i post,
    steps = pre ++ i :: post /\ dest = step_to pos d i /\
    Forall (fun j => in_bounds (step_to pos d j) /\ empty_at h board (step_to pos d j)) pre /\
    in_bounds dest /\
    (empty_at h board dest \/ enemy_at h board clr dest).
Proof.
  revert moves. induction steps as [|i rest IH]; cbn [slide]; intros moves H Hin.
  - injection H as <-. destruct Hin.
  - destruct (in_range _ && in_range _) eqn:Hrange; [|injection H as <-; destruct Hin].
    apply in_bounds_in_range in Hrange.
    apply Res_bind_Ok in H as (cell & Hcell & H).
    pose proof (free_cell clr (step_to pos d i) cell Hcell) as Hfree.
    destruct cell as [q|].
    + apply Res_bind_Ok in H as (qp & Hq & H).
      destruct (negb _) eqn:Hc; injection H as <-; [|destruct Hin].
      destruct Hin as [<-|[]]. exists [], i, rest.
      split; [done|]. split; [done|]. split; [constructor|]. split; [exact Hrange|].
      apply Hfree. exists qp. split; [done|]. by apply negb_true_iff.
    + apply Res_bind_Ok in H as (more & Hmore & H). injection H as <-.
      destruct Hin as [<-|Hin].
      * exists [], i, rest.
        split; [done|]. split; [done|]. split; [constructor|]. split; [exact Hrange|].
        by apply Hfree.
      * destruct (IH more Hmore Hin) as (pre & i' & post & -> & -> & Hpre & Hb & Hd).
        exists (i :: pre), i', post.
        split; [done|]. split; [done|]. split; [|by split].
        constructor; [|exact Hpre]. split; [exact Hrange|exact Hcell].
Qed.

Lemma slide_complete (clr : Color) (pos : Square) (d : Z * Z)
    (pre post : list Z) (i : Z) (moves : list Square) :
  slide h board clr pos (fst d) (snd d) (pre ++ i :: post) = Ok moves ->
  Forall (fun j => in_bounds (step_to pos d j) /\ empty_at h board (step_to pos d j)) pre ->
  in_bounds (step_to pos d i) ->
  (empty_at h board (step_to pos d i) \/ enemy_at h board clr (step_to pos d i)) ->
  In (step_to pos d i) moves.
Proof.
  revert moves. induction pre as [|j pre IH]; cbn [app slide]; intros moves H Hpre Hb Hd.
  - apply in_bounds_in_range in Hb. rewrite Hb in H.
    apply Res_bind_Ok in H as (cell & Hcell & H).
    apply (free_cell clr (step_to pos d i) cell Hcell) in Hd.
    destruct cell as [q|].
    + destruct Hd as (qp & Hq & Hc). cbn [step_to fst snd] in H.
      rewrite Hq in H. cbn [mbind Res_bind mret Res_ret] in H. rewrite Hc in H. injection H as <-. by left.
    + apply Res_bind_Ok in H as (more & _ & H). injection H as <-. by left.
  - apply Forall_cons in Hpre as [[Hjb Hje] Hpre].
    apply in_bounds_in_range in Hjb. rewrite Hjb in H.
    unfold empty_at in Hje. cbn [step_to fst snd] in Hje, H. rewrite Hje in H.
    cbn [mbind Res_bind mret Res_ret] in H. apply Res_bind_Ok in H as (more & Hmore & H). injection H as <-.
    right. by apply IH.
Qed.

Lemma slide_range_iff (clr : Color) (pos : Square) (d : Z * Z)
    (moves : list Square) (dest : Square) :
  slide h board clr pos (fst d) (snd d) range_1_8 = Ok moves ->
  In dest moves <-> slides_to h board clr pos [d] dest.
Proof.
  intros H. split.
  - intros Hin.
    destruct (slide_sound _ _ _ _ _ _ H Hin) as (pre & i & post & Hs & -> & Hpre & Hb & Hd).
    apply range_1_8_split in Hs as [Hi Hj].
    exists d, i. split; [by left|]. split; [lia|]. split; [done|]. split; [|by split].
    intros j Hij. rewrite Forall_forall in Hpre. apply Hpre, list_elem_of_In, Hj. lia.
  - intros (d' & i & [<-|[]] & Hi & -> & Hpath & Hb & Hd).
    destruct (range_1_8_split_at i Hi) as (pre & post & Hs).
    rewrite Hs in H. apply (slide_complete _ _ _ _ _ _ _ H); auto.
    apply Forall_forall. intros j Hj. apply Hpath.
    apply range_1_8_split in Hs as [_ Hs]. by apply Hs, list_elem_of_In.
Qed.

Lemma slides_to_In (clr : Color) (pos : Square) (dirs : list (Z * Z)) (dest : Square) :
  slides_to h board clr pos dirs dest <->
  exists d, In d dirs /\ slides_to h board clr pos [d] dest.
Proof.
  split.
  - intros (d & i & Hd & H). exists d. split; [done|]. exists d, i. split; [by left|done].
  - intros (d & Hd & (d' & i & [<-|[]] & H)). by exists d, i.
Qed.

Lemma collect_slide_iff (clr : Color) (pos : Square) (dirs : list (Z * Z))
    (moves : list Square) (dest : Square) :
  collect (fun d : Z * Z => slide h board clr pos (fst d) (snd d) range_1_8) dirs = Ok moves ->
  In dest moves <-> slides_to h board clr pos dirs dest.
Proof.
  intros H. rewrite slides_to_In. split.
  - intros Hin. destruct (collect_In _ _ _ _ H Hin) as (d & xs & Hd & Hxs & Hy).
    exists d. split; [done|]. by apply (slide_range_iff _ _ _ _ _ Hxs).
  - intros (d & Hd & Hs).
    destruct (slide h board clr pos (fst d) (snd d) range_1_8) as [xs|e] eqn:Hxs.
    + eapply collect_In_conv; eauto. by apply (slide_range_iff _ _ _ _ _ Hxs).
    + exfalso. clear Hs. revert moves H.
      induction dirs as [|d' dirs IH]; [destruct Hd|]. cbn [collect]. intros moves H.
      apply Res_bind_Ok in H as (xs & Hxs' & H).
      apply Res_bind_Ok in H as (ys & Hys & _).
      destruct Hd as [->|Hd]; [congruence|eauto].
Qed.

Lemma jump_iff (self : Piece) (d : Z * Z) (xs : list Square) (dest : Square) :
  jump h board self d = Ok xs ->
  In dest xs <-> jumps_to h board (color self) (position self) [d] dest.
Proof.
  unfold jump, jumps_to. intros H.
  destruct (in_range _ && in_range _) eqn:Hrange.
  - apply in_bounds_in_range in Hrange.
    apply Res_bind_Ok in H as (cell & Hcell & H).
    pose proof (free_cell (color self) (_, _) cell Hcell) as Hfree.
    assert (Hxs : In dest xs <->
                  dest = ((position self).1 + d.1, (position self).2 + d.2) /\
                  match cell with
                  | None => True
                  | Some q => exists qp, deref h q = Ok qp /\
                                         color_eqb (color qp) (color self) = false
                  end).
    { destruct cell as [q|].
      - apply Res_bind_Ok in H as (qp & Hq & H).
        destruct (negb _) eqn:Hc; injection H as <-; cbn [In].
        + apply negb_true_iff in Hc. split; [intros [<-|[]]|intros [-> _]; by left].
          split; [done|]. by exists qp.
        + apply negb_false_iff in Hc. split; [intros []|].
          intros (_ & qp' & Hq' & Hc'). congruence.
      - injection H as <-. cbn [In]. split; [intros [<-|[]]; done|intros [-> _]; by left]. }
    rewrite Hxs. split.
    + intros [-> Hc]. exists d. split; [by left|]. split; [done|]. split; [done|].
      by apply Hfree.
    + intros (d' & [<-|[]] & -> & Hb & Hc). split; [done|]. by apply Hfree.
  - injection H as <-. split; [intros []|].
    intros (d' & [<-|[]] & -> & Hb & _). apply in_bounds_in_range in Hb. congruence.
Qed.

Lemma collect_jump_iff (self : Piece) (offsets : list (Z * Z))
    (moves : list Square) (dest : Square) :
  collect (jump h board self) offsets = Ok moves ->
  In dest moves <-> jumps_to h board (color self) (position self) offsets dest.
Proof.
  intros H. split.
  - intros Hin. destruct (collect_In _ _ _ _ H Hin) as (d & xs & Hd & Hxs & Hy).
    apply (jump_iff _ _ _ _ Hxs) in Hy as (d' & [<-|[]] & Hy). by exists d.
  - intros (d & Hd & Hdest).
    assert (exists xs, jump h board self d = Ok xs) as [xs Hxs].
    { clear Hdest. revert moves H.
      induction offsets as [|d' offsets IH]; [destruct Hd|]. cbn [collect]. intros moves H.
      apply Res_bind_Ok in H as (xs & Hxs' & H).
      apply Res_bind_Ok in H as (ys & Hys & _).
      destruct Hd as [->|Hd]; eauto. }
    eapply collect_In_conv; eauto. apply (jump_iff _ _ _ _ Hxs).
    exists d. split; [by left|done].
Qed.

Lemma Pawn_forward_iff (self : Piece) (fwd : list Square) (dest : Square) :
  Pawn_forward h board self = Ok fwd ->
  In dest fwd <->
  let row := fst (position self) in
  let col := snd (position self) in
  let ahead := row + direction_of (color self) in
  0 <= ahead < 8 /\ empty_at h board (ahead, col) /\
  (dest = (ahead, col) \/
   (dest = (row + 2 * direction_of (color self), col) /\
    has_moved self = false /\
    empty_at h board (row + 2 * direction_of (color self), col))).
Proof.
  unfold Pawn_forward, empty_at. destruct (position self) as [row col].
  cbv beta iota zeta. cbn [fst snd]. rewrite direction_of_eq. intros H.
  destruct (in_range _) eqn:Hrange.
  2:{ injection H as <-. split; [intros []|]. intros [Hr _].
      apply in_range_spec in Hr. congruence. }
  apply in_range_spec in Hrange.
  apply Res_bind_Ok in H as (ahead & Hahead & H). rewrite Hahead.
  destruct ahead as [q|].
  { injection H as <-. split; [intros []|]. intros (_ & ? & _). discriminate. }
  apply Res_bind_Ok in H as (double & Hdouble & H). injection H as <-. cbn [In].
  destruct (has_moved self); cbn [negb] in Hdouble.
  - injection Hdouble as <-. cbn [In]. split.
    + intros [<-|[]]. auto.
    + intros (_ & _ & [->|(_ & ? & _)]); [by left|discriminate].
  - apply Res_bind_Ok in Hdouble as (two & Htwo & Hdouble). rewrite Htwo.
    destruct two as [q|]; injection Hdouble as <-; cbn [In].
    + split.
      * intros [<-|[]]. auto.
      * intros (_ & _ & [->|(_ & _ & ?)]); [by left|discriminate].
    + split.
      * intros [<-|[<-|[]]]; (split; [done|]); (split; [done|]); [by left|by right].
      * intros (_ & _ & [->|(-> & _ & _)]); auto.
Qed.

Lemma Pawn_diagonal_iff (self : Piece) (dcol : Z) (xs : list Square) (dest : Square) :
  Pawn_diagonal h board self dcol = Ok xs ->
  In dest xs <->
  let row := fst (position self) in
  let col := snd (position self) in
  let ahead := row + direction_of (color self) in
  dest = (ahead, col + dcol) /\ 0 <= ahead < 8 /\ 0 <= col + dcol < 8 /\
  (enemy_at h board (color self) dest \/
   (empty_at h board dest /\ en_passant_allowed h board self (col + dcol))).
Proof.
  unfold Pawn_diagonal, empty_at, enemy_at, en_passant_allowed.
  destruct (position self) as [row col].
  cbv beta iota zeta. cbn [fst snd]. rewrite direction_of_eq. intros H.
  destruct (in_range _ && in_range _) eqn:Hrange.
  2:{ injection H as <-. split; [intros []|]. intros (_ & Hr & Hc & _).
      apply in_range_spec in Hr, Hc. rewrite Hr, Hc in Hrange. discriminate. }
  apply andb_true_iff in Hrange as [Hr Hc]. apply in_range_spec in Hr, Hc.
  apply Res_bind_Ok in H as (target & Htarget & H).
  destruct target as [q|].
  - apply Res_bind_Ok in H as (qp & Hq & H).
    destruct (negb _) eqn:Hcolor; injection H as <-; cbn [In].
    + apply negb_true_iff in Hcolor. unfold color_eqb in Hcolor.
      rewrite bool_decide_eq_false in Hcolor. split.
      * intros [<-|[]]. cbn [fst snd]. repeat (split; [done|]).
        left. by exists q, qp.
      * intros (-> & _). by left.
    + apply negb_false_iff in Hcolor. unfold color_eqb in Hcolor.
      rewrite bool_decide_eq_true in Hcolor. split; [intros []|].
      intros (-> & _ & _ & [(q' & qp' & Hq' & Hqp' & Hne)|[He _]]);
        cbn [fst snd] in *; congruence.
  - destruct (_ || _) eqn:Hrank.
    + assert (Hrank' : (row = 3 /\ color self = white) \/ (row = 4 /\ color self = black)).
      { apply orb_true_iff in Hrank as [Hk|Hk]; apply andb_true_iff in Hk as [H1 H2];
          apply Z.eqb_eq in H1; apply bool_decide_eq_true in H2; auto. }
      clear Hrank.
      apply Res_bind_Ok in H as (beside & Hbeside & H).
      destruct beside as [q|].
      * apply Res_bind_Ok in H as (qp & Hq & H).
        destruct (is_class Pawn qp && en_passant_vulnerable qp) eqn:Hflag;
          injection H as <-; cbn [In].
        -- apply andb_true_iff in Hflag as [Hcls Hvul].
           apply bool_decide_eq_true in Hcls. split.
           ++ intros [<-|[]]. cbn [fst snd]. repeat (split; [done|]).
              right. split; [done|]. split; [done|]. by exists q, qp.
           ++ intros (-> & _). by left.
        -- split; [intros []|].
           intros (-> & _ & _ & [(q' & qp' & Hq' & _)|(_ & _ & q' & qp' & Hq' & Hqp' & Hc' & Hv')]);
             cbn [fst snd] in *; [congruence|].
           assert (q' = q) as -> by congruence. assert (qp' = qp) as -> by congruence.
           unfold is_class in Hflag. rewrite Hv', andb_true_r in Hflag.
           by rewrite bool_decide_eq_false in Hflag.
      * injection H as <-. split; [intros []|].
        intros (-> & _ & _ & [(q' & qp' & Hq' & _)|(_ & _ & q' & qp' & Hq' & _)]);
          cbn [fst snd] in *; congruence.
    + injection H as <-. split; [intros []|].
      intros (-> & _ & _ & [(q' & qp' & Hq' & _)|(_ & Hk & _)]);
        cbn [fst snd] in *; [congruence|].
      apply orb_false_iff in Hrank as [H3 H4].
      destruct Hk as [[-> Hw]|[-> Hb]].
      * rewrite Hw in H3. vm_compute in H3. discriminate H3.
      * rewrite Hb in H4. vm_compute in H4. discriminate H4.
Qed.
End Generators.

(** X2. The destinations of a rook, a bishop or a queen are exactly the
    squares reached by one to seven steps in one of its directions (four
    straight ones, four diagonal ones, or all eight), through squares that
    are on the board and empty, the last square being on the board and empty
    or held by a piece of the other colour. *)
Theorem sliding_moves_iff (h : Heap) (board : list ref) (self : Piece)
    (moves : list Square) (dest : Square) :
  cls self = Rook \/ cls self = Bishop \/ cls self = Queen ->
  get_valid_moves h board self = Ok moves ->
  In dest moves <->
  slides_to h board (color self) (position self) (directions_of (cls self)) dest.
Proof.
  intros Hcls H. unfold get_valid_moves in H.
  destruct Hcls as [Hc|[Hc|Hc]]; rewrite Hc in *; cbn [directions_of].
  - by apply collect_slide_iff.
  - by apply collect_slide_iff.
  - apply Res_bind_Ok in H as (straight & Hs & H).
    apply Res_bind_Ok in H as (diagonal & Hd & H). injection H as <-.
    rewrite in_app_iff.
    rewrite (collect_slide_iff _ _ _ _ _ _ dest Hs), (collect_slide_iff _ _ _ _ _ _ dest Hd).
    rewrite !slides_to_In. split.
    + intros [(d & Hin & Hto)|(d & Hin & Hto)]; exists d;
        (split; [apply in_or_app; auto|done]).
    + intros (d & Hin & Hto). apply in_app_or in Hin as [Hin|Hin];
        [left|right]; by exists d.
Qed.

Lemma sliding_moves_iff_witness :
  let w := en_passant_position in
  let queen := mkPiece Queen black (3, 0) true false in
  exists moves,
    get_valid_moves (heap w) (board (self w)) queen = Ok moves /\
    (In (3, 4) moves <->
     slides_to (heap w) (board (self w)) black (3, 0) (directions_of Queen) (3, 4)).
Proof.
  intros w queen. eexists. split; [vm_compute; reflexivity|].
  apply (sliding_moves_iff (heap w) (board (self w)) queen).
  - right. right. reflexivity.
  - vm_compute. reflexivity.
Defined.

(** X3. The destinations of a knight or a king are exactly the squares at one
    of its eight offsets that are on the board and are empty or held by a
    piece of the other colour. *)
Theorem jumping_moves_iff (h : Heap) (board : list ref) (self : Piece)
    (moves : list Square) (dest : Square) :
  cls self = Knight \/ cls self = King ->
  get_valid_moves h board self = Ok moves ->
  In dest moves <->
  jumps_to h board (color self) (position self) (offsets_of (cls self)) dest.
Proof.
  intros Hcls H. unfold get_valid_moves in H.
  destruct Hcls as [Hc|Hc]; rewrite Hc in *; cbn [offsets_of];
    by apply collect_jump_iff.
Qed.

Lemma jumping_moves_iff_witness :
  let w := new_game white in
  let knight := mkPiece Knight white (7, 6) false false in
  exists moves,
    get_valid_moves (heap w) (board (self w)) knight = Ok moves /\
    (In (5, 5) moves <->
     jumps_to (heap w) (board (self w)) white (7, 6) (offsets_of Knight) (5, 5)).
Proof.
  intros w knight. eexists. split; [vm_compute; reflexivity|].
  apply (jumping_moves_iff (heap w) (board (self w)) knight).
  - left. reflexivity.
  - vm_compute. reflexivity.
Defined.

Lemma Pawn_get_valid_moves_spec (h : Heap) (board : list ref) (self : Piece)
    (moves : list Square) (dest : Square) :
  Pawn_get_valid_moves h board self = Ok moves ->
  In dest moves <-> pawn_moves_to h board self dest.
Proof.
  intros H. unfold Pawn_get_valid_moves in H.
  apply Res_bind_Ok in H as (fwd & Hfwd & H).
  apply Res_bind_Ok in H as (diag & Hdiag & H). injection H as <-.
  cbn [collect] in Hdiag.
  apply Res_bind_Ok in Hdiag as (left & Hleft & Hdiag).
  apply Res_bind_Ok in Hdiag as (rest & Hrest & Hdiag). injection Hdiag as <-.
  apply Res_bind_Ok in Hrest as (right & Hright & Hrest).
  injection Hrest as <-. rewrite app_nil_r.
  rewrite !in_app_iff.
  rewrite (Pawn_forward_iff _ _ _ _ dest Hfwd).
  rewrite (Pawn_diagonal_iff _ _ _ _ _ dest Hleft).
  rewrite (Pawn_diagonal_iff _ _ _ _ _ dest Hright).
  unfold pawn_moves_to. cbv zeta. split.
  - intros [(Ha & He & [->|(-> & Hm & He2)])|[(-> & Ha & Hc & Hd)|(-> & Ha & Hc & Hd)]].
    + split; [done|]. by left.
    + split; [done|]. right. left. done.
    + split; [done|]. right. right. exists (-1). split; [by left|done].
    + split; [done|]. right. right. exists 1. split; [by right|done].
  - intros (Ha & [[-> He]|[(-> & Hm & He & He2)|(dcol & [->| ->] & -> & Hc & Hd)]]).
    + left. split; [done|]. split; [done|]. by left.
    + left. split; [done|]. split; [done|]. right. done.
    + right. left. done.
    + right. right. done.
Qed.

(** X4. The destinations of a pawn are exactly: the square ahead if it is on
    the board and empty; the second square ahead if moreover [has_moved] is
    clear and that square reads as empty; a diagonal square ahead that is on
    the board and holds a piece of the other colour; and an empty diagonal
    square ahead when the pawn is on rank index 3 (white) or 4 (black) and
    the square beside it holds a pawn flagged [en_passant_vulnerable]. *)
Theorem pawn_moves_iff (h : Heap) (board : list ref) (self : Piece)
    (moves : list Square) (dest : Square) :
  cls self = Pawn ->
  get_valid_moves h board self = Ok moves ->
  In dest moves <-> pawn_moves_to h board self dest.
Proof.
  intros Hcls H. unfold get_valid_moves in H. rewrite Hcls in H.
  by apply Pawn_get_valid_moves_spec.
Qed.

Lemma pawn_moves_iff_witness :
  let w := en_passant_position in
  let pawn := mkPiece Pawn white (3, 5) true false in
  exists moves,
    get_valid_moves (heap w) (board (self w)) pawn = Ok moves /\
    (In (2, 6) moves <-> pawn_moves_to (heap w) (board (self w)) pawn (2, 6)).
Proof.
  intros w pawn. eexists. split; [vm_compute; reflexivity|].
  apply (pawn_moves_iff (heap w) (board (self w)) pawn).
  - reflexivity.
  - vm_compute. reflexivity.
Defined.

(** ** The squares of the two loops *)

Lemma In_range_8 (x : Z) : In x range_8 <-> 0 <= x < 8.
Proof. unfold range_8. cbn [In]. lia. Qed.

Lemma In_all_squares (s : Square) : In s all_squares <-> in_bounds s.
Proof.
  unfold all_squares, in_bounds. rewrite in_flat_map. split.
  - intros (r & Hr & Hs). apply in_map_iff in Hs as (c & <- & Hc).
    apply In_range_8 in Hr, Hc. done.
  - intros [Hr Hc]. exists (fst s). split; [by apply In_range_8|].
    apply in_map_iff. exists (snd s). split; [by destruct s|by apply In_range_8].
Qed.

Lemma all_squares_lookup (s : Square) :
  in_bounds s -> all_squares !! Z.to_nat (8 * fst s + snd s) = Some s.
Proof.
  destruct s as [r c]. unfold in_bounds. cbn [fst snd]. intros [Hr Hc].
  assert (r = 0 \/ r = 1 \/ r = 2 \/ r = 3 \/ r = 4 \/ r = 5 \/ r = 6 \/ r = 7)
    as [->|[->|[->|[->|[->|[->|[->| ->]]]]]]] by lia;
  assert (c = 0 \/ c = 1 \/ c = 2 \/ c = 3 \/ c = 4 \/ c = 5 \/ c = 6 \/ c = 7)
    as [->|[->|[->|[->|[->|[->|[->| ->]]]]]]] by lia;
  reflexivity.
Qed.

Lemma all_squares_NoDup : NoDup all_squares.
Proof. apply (bool_decide_unpack _). vm_compute. exact I. Qed.

(** In the order of the loops, the squares met before [s] are the squares
    of the board that come before [s]. *)
Lemma all_squares_split (pre post : list Square) (s s' : Square) :
  all_squares = pre ++ s :: post ->
  in_bounds s' -> square_before s' s -> In s' pre.
Proof.
  intros Hsplit Hb' Hbefore.
  assert (Hs : in_bounds s).
  { apply In_all_squares. rewrite Hsplit. apply in_or_app. right. by left. }
  assert (Hlen : length pre = Z.to_nat (8 * fst s + snd s)).
  { eapply NoDup_lookup; [apply all_squares_NoDup| |by apply all_squares_lookup].
    rewrite Hsplit. by apply list_lookup_middle. }
  pose proof (all_squares_lookup s' Hb') as Hs'.
  rewrite Hsplit, lookup_app_l in Hs'.
  - apply list_elem_of_In. by eapply list_elem_of_lookup_2.
  - rewrite Hlen. unfold in_bounds, square_before in *. lia.
Qed.

(** ** The attack oracle *)

Section OracleFacts.
Variable h : Heap.
Variable board : list ref.

Lemma find_king_from_Some (clr : Color) (sqs : list Square) (s : Square) :
  find_king_from h clr board sqs = Ok (Some s) ->
  exists pre post,
    sqs = pre ++ s :: post /\
    king_at h board clr s /\
    Forall (fun s' => ~ king_at h board clr s') pre.
Proof.
  induction sqs as [|[row col] rest IH]; cbn [find_king_from]; intros H;
    [discriminate|].
  apply Res_bind_Ok in H as (cell & Hcell & H).
  assert (Hrest : find_king_from h clr board rest = Ok (Some s) ->
                  ~ king_at h board clr (row, col) ->
                  exists pre post,
                    (row, col) :: rest = pre ++ s :: post /\
                    king_at h board clr s /\
                    Forall (fun s' => ~ king_at h board clr s') pre).
  { intros Hr Hno. destruct (IH Hr) as (pre & post & -> & Hk & Hpre).
    exists ((row, col) :: pre), post. split; [done|]. split; [done|].
    by constructor. }
  destruct cell as [q|].
  - apply Res_bind_Ok in H as (qp & Hq & H).
    destruct (is_class King qp && color_eqb (color qp) clr) eqn:Hking.
    + injection H as <-. apply andb_true_iff in Hking as [Hc Hclr].
      apply bool_decide_eq_true in Hc, Hclr.
      exists [], rest. split; [done|]. split; [by exists q, qp|constructor].
    + apply Hrest; [done|]. intros (q' & qp' & Hq' & Hqp' & Hc & Hclr).
      cbn [fst snd] in Hq'. assert (q' = q) as -> by congruence.
      assert (qp' = qp) as -> by congruence.
      unfold is_class, color_eqb in Hking.
      rewrite (bool_decide_eq_true_2 _ Hc), (bool_decide_eq_true_2 _ Hclr) in Hking.
      discriminate.
  - apply Hrest; [done|]. intros (q' & qp' & Hq' & _). cbn [fst snd] in Hq'. congruence.
Qed.

Lemma find_king_from_None (clr : Color) (sqs : list Square) :
  find_king_from h clr board sqs = Ok None ->
  Forall (fun s' => ~ king_at h board clr s') sqs.
Proof.
  induction sqs as [|[row col] rest IH]; cbn [find_king_from]; intros H;
    [constructor|].
  apply Res_bind_Ok in H as (cell & Hcell & H).
  destruct cell as [q|].
  - apply Res_bind_Ok in H as (qp & Hq & H).
    destruct (is_class King qp && color_eqb (color qp) clr) eqn:Hking; [discriminate|].
    constructor; [|by apply IH]. intros (q' & qp' & Hq' & Hqp' & Hc & Hclr).
    cbn [fst snd] in Hq'. assert (q' = q) as -> by congruence.
    assert (qp' = qp) as -> by congruence.
    unfold is_class, color_eqb in Hking.
    rewrite (bool_decide_eq_true_2 _ Hc), (bool_decide_eq_true_2 _ Hclr) in Hking.
    discriminate.
  - constructor; [|by apply IH]. intros (q' & qp' & Hq' & _).
    cbn [fst snd] in Hq'. congruence.
Qed.

Lemma find_king_spec (clr : Color) (found : option Square) :
  find_king h clr board = Ok found ->
  match found with
  | Some s =>
      in_bounds s /\ king_at h board clr s /\
      forall s', in_bounds s' -> square_before s' s -> ~ king_at h board clr s'
  | None => forall s', in_bounds s' -> ~ king_at h board clr s'
  end.
Proof.
  unfold find_king. intros H. destruct found as [s|].
  - apply find_king_from_Some in H as (pre & post & Hsplit & Hk & Hpre).
    split; [|split; [done|]].
    + apply In_all_squares. rewrite Hsplit. apply in_or_app. right. by left.
    + intros s' Hb Hbefore. rewrite Forall_forall in Hpre.
      apply Hpre, list_elem_of_In. by eapply all_squares_split.
  - apply find_king_from_None in H. rewrite Forall_forall in H.
    intros s' Hb. by apply H, list_elem_of_In, In_all_squares.
Qed.

Lemma square_in_Some (target : Square) (moves : list Square) :
  square_in (Some target) moves = true <-> In target moves.
Proof. apply existsb_Square_eqb. Qed.

Lemma is_square_under_attack_from_spec (target : option Square) (clr : Color)
    (sqs : list Square) (b : bool) :
  is_square_under_attack_from h target clr board sqs = Ok b ->
  b = true <->
  exists t s, target = Some t /\ In s sqs /\ attacked_from h board clr t s.
Proof.
  revert b. induction sqs as [|[row col] rest IH]; cbn [is_square_under_attack_from];
    intros b H.
  - injection H as <-. split; [discriminate|]. intros (t & s & _ & [] & _).
  - apply Res_bind_Ok in H as (cell & Hcell & H).
    assert (Hskip : is_square_under_attack_from h target clr board rest = Ok b ->
                    (forall t, target = Some t ->
                               ~ attacked_from h board clr t (row, col)) ->
                    b = true <->
                    exists t s, target = Some t /\ In s ((row, col) :: rest) /\
                                attacked_from h board clr t s).
    { intros Hr Hno. rewrite (IH b Hr). split.
      - intros (t & s & Ht & Hs & Ha). exists t, s. split; [done|]. split; [by right|done].
      - intros (t & s & Ht & [<-|Hs] & Ha); [by destruct (Hno t Ht)|by exists t, s]. }
    destruct cell as [q|].
    + apply Res_bind_Ok in H as (qp & Hq & H).
      destruct (negb (color_eqb (color qp) clr)) eqn:Hclr.
      * apply negb_true_iff in Hclr. unfold color_eqb in Hclr.
        rewrite bool_decide_eq_false in Hclr.
        apply Res_bind_Ok in H as (moves & Hmoves & H).
        destruct (square_in target moves) eqn:Hin.
        -- injection H as <-. split; [intros _|done].
           destruct target as [t|]; [|discriminate].
           exists t, (row, col). split; [done|]. split; [by left|].
           exists q, qp, moves. repeat split; auto. by apply square_in_Some.
        -- apply Hskip; [done|]. intros t -> (q' & qp' & moves' & Hq' & Hqp' & _ & Hm' & Ht).
           cbn [fst snd] in Hq'. assert (q' = q) as -> by congruence.
           assert (qp' = qp) as -> by congruence.
           assert (moves' = moves) as -> by congruence.
           apply square_in_Some in Ht. congruence.
      * apply negb_false_iff in Hclr. unfold color_eqb in Hclr.
        rewrite bool_decide_eq_true in Hclr.
        apply Hskip; [done|]. intros t _ (q' & qp' & moves' & Hq' & Hqp' & Hne & _).
        cbn [fst snd] in Hq'. assert (q' = q) as -> by congruence.
        assert (qp' = qp) as -> by congruence. done.
    + apply Hskip; [done|]. intros t _ (q' & qp' & moves' & Hq' & _).
      cbn [fst snd] in Hq'. congruence.
Qed.
End OracleFacts.

(** X5. [find_king] returns the first square, in the order of rows and then
    columns, that holds a king of the colour asked for, and [None] exactly
    when no square of the board holds one. *)
Theorem find_king_finds_first_king (h : Heap) (board : list ref) (clr : Color)
    (found : option Square) :
  find_king h clr board = Ok found ->
  match found with
  | Some s =>
      in_bounds s /\ king_at h board clr s /\
      forall s', in_bounds s' -> square_before s' s -> ~ king_at h board clr s'
  | None => forall s', in_bounds s' -> ~ king_at h board clr s'
  end.
Proof. apply find_king_spec. Qed.

Lemma is_square_under_attack_spec (h : Heap) (board : list ref)
    (target : option Square) (clr : Color) (b : bool) :
  is_square_under_attack h target clr board = Ok b ->
  b = true <->
  exists t s, target = Some t /\ in_bounds s /\ attacked_from h board clr t s.
Proof.
  unfold is_square_under_attack. intros H.
  rewrite (is_square_under_attack_from_spec _ _ _ _ _ _ H).
  split; intros (t & s & Ht & Hs & Ha); exists t, s; (split; [done|]);
    (split; [by apply In_all_squares|done]).
Qed.

Lemma find_king_finds_first_king_witness :
  let w := new_game white in
  in_bounds (7, 4) /\ king_at (heap w) (board (self w)) white (7, 4) /\
  forall s', in_bounds s' -> square_before s' (7, 4) ->
             ~ king_at (heap w) (board (self w)) white s'.
Proof.
  intros w.
  apply (find_king_finds_first_king (heap w) (board (self w)) white (Some (7, 4))).
  vm_compute. reflexivity.
Defined.

(** X6. [is_square_under_attack] answers [True] exactly when a target square
    is given and some square of the board holds a piece of another colour
    than [clr] with the target among its [get_valid_moves]; for the target
    [None] (no king found) it answers [False]. *)
Theorem is_square_under_attack_iff (h : Heap) (board : list ref)
    (target : option Square) (clr : Color) (b : bool) :
  is_square_under_attack h target clr board = Ok b ->
  b = true <->
  exists t s, target = Some t /\ in_bounds s /\ attacked_from h board clr t s.
Proof. apply is_square_under_attack_spec. Qed.

Lemma is_in_check_run (clr : Color) (w : World) :
  run (is_in_check clr) w =
  (w, king ← find_king (heap w) clr (board (self w));
      is_square_under_attack (heap w) king clr (board (self w))).
Proof.
  unfold is_in_check. rewrite run_bind. cbn [get_self run].
  rewrite run_bind. cbn [get_heap run]. rewrite run_bind. cbn [lift run].
  destruct (find_king (heap w) clr (board (self w))) as [king|e]; [|reflexivity].
  cbn [mbind Res_bind]. by destruct (is_square_under_attack _ _ _ _).
Qed.

Lemma is_square_under_attack_iff_witness :
  let w := fst (run (drag (3, 5) (2, 6)) en_passant_position) in
  true = true <->
  exists t s, Some (3, 7) = Some t /\ in_bounds s /\
              attacked_from (heap w) (board (self w)) white t s.
Proof.
  intros w.
  apply (is_square_under_attack_iff (heap w) (board (self w)) (Some (3, 7)) white true).
  vm_compute. reflexivity.
Defined.

(** X7. [is_in_check] changes nothing and answers [True] exactly when
    [find_king] finds the king of that colour and some piece of the other
    colour has the king's square among its [get_valid_moves]; a side without
    a king is never in check. *)
Theorem is_in_check_iff (clr : Color) (w w' : World) (b : bool) :
  run (is_in_check clr) w = (w', Ok b) ->
  w' = w /\
  (b = true <->
   exists k s,
     find_king (heap w) clr (board (self w)) = Ok (Some k) /\
     in_bounds s /\
     attacked_from (heap w) (board (self w)) clr k s).
Proof.
  rewrite is_in_check_run. intros [= <- H]. split; [done|].
  apply Res_bind_Ok in H as (king & Hking & H).
  rewrite (is_square_under_attack_spec _ _ _ _ _ H). split.
  - intros (t & s & -> & Hs & Ha). by exists t, s.
  - intros (k & s & Hk & Hs & Ha). exists k, s. split; [congruence|done].
Qed.

Lemma is_in_check_iff_witness :
  let w := fst (run (drag (3, 5) (2, 6)) en_passant_position) in
  w = w /\
  (true = true <->
   exists k s,
     find_king (heap w) white (board (self w)) = Ok (Some k) /\
     in_bounds s /\
     attacked_from (heap w) (board (self w)) white k s).
Proof.
  intros w. apply (is_in_check_iff white w w true). vm_compute. reflexivity.
Defined.

(** ** The legality filter *)

Lemma extends_trans (w0 w1 w2 : World) :
  extends w0 w1 -> extends w1 w2 -> extends w0 w2.
Proof.
  intros (Hs1 & Ho1 & e1 & Hl1) (Hs2 & Ho2 & e2 & Hl2).
  split; [congruence|]. split; [congruence|].
  exists (e1 ++ e2). by rewrite Hl2, Hl1, app_assoc.
Qed.

Lemma move_causes_check_run_extends (piece : ref) (move : Square) (w w' : World)
    (r : Res bool) :
  run (move_causes_check piece move) w = (w', r) -> extends w w'.
Proof.
  intros Hrun.
  pose proof (hoare_fst (extends w) (extends w) _ w
                (move_causes_check_extends w (extends w) piece move (fun _ H => H))
                (extends_refl w)) as H.
  by rewrite Hrun in H.
Qed.

Lemma legal_among_spec (piece : ref) (moves legal : list Square) (w w' : World) :
  run (legal_among piece moves) w = (w', Ok legal) ->
  sublist legal moves /\
  forall m, In m legal ->
            exists w1 w2, extends w w1 /\
                          run (move_causes_check piece m) w1 = (w2, Ok false).
Proof.
  revert w legal. induction moves as [|move rest IH]; cbn [legal_among]; intros w legal H.
  - injection H as <- <-. split; [constructor|]. intros m [].
  - apply run_bind_Ok in H as (w1 & bad & Hbad & H).
    apply run_bind_Ok in H as (w2 & more & Hmore & H).
    injection H as <- <-.
    pose proof (move_causes_check_run_extends _ _ _ _ _ Hbad) as Hext.
    destruct (IH _ _ Hmore) as [Hsub Hrest].
    assert (Hrest' : forall m, In m more ->
                       exists wa wb, extends w wa /\
                                     run (move_causes_check piece m) wa = (wb, Ok false)).
    { intros m Hm. destruct (Hrest m Hm) as (wa & wb & Ha & Hb).
      exists wa, wb. split; [exact (extends_trans _ _ _ Hext Ha)|done]. }
    destruct bad.
    + split; [by constructor|done].
    + split; [by constructor|]. intros m [<-|Hm]; [|by apply Hrest'].
      exists w, w1. split; [apply extends_refl|done].
Qed.

(** X8. [get_legal_moves] returns the destinations of [get_valid_moves] of the
    piece, in their order, without those for which [move_causes_check]
    answers [True]: the result is a sublist of the valid moves and
    [move_causes_check] answered [False] for each of its members. *)
Theorem legal_moves_are_filtered_valid_moves (piece : ref) (w w' : World)
    (legal : list Square) :
  run (get_legal_moves piece) w = (w', Ok legal) ->
  exists p potential,
    deref (heap w) piece = Ok p /\
    get_valid_moves (heap w) (board (self w)) p = Ok potential /\
    sublist legal potential /\
    forall m, In m legal ->
              exists w1 w2, extends w w1 /\
                            run (move_causes_check piece m) w1 = (w2, Ok false).
Proof.
  unfold get_legal_moves. rewrite run_bind. cbn [get_self run].
  rewrite run_bind. cbn [get_heap run]. rewrite run_bind. cbn [lift run].
  destruct (deref (heap w) piece) as [p|e] eqn:Hp; [|discriminate].
  rewrite run_bind. cbn [lift run].
  destruct (get_valid_moves (heap w) (board (self w)) p) as [potential|e] eqn:Hpot;
    [|discriminate].
  intros H. exists p, potential. split; [done|]. split; [done|].
  by eapply legal_among_spec.
Qed.

Lemma legal_moves_are_filtered_valid_moves_witness :
  let w := en_passant_position in
  let legal := [(2, 5); (2, 4); (2, 6)] in
  exists p potential,
    deref (heap w) 11%nat = Ok p /\
    get_valid_moves (heap w) (board (self w)) p = Ok potential /\
    sublist legal potential /\
    forall m, In m legal ->
              exists w1 w2, extends w w1 /\
                            run (move_causes_check 11%nat m) w1 = (w2, Ok false).
Proof.
  intros w legal.
  apply (legal_moves_are_filtered_valid_moves 11%nat w
           (fst (run (get_legal_moves 11%nat) w)) legal).
  vm_compute. reflexivity.
Defined.

(** ** Attributes a call leaves alone *)

Lemma keeps_attr_heap_only {A X} (f : ChessGame -> X) (m : M A) :
  heap_only m -> keeps_attr f m.
Proof. intros H w. by rewrite H. Qed.

Lemma keeps_attr_bind {A B X} (f : ChessGame -> X) (m : M A) (k : A -> M B) :
  keeps_attr f m -> (forall a, keeps_attr f (k a)) -> keeps_attr f (m ≫= k).
Proof.
  intros Hm Hk w. rewrite run_bind. specialize (Hm w).
  destruct (run m w) as [w1 [a|e]]; cbn in *; [|exact Hm].
  by rewrite Hk.
Qed.

Lemma keeps_attr_modify_self {X} (f : ChessGame -> X) (g : ChessGame -> ChessGame) :
  (forall x, f (g x) = f x) -> keeps_attr f (modify_self g).
Proof. intros Hg w. cbn. apply Hg. Qed.

Lemma keeps_attr_run {A X} (f : ChessGame -> X) (m : M A) (w w' : World) (r : Res A) :
  keeps_attr f m -> run m w = (w', r) -> f (self w') = f (self w).
Proof. intros H Hrun. specialize (H w). by rewrite Hrun in H. Qed.

Ltac keeps_attr_steps :=
  repeat first
    [ solve [apply keeps_attr_heap_only; auto with heap_only]
    | solve [apply keeps_attr_modify_self; intros ?; reflexivity]
    | apply keeps_attr_bind; [|intros ?]
    | match goal with
      | |- keeps_attr _ (match ?x with _ => _ end) => destruct x
      end ].

Lemma keeps_position_history_update_check_status :
  keeps_attr position_history update_check_status.
Proof. unfold update_check_status. keeps_attr_steps. Qed.

Lemma keeps_position_history_update_game_over :
  keeps_attr position_history update_game_over.
Proof. unfold update_game_over. keeps_attr_steps. Qed.

(** The attributes that the three updates never assign. *)
Lemma updates_keep {X} (f : ChessGame -> X) :
  (forall c v g, f (set_in_check c v g) = f g) ->
  (forall msg g, f (set_over msg g) = f g) ->
  (forall v g, f (set_position_history v g) = f g) ->
  keeps_attr f (update_check_status;; update_game_over;; update_position_history).
Proof.
  intros H1 H2 H3.
  unfold update_check_status, update_game_over, update_position_history.
  repeat first
    [ solve [apply keeps_attr_heap_only; auto with heap_only]
    | solve [apply keeps_attr_modify_self; intros ?; first [apply H1|apply H2|apply H3]]
    | apply keeps_attr_bind; [|intros ?]
    | match goal with
      | |- keeps_attr _ (match ?x with _ => _ end) => destruct x
      end ].
Qed.

Lemma update_position_history_run (w w' : World) :
  run update_position_history w = (w', Ok tt) ->
  exists snapshot,
    board_rows w = Ok snapshot /\
    w' = mkWorld (heap w)
           (set_position_history (position_history (self w) ++ [snapshot]) (self w)).
Proof.
  unfold update_position_history, get_current_position, board_rows.
  rewrite run_bind, run_bind. cbn [get_self run]. rewrite run_bind. cbn [get_heap run lift].
  destruct (collect _ (board (self w))) as [snapshot|e]; [|discriminate].
  cbn [modify_self run]. intros [= <-]. by exists snapshot.
Qed.

(** The three updates that end a move append one snapshot, the rows of the
    board as they are then. *)
Lemma updates_append_snapshot (w w' : World) :
  run (update_check_status;; update_game_over;; update_position_history) w = (w', Ok tt) ->
  exists snapshot,
    board_rows w' = Ok snapshot /\
    position_history (self w') = position_history (self w) ++ [snapshot].
Proof.
  intros H.
  apply run_bind_Ok in H as (w1 & [] & H1 & H).
  apply run_bind_Ok in H as (w2 & [] & H2 & H3).
  apply update_position_history_run in H3 as (snapshot & Hrows & ->).
  exists snapshot. split; [exact Hrows|]. cbn.
  apply (keeps_attr_run position_history) in H1, H2;
    [congruence|apply keeps_position_history_update_game_over
    |apply keeps_position_history_update_check_status].
Qed.

(** ** What a move changes *)

Lemma move_piece_completed_self (w w' : World) (end_pos : Z * Z) (sel : ref) (p : Piece) :
  selected_piece (self w) = Some sel ->
  deref (heap w) sel = Ok p ->
  is_class Pawn p
    && ((fst (get_board_position (self w) end_pos) =? 0)
        || (fst (get_board_position (self w) end_pos) =? 7)) = false ->
  run (move_piece end_pos) w = (w', Ok true) ->
  exists w1,
    self w1 =
      set_turn (opposite (turn (self w)))
        (set_last_move
           (Some (fst (position p), snd (position p),
                  fst (get_board_position (self w) end_pos),
                  snd (get_board_position (self w) end_pos))) (self w)) /\
    run (update_check_status;; update_game_over;; update_position_history) w1
    = (w', Ok tt).
Proof.
  intros Hsel Hp Hnopromo Hrun. unfold move_piece in Hrun.
  destruct (BOARD_SIZE <=? end_pos.2); [discriminate|].
  rewrite run_bind in Hrun. cbn [get_self run] in Hrun.
  destruct (get_board_position (self w) end_pos) as [end_row end_col].
  cbn [fst snd] in *.
  rewrite Hsel, run_bind in Hrun. cbn [mret M_ret run] in Hrun.
  rewrite run_bind in Hrun. unfold load in Hrun. rewrite run_bind in Hrun.
  cbn [get_heap run lift] in Hrun. rewrite Hp in Hrun.
  destruct (position p) as [start_row start_col].
  destruct (existsb _ _); [|discriminate].
  apply run_bind_Ok in Hrun as (wa & [] & Ha & Hrun).
  apply run_bind_Ok in Hrun as (wb & [] & Hb & Hrun).
  apply run_bind_Ok in Hrun as (wc & [] & Hc & Hrun).
  apply run_bind_Ok in Hrun as (wd & [] & Hd & Hrun).
  rewrite Hnopromo in Hrun.
  apply run_bind_Ok in Hrun as (we & [] & He & Hrun).
  apply run_bind_Ok in Hrun as (wf & [] & Hf & Hrun).
  apply run_bind_Ok in Hrun as (wg & [] & Hg & Hrun).
  apply run_bind_Ok in Hrun as (wh & [] & Hh & Hrun).
  assert (Hself : self wf = self w).
  { apply heap_only_run in Ha, Hb, Hc, Hd, He, Hf; [congruence|heap_only_steps..]. }
  cbn in Hg. injection Hg as <-. cbn in Hh. injection Hh as <-.
  eexists. split; [|].
  2:{ apply run_bind_Ok in Hrun as (w1 & [] & H1 & Hrun).
      apply run_bind_Ok in Hrun as (w2 & [] & H2 & Hrun).
      apply run_bind_Ok in Hrun as (w3 & [] & H3 & Hrun).
      cbn in Hrun. injection Hrun as <-.
      rewrite run_bind, H1, run_bind, H2. exact H3. }
  cbn. rewrite Hself. by destruct (turn (self w)).
Qed.

(** X9. A move that [move_piece] accepts and that is not a pawn reaching rank
    index 0 or 7 hands the turn to the other colour, records
    [last_move = (start_row, start_col, end_row, end_col)], leaves the
    pending promotion and the board object as they were, and appends exactly
    one snapshot to [position_history], that of the rows of the board after
    the move. *)
Theorem completed_move_effects (w w' : World) (end_pos : Z * Z) (sel : ref) (p : Piece) :
  selected_piece (self w) = Some sel ->
  deref (heap w) sel = Ok p ->
  is_class Pawn p
    && ((fst (get_board_position (self w) end_pos) =? 0)
        || (fst (get_board_position (self w) end_pos) =? 7)) = false ->
  run (move_piece end_pos) w = (w', Ok true) ->
  turn (self w') = opposite (turn (self w)) /\
  last_move (self w') =
    Some (fst (position p), snd (position p),
          fst (get_board_position (self w) end_pos),
          snd (get_board_position (self w) end_pos)) /\
  promotion_pawn (self w') = promotion_pawn (self w) /\
  board (self w') = board (self w) /\
  exists snapshot,
    board_rows w' = Ok snapshot /\
    position_history (self w') = position_history (self w) ++ [snapshot].
Proof.
  intros Hsel Hp Hnopromo Hrun.
  destruct (move_piece_completed_self _ _ _ _ _ Hsel Hp Hnopromo Hrun) as (w1 & Hself & H).
  pose proof (keeps_attr_run turn _ _ _ _ (updates_keep turn
    (fun _ _ _ => eq_refl) (fun _ _ => eq_refl) (fun _ _ => eq_refl)) H) as Hturn.
  pose proof (keeps_attr_run last_move _ _ _ _ (updates_keep last_move
    (fun _ _ _ => eq_refl) (fun _ _ => eq_refl) (fun _ _ => eq_refl)) H) as Hlast.
  pose proof (keeps_attr_run promotion_pawn _ _ _ _ (updates_keep promotion_pawn
    (fun _ _ _ => eq_refl) (fun _ _ => eq_refl) (fun _ _ => eq_refl)) H) as Hpromo.
  pose proof (keeps_attr_run board _ _ _ _ (updates_keep board
    (fun _ _ _ => eq_refl) (fun _ _ => eq_refl) (fun _ _ => eq_refl)) H) as Hboard.
  destruct (updates_append_snapshot _ _ H) as (snapshot & Hrows & Hhist).
  clear H. rewrite Hself in Hturn, Hlast, Hpromo, Hboard, Hhist.
  split; [exact Hturn|]. split; [exact Hlast|]. split; [exact Hpromo|].
  split; [exact Hboard|]. by exists snapshot.
Qed.

Lemma completed_move_effects_witness :
  let w := fst (run (handle_click (square_center (6, 4))) (new_game white)) in
  let w' := fst (run (move_piece (square_center (4, 4))) w) in
  turn (self w') = black /\
  last_move (self w') = Some (6, 4, 4, 4) /\
  promotion_pawn (self w') = promotion_pawn (self w) /\
  board (self w') = board (self w) /\
  exists snapshot,
    board_rows w' = Ok snapshot /\
    position_history (self w') = position_history (self w) ++ [snapshot].
Proof.
  intros w w'.
  apply (completed_move_effects w w' (square_center (4, 4)) 9%nat
           (mkPiece Pawn white (6, 4) false false)).
  - vm_compute. reflexivity.
  - vm_compute. reflexivity.
  - vm_compute. reflexivity.
  - vm_compute. reflexivity.
Defined.

(** X10. When [move_piece] accepts the move of a pawn to rank index 0 or 7,
    the game object changes in one attribute only: [promotion_pawn] is the
    moved pawn. The turn, [last_move], the check flags, the result and the
    position history are what they were before the move. *)
Theorem promotion_move_waits (w w' : World) (end_pos : Z * Z) (sel : ref) (p : Piece) :
  selected_piece (self w) = Some sel ->
  deref (heap w) sel = Ok p ->
  cls p = Pawn ->
  fst (get_board_position (self w) end_pos) = 0 \/
  fst (get_board_position (self w) end_pos) = 7 ->
  run (move_piece end_pos) w = (w', Ok true) ->
  self w' = set_promotion_pawn (Some sel) (self w).
Proof.
  intros Hsel Hp Hcls Hrow Hrun. unfold move_piece in Hrun.
  destruct (BOARD_SIZE <=? end_pos.2); [discriminate|].
  rewrite run_bind in Hrun. cbn [get_self run] in Hrun.
  destruct (get_board_position (self w) end_pos) as [end_row end_col].
  cbn [fst snd] in *.
  rewrite Hsel, run_bind in Hrun. cbn [mret M_ret run] in Hrun.
  rewrite run_bind in Hrun. unfold load in Hrun. rewrite run_bind in Hrun.
  cbn [get_heap run lift] in Hrun. rewrite Hp in Hrun.
  destruct (position p) as [start_row start_col].
  destruct (existsb _ _); [|discriminate].
  apply run_bind_Ok in Hrun as (wa & [] & Ha & Hrun).
  apply run_bind_Ok in Hrun as (wb & [] & Hb & Hrun).
  apply run_bind_Ok in Hrun as (wc & [] & Hc & Hrun).
  apply run_bind_Ok in Hrun as (wd & [] & Hd & Hrun).
  assert (Hpromo : is_class Pawn p && ((end_row =? 0) || (end_row =? 7)) = true).
  { unfold is_class. rewrite (bool_decide_eq_true_2 _ Hcls).
    destruct Hrow as [-> | ->]; reflexivity. }
  rewrite Hpromo in Hrun. rewrite run_bind in Hrun.
  cbn [modify_self run mret M_ret] in Hrun. injection Hrun as <-. cbn [self].
  apply heap_only_run in Ha, Hb, Hc, Hd; [congruence|heap_only_steps..].
Qed.

Lemma promotion_move_waits_witness :
  let w := fst (run (handle_click (square_center (1, 1)))
                  (fst (run (play (take 8 promotion_game)) (new_game white)))) in
  let w' := fst (run (move_piece (square_center (0, 0))) w) in
  self w' = set_promotion_pawn (Some 1%nat) (self w).
Proof.
  intros w w'.
  apply (promotion_move_waits w w' (square_center (0, 0)) 1%nat
           (mkPiece Pawn white (1, 1) true false)).
  - vm_compute. reflexivity.
  - vm_compute. reflexivity.
  - reflexivity.
  - left. vm_compute. reflexivity.
  - vm_compute. reflexivity.
Defined.

(** ** Reading back what was written *)

Lemma py_index_lt (len i : Z) (n : nat) :
  py_index len i = Some n -> (Z.of_nat n < len).
Proof.
  unfold py_index.
  destruct ((0 <=? i) && (i <? len)) eqn:H1; [intros [= <-]; lia|].
  destruct ((- len <=? i) && (i <? 0)) eqn:H2; [intros [= <-]; lia|discriminate].
Qed.

Lemma setitem_getitem {A} (l l' : list A) (i : Z) (x : A) :
  setitem l i x = Ok l' -> getitem l' i = Ok x /\ length l' = length l.
Proof.
  unfold setitem, getitem.
  destruct (py_index (Z.of_nat (length l)) i) as [n|] eqn:Hn; [|discriminate].
  intros [= <-]. rewrite length_insert, Hn. split; [|done].
  apply py_index_lt in Hn. rewrite list_lookup_insert_eq; [done|lia].
Qed.

Lemma board_set_run (b : list ref) (r c : Z) (v : option ref) (w w' : World) :
  run (board_set b r c v) w = (w', Ok tt) ->
  exists rr row row',
    getitem b r = Ok rr /\
    lsts (heap w) !! rr = Some row /\
    setitem row c v = Ok row' /\
    w' = mkWorld (mkHeap (objs (heap w)) (<[rr:=row']> (lsts (heap w)))) (self w).
Proof.
  unfold board_set. rewrite run_bind. cbn [lift run].
  destruct (getitem b r) as [rr|e]; [|discriminate].
  rewrite run_bind. cbn [get_heap run]. rewrite run_bind. cbn [lift run].
  unfold deref_list. destruct (lsts (heap w) !! rr) as [row|] eqn:Hrow; [|discriminate].
  rewrite run_bind. cbn [lift run].
  destruct (setitem row c v) as [row'|e] eqn:Hset; [|discriminate].
  cbn [put_heap run]. intros [= <-]. by exists rr, row, row'.
Qed.

(** [b[r][c] = v] followed by [b[r][c]] gives [v]. *)
Lemma board_set_get (b : list ref) (r c : Z) (v : option ref) (w w' : World) :
  run (board_set b r c v) w = (w', Ok tt) ->
  board_get (heap w') b r c = Ok v.
Proof.
  intros H. apply board_set_run in H as (rr & row & row' & Hrr & Hrow & Hset & ->).
  unfold board_get. rewrite Hrr. cbn [mbind Res_bind]. unfold deref_list. cbn [lsts heap].
  rewrite list_lookup_insert_eq; [|by eapply lookup_lt_Some].
  cbn [mbind Res_bind]. by apply setitem_getitem in Hset as [-> _].
Qed.

(** ** Stores that only grow *)

Lemma heap_grows_refl (w : World) : heap_grows w w.
Proof. split; [done|]. exists []. by rewrite app_nil_r. Qed.

Lemma heap_grows_trans (w0 w1 w2 : World) :
  heap_grows w0 w1 -> heap_grows w1 w2 -> heap_grows w0 w2.
Proof.
  intros (Ho1 & e1 & Hl1) (Ho2 & e2 & Hl2). split; [congruence|].
  exists (e1 ++ e2). by rewrite Hl2, Hl1, app_assoc.
Qed.

Lemma grows_bind {A B} (m : M A) (f : A -> M B) :
  grows m -> (forall a, grows (f a)) -> grows (m ≫= f).
Proof.
  intros Hm Hf w. rewrite run_bind. specialize (Hm w).
  destruct (run m w) as [w1 [a|e]]; cbn [fst] in *; [|exact Hm].
  eapply heap_grows_trans; [exact Hm|apply Hf].
Qed.

Lemma grows_same_heap {A} (m : M A) :
  (forall w, heap (fst (run m w)) = heap w) -> grows m.
Proof. intros H w. unfold heap_grows. rewrite H. apply heap_grows_refl. Qed.

Lemma grows_of_extends {A} (m : M A) :
  (forall w0, hoare (extends w0) m (fun _ => extends w0) (extends w0)) -> grows m.
Proof.
  intros H w.
  destruct (hoare_fst (extends w) (extends w) m w (H w) (extends_refl w))
    as (_ & Ho & He).
  by split.
Qed.

Lemma grows_is_in_check (clr : Color) : grows (is_in_check clr).
Proof. apply grows_same_heap. intros w. by rewrite is_in_check_run. Qed.

Lemma grows_modify_self (f : ChessGame -> ChessGame) : grows (modify_self f).
Proof. by apply grows_same_heap. Qed.

Lemma grows_get_self : grows get_self.
Proof. by apply grows_same_heap. Qed.

Lemma grows_ret {A} (a : A) : grows (mret a).
Proof. by apply grows_same_heap. Qed.

Lemma grows_update_check_status : grows update_check_status.
Proof.
  unfold update_check_status.
  repeat first [apply grows_is_in_check | apply grows_modify_self
               | apply grows_bind; [|intros ?]].
Qed.

Lemma grows_update_game_over : grows update_game_over.
Proof.
  unfold update_game_over.
  apply grows_bind; [apply grows_get_self|intros g].
  apply grows_bind; [apply grows_of_extends; intros; apply is_checkmate_extends|].
  intros [|]; [apply grows_modify_self|].
  apply grows_bind; [apply grows_of_extends; intros; apply is_stalemate_extends|].
  intros [|]; [apply grows_modify_self|].
  apply grows_bind; [apply grows_get_self|intros g'].
  destruct (is_draw_by_repetition g'); [apply grows_modify_self|apply grows_ret].
Qed.

Lemma grows_update_position_history : grows update_position_history.
Proof.
  apply grows_same_heap. intros w.
  unfold update_position_history, get_current_position.
  rewrite run_bind, run_bind. cbn [get_self run]. rewrite run_bind. cbn [get_heap run lift].
  by destruct (collect _ (board (self w))).
Qed.

Lemma grows_updates :
  grows (update_check_status;; update_game_over;; update_position_history).
Proof.
  apply grows_bind; [apply grows_update_check_status|intros _].
  apply grows_bind; [apply grows_update_game_over|intros _].
  apply grows_update_position_history.
Qed.

Lemma grows_run {A} (m : M A) (w w' : World) (r : Res A) :
  grows m -> run m w = (w', r) -> heap_grows w w'.
Proof. intros H Hrun. specialize (H w). by rewrite Hrun in H. Qed.

Lemma board_get_grows (w0 w : World) (b : list ref) (r c : Z) (x : option ref) :
  heap_grows w0 w ->
  board_get (heap w0) b r c = Ok x -> board_get (heap w) b r c = Ok x.
Proof.
  intros (_ & extra & Hl). unfold board_get.
  destruct (getitem b r) as [rr|e]; [|done]. cbn [mbind Res_bind].
  unfold deref_list. destruct (lsts (heap w0) !! rr) as [row|] eqn:Hrow; [|discriminate].
  by rewrite Hl, (lookup_app_l_Some _ _ _ _ Hrow).
Qed.

(** ** Promotion *)

Lemma promote_pawn_changes (w w' : World) (piece_class : PieceClass)
    (pending : ref) (pawn : Piece) :
  promotion_pawn (self w) = Some pending ->
  deref (heap w) pending = Ok pawn ->
  run (promote_pawn piece_class) w = (w', Ok tt) ->
  promotion_pawn (self w') = None /\
  objs (heap w') =
    objs (heap w) ++ [new_piece piece_class (color pawn) (position pawn)] /\
  board_get (heap w') (board (self w'))
    (fst (position pawn)) (snd (position pawn))
  = Ok (Some (length (objs (heap w)))) /\
  last_move (self w') = last_move (self w) /\
  exists snapshot,
    board_rows w' = Ok snapshot /\
    position_history (self w') = position_history (self w) ++ [snapshot].
Proof.
  intros Hpending Hpawn Hrun. unfold promote_pawn in Hrun.
  rewrite run_bind in Hrun. cbn [get_self run] in Hrun.
  rewrite Hpending in Hrun. rewrite run_bind in Hrun. unfold load in Hrun.
  rewrite run_bind in Hrun. cbn [get_heap run lift] in Hrun. rewrite Hpawn in Hrun.
  destruct (position pawn) as [row col] eqn:Hpos.
  rewrite run_bind in Hrun. unfold alloc_piece in Hrun. rewrite run_bind in Hrun.
  cbn [get_heap run] in Hrun. rewrite run_bind in Hrun.
  cbn [put_heap run mret M_ret] in Hrun.
  apply run_bind_Ok in Hrun as (wc & [] & Hc & Hrun).
  apply run_bind_Ok in Hrun as (wd & [] & Hd & Hrun).
  cbn [modify_self run] in Hd. injection Hd as <-.
  pose proof (board_set_get _ _ _ _ _ _ Hc) as Hget.
  apply board_set_run in Hc as (rr & rw & rw' & _ & _ & _ & ->).
  cbn [heap self objs lsts] in *.
  set (wd := mkWorld _ _) in Hrun.
  pose proof (grows_run _ _ _ _ grows_updates Hrun) as Hgrow.
  pose proof (keeps_attr_run promotion_pawn _ _ _ _ (updates_keep promotion_pawn
    (fun _ _ _ => eq_refl) (fun _ _ => eq_refl) (fun _ _ => eq_refl)) Hrun) as Hpromo.
  pose proof (keeps_attr_run last_move _ _ _ _ (updates_keep last_move
    (fun _ _ _ => eq_refl) (fun _ _ => eq_refl) (fun _ _ => eq_refl)) Hrun) as Hlast.
  pose proof (keeps_attr_run board _ _ _ _ (updates_keep board
    (fun _ _ _ => eq_refl) (fun _ _ => eq_refl) (fun _ _ => eq_refl)) Hrun) as Hboard.
  destruct (updates_append_snapshot _ _ Hrun) as (snapshot & Hrows & Hhist).
  clear Hrun.
  split; [exact Hpromo|]. split; [exact (proj1 Hgrow)|].
  split; [|split; [exact Hlast|by exists snapshot]].
  rewrite Hboard. cbn [fst snd]. by apply (board_get_grows wd).
Qed.

(** X11. [promote_pawn] with a pending pawn creates one new piece of the
    chosen class, with the colour and the position of the pawn and its flags
    clear, puts it on the pawn's square, clears [promotion_pawn], leaves
    [last_move] as it was and appends one snapshot of the resulting rows to
    [position_history]. *)
Theorem promote_pawn_effects (w w' : World) (piece_class : PieceClass)
    (pending : ref) (pawn : Piece) :
  promotion_pawn (self w) = Some pending ->
  deref (heap w) pending = Ok pawn ->
  run (promote_pawn piece_class) w = (w', Ok tt) ->
  promotion_pawn (self w') = None /\
  objs (heap w') =
    objs (heap w) ++ [new_piece piece_class (color pawn) (position pawn)] /\
  board_get (heap w') (board (self w'))
    (fst (position pawn)) (snd (position pawn))
  = Ok (Some (length (objs (heap w)))) /\
  last_move (self w') = last_move (self w) /\
  exists snapshot,
    board_rows w' = Ok snapshot /\
    position_history (self w') = position_history (self w) ++ [snapshot].
Proof. apply promote_pawn_changes. Qed.

Lemma promote_pawn_effects_witness :
  let w := promotion_position in
  let w' := fst (run (promote_pawn Queen) w) in
  promotion_pawn (self w') = None /\
  objs (heap w') = objs (heap w) ++ [new_piece Queen white (0, 0)] /\
  board_get (heap w') (board (self w')) 0 0 = Ok (Some (length (objs (heap w)))) /\
  last_move (self w') = last_move (self w) /\
  exists snapshot,
    board_rows w' = Ok snapshot /\
    position_history (self w') = position_history (self w) ++ [snapshot].
Proof.
  intros w w'.
  apply (promote_pawn_effects w w' Queen 1%nat (mkPiece Pawn white (0, 0) true false)).
  - vm_compute. reflexivity.
  - vm_compute. reflexivity.
  - vm_compute. reflexivity.
Defined.

(** ** A finished game *)

Lemma stays_over_keeps {A} (m : M A) : keeps_attr game_over m -> stays_over m.
Proof. intros H w Hw. by rewrite H. Qed.

Lemma stays_over_bind {A B} (m : M A) (f : A -> M B) :
  stays_over m -> (forall a, stays_over (f a)) -> stays_over (m ≫= f).
Proof.
  intros Hm Hf w Hw. rewrite run_bind. specialize (Hm w Hw).
  destruct (run m w) as [w1 [a|e]]; cbn [fst] in *; [|exact Hm].
  by apply Hf.
Qed.

Lemma stays_over_set_over (f : ChessGame -> string) :
  stays_over (modify_self (fun g => set_over (f g) g)).
Proof. intros w _. reflexivity. Qed.

Lemma heap_only_get_legal_moves (piece : ref) : heap_only (get_legal_moves piece).
Proof.
  apply heap_only_of_extends. intros w0. by apply get_legal_moves_extends.
Qed.

#[local] Hint Resolve heap_only_get_legal_moves : heap_only.

Create HintDb stays_over.

Ltac stays_over_steps :=
  repeat first
    [ solve [auto with stays_over]
    | solve [apply stays_over_keeps, keeps_attr_heap_only; auto with heap_only]
    | solve [apply stays_over_keeps, keeps_attr_modify_self; intros ?; reflexivity]
    | solve [apply stays_over_set_over]
    | apply stays_over_bind; [|intros ?]
    | match goal with
      | |- stays_over (match ?x with _ => _ end) => destruct x
      end ].

Lemma stays_over_update_check_status : stays_over update_check_status.
Proof. unfold update_check_status. stays_over_steps. Qed.

Lemma stays_over_update_game_over : stays_over update_game_over.
Proof. unfold update_game_over. stays_over_steps. Qed.

Lemma stays_over_update_position_history : stays_over update_position_history.
Proof. unfold update_position_history. stays_over_steps. Qed.

#[local] Hint Resolve stays_over_update_check_status stays_over_update_game_over
  stays_over_update_position_history : stays_over.

Lemma stays_over_select_piece (pos : Z * Z) : stays_over (select_piece pos).
Proof. unfold select_piece. stays_over_steps. Qed.

Lemma stays_over_move_piece (end_pos : Z * Z) : stays_over (move_piece end_pos).
Proof. unfold move_piece. stays_over_steps. Qed.

Lemma stays_over_promote_pawn (piece_class : PieceClass) :
  stays_over (promote_pawn piece_class).
Proof. unfold promote_pawn. stays_over_steps. Qed.

#[local] Hint Resolve stays_over_select_piece stays_over_move_piece : stays_over.

(** X12. Once [game_over] is set, [handle_click] and [handle_release] do
    nothing at all, and none of [select_piece], [move_piece], [promote_pawn]
    and [resign] clears the flag again. *)
Theorem game_over_is_final (w : World) (pos : Z * Z) (piece_class : PieceClass) :
  game_over (self w) = true ->
  run (handle_click pos) w = (w, Ok tt) /\
  run (handle_release pos) w = (w, Ok tt) /\
  game_over (self (fst (run (select_piece pos) w))) = true /\
  game_over (self (fst (run (move_piece pos) w))) = true /\
  game_over (self (fst (run (promote_pawn piece_class) w))) = true /\
  game_over (self (fst (run resign w))) = true.
Proof.
  intros Hover. split; [|split].
  - unfold handle_click. rewrite run_bind. cbn [get_self run]. by rewrite Hover.
  - unfold handle_release. rewrite run_bind. cbn [get_self run].
    by rewrite Hover, andb_false_r.
  - split; [by apply stays_over_select_piece|].
    split; [by apply stays_over_move_piece|].
    split; [by apply stays_over_promote_pawn|reflexivity].
Qed.

Lemma game_over_is_final_witness :
  let w := repetition_position in
  let pos := square_center (6, 4) in
  run (handle_click pos) w = (w, Ok tt) /\
  run (handle_release pos) w = (w, Ok tt) /\
  game_over (self (fst (run (select_piece pos) w))) = true /\
  game_over (self (fst (run (move_piece pos) w))) = true /\
  game_over (self (fst (run (promote_pawn Queen) w))) = true /\
  game_over (self (fst (run resign w))) = true.
Proof.
  intros w pos. apply (game_over_is_final w pos Queen). vm_compute. reflexivity.
Defined.

(** ** Clicking on a square *)

(** X13. A click on the board by [select_piece] selects the piece of the
    clicked square when it belongs to the side to move, with its legal moves
    as [valid_moves] and [dragging] set; on an empty square or a piece of
    the other side it clears the selection and [valid_moves] and changes
    nothing else. *)
Theorem select_piece_selects_side_to_move (w w' : World) (pos : Z * Z) :
  snd pos < BOARD_SIZE ->
  run (select_piece pos) w = (w', Ok tt) ->
  let s := get_board_position (self w) pos in
  exists cell,
    board_get (heap w) (board (self w)) (fst s) (snd s) = Ok cell /\
    ((exists q qp legal w1,
         cell = Some q /\ deref (heap w) q = Ok qp /\ color qp = turn (self w) /\
         run (get_legal_moves q)
           (mkWorld (heap w) (set_selected_piece (Some q) (self w)))
         = (w1, Ok legal) /\
         self w' = set_dragging true
                     (set_valid_moves legal (set_selected_piece (Some q) (self w)))) \/
     ((cell = None \/
       exists q qp, cell = Some q /\ deref (heap w) q = Ok qp /\
                    color qp <> turn (self w)) /\
      w' = mkWorld (heap w) (set_valid_moves [] (set_selected_piece None (self w))))).
Proof.
  intros Hy Hrun. unfold select_piece in Hrun.
  destruct (BOARD_SIZE <=? pos.2) eqn:Hbelow; [apply Z.leb_le in Hbelow; lia|].
  rewrite run_bind in Hrun. cbn [get_self run] in Hrun.
  destruct (get_board_position (self w) pos) as [row col]. cbn [fst snd].
  rewrite run_bind in Hrun. unfold board_read in Hrun. rewrite run_bind in Hrun.
  cbn [get_heap run lift] in Hrun.
  destruct (board_get (heap w) (board (self w)) row col) as [cell|e]; [|discriminate].
  exists cell. split; [done|].
  rewrite run_bind in Hrun.
  destruct cell as [q|].
  - rewrite run_bind in Hrun. unfold load in Hrun. rewrite run_bind in Hrun.
    cbn [get_heap run lift] in Hrun.
    destruct (deref (heap w) q) as [qp|e] eqn:Hq; [|discriminate].
    cbn [mret M_ret run] in Hrun.
    destruct (color_eqb (color qp) (turn (self w))) eqn:Hcolor.
    + apply bool_decide_eq_true in Hcolor. left.
      rewrite run_bind in Hrun. cbn [modify_self run heap self] in Hrun.
      apply run_bind_Ok in Hrun as (w1 & legal & Hlegal & Hrun).
      rewrite run_bind in Hrun. cbn [modify_self run] in Hrun.
      injection Hrun as <-. exists q, qp, legal, w1. repeat (split; [done|]).
      cbn [self]. f_equal. f_equal.
      exact (heap_only_run _ _ _ _ (heap_only_get_legal_moves q) Hlegal).
    + unfold color_eqb in Hcolor. rewrite bool_decide_eq_false in Hcolor. right.
      rewrite run_bind in Hrun. cbn [modify_self run] in Hrun.
      injection Hrun as <-. split; [|done]. right. by exists q, qp.
  - cbn [mret M_ret run] in Hrun. rewrite run_bind in Hrun.
    cbn [modify_self run] in Hrun. injection Hrun as <-. right. split; [by left|done].
Qed.

Lemma select_piece_selects_side_to_move_witness :
  let w := new_game white in
  let pos := square_center (6, 4) in
  let w' := fst (run (select_piece pos) w) in
  let s := get_board_position (self w) pos in
  exists cell,
    board_get (heap w) (board (self w)) (fst s) (snd s) = Ok cell /\
    ((exists q qp legal w1,
         cell = Some q /\ deref (heap w) q = Ok qp /\ color qp = turn (self w) /\
         run (get_legal_moves q)
           (mkWorld (heap w) (set_selected_piece (Some q) (self w)))
         = (w1, Ok legal) /\
         self w' = set_dragging true
                     (set_valid_moves legal (set_selected_piece (Some q) (self w)))) \/
     ((cell = None \/
       exists q qp, cell = Some q /\ deref (heap w) q = Ok qp /\
                    color qp <> turn (self w)) /\
      w' = mkWorld (heap w) (set_valid_moves [] (set_selected_piece None (self w))))).
Proof.
  intros w pos w'. apply (select_piece_selects_side_to_move w w' pos).
  - vm_compute. reflexivity.
  - vm_compute. reflexivity.
Defined.

(** ** Reading and writing a grid *)

Lemma py_index_in_range (len i : Z) :
  0 <= i < len -> py_index len i = Some (Z.to_nat i).
Proof.
  intros Hi. unfold py_index.
  assert (H0 : (0 <=? i) = true) by lia. assert (H1 : (i <? len) = true) by lia.
  by rewrite H0, H1.
Qed.

Lemma getitem_in_range {A} (l : list A) (i : Z) :
  length l = 8%nat -> 0 <= i < 8 ->
  exists x, l !! Z.to_nat i = Some x /\ getitem l i = Ok x.
Proof.
  intros Hlen Hi. unfold getitem. rewrite Hlen, py_index_in_range by lia.
  destruct (l !! Z.to_nat i) as [x|] eqn:Hx; [by exists x|].
  apply lookup_ge_None in Hx. lia.
Qed.

Lemma setitem_in_range {A} (l : list A) (i : Z) (x : A) :
  length l = 8%nat -> 0 <= i < 8 -> setitem l i x = Ok (<[Z.to_nat i:=x]> l).
Proof.
  intros Hlen Hi. unfold setitem. by rewrite Hlen, py_index_in_range by lia.
Qed.

Lemma lookup_unique {A} (l : list A) (i : nat) (x y : A) :
  l !! i = Some x -> l !! i = Some y -> x = y.
Proof. congruence. Qed.

Lemma board_get_grid (h : Heap) (b : list ref) (s : Square) :
  grid h b -> in_bounds s ->
  exists rr row cell,
    b !! Z.to_nat (fst s) = Some rr /\
    lsts h !! rr = Some row /\ length row = 8%nat /\
    row !! Z.to_nat (snd s) = Some cell /\
    board_get h b (fst s) (snd s) = Ok cell.
Proof.
  intros (Hlen & Hnd & Hrows) [Hr Hc].
  destruct (getitem_in_range b (fst s) Hlen Hr) as (rr & Hrr & Hget).
  destruct (Hrows rr) as (row & Hrow & Hrlen).
  { apply list_elem_of_In. by eapply list_elem_of_lookup_2. }
  destruct (getitem_in_range row (snd s) Hrlen Hc) as (cell & Hcell & Hgetc).
  exists rr, row, cell. repeat (split; [done|]).
  unfold board_get. rewrite Hget. cbn [mbind Res_bind]. unfold deref_list.
  rewrite Hrow. cbn [mbind Res_bind]. done.
Qed.

(** On a grid, [b[r][c] = v] for a square of the board goes through, the
    square then holds [v], and every other square holds what it held. *)
Lemma board_set_grid (b : list ref) (s : Square) (v : option ref) (w : World) :
  grid (heap w) b -> in_bounds s ->
  exists w',
    run (board_set b (fst s) (snd s) v) w = (w', Ok tt) /\
    grid (heap w') b /\
    self w' = self w /\
    objs (heap w') = objs (heap w) /\
    board_get (heap w') b (fst s) (snd s) = Ok v /\
    forall s', in_bounds s' -> s' <> s ->
               board_get (heap w') b (fst s') (snd s')
               = board_get (heap w) b (fst s') (snd s').
Proof.
  intros Hgrid Hs.
  destruct (board_get_grid _ _ _ Hgrid Hs) as (rr & row & cell & Hrr & Hrow & Hrlen & Hcell & _).
  destruct Hgrid as (Hlen & Hnd & Hrows). destruct Hs as [Hr Hc].
  destruct (getitem_in_range b (fst s) Hlen Hr) as (rr' & Hrr' & Hget).
  assert (rr' = rr) as -> by congruence.
  set (row' := <[Z.to_nat (snd s):=v]> row).
  set (w' := mkWorld (mkHeap (objs (heap w)) (<[rr:=row']> (lsts (heap w)))) (self w)).
  assert (Hrun : run (board_set b (fst s) (snd s) v) w = (w', Ok tt)).
  { unfold board_set. rewrite run_bind. cbn [lift run]. rewrite Hget.
    rewrite run_bind. cbn [get_heap run]. rewrite run_bind. cbn [lift run].
    unfold deref_list. rewrite Hrow. rewrite run_bind. cbn [lift run].
    by rewrite (setitem_in_range row (snd s) v Hrlen Hc). }
  assert (Hgrid' : grid (heap w') b).
  { split; [done|]. split; [done|]. intros r0 Hr0. cbn [w' heap lsts].
    destruct (decide (r0 = rr)) as [->|Hne].
    - exists row'. split; [|by unfold row'; rewrite length_insert].
      apply list_lookup_insert_eq. by eapply lookup_lt_Some.
    - destruct (Hrows r0 Hr0) as (row0 & Hrow0 & Hlen0). exists row0.
      split; [|done]. by rewrite list_lookup_insert_ne. }
  exists w'. split; [done|]. split; [done|]. split; [done|]. split; [done|].
  split; [by eapply board_set_get|].
  intros s' Hs' Hne.
  destruct (board_get_grid _ _ _ Hgrid' Hs') as (r1 & row1 & cell1 & Hr1 & Hrow1 & _ & Hcell1 & ->).
  destruct (board_get_grid (heap w) b s' (conj Hlen (conj Hnd Hrows)) Hs')
    as (r2 & row2 & cell2 & Hr2 & Hrow2 & _ & Hcell2 & ->).
  assert (r2 = r1) as -> by congruence. f_equal.
  cbn [w' heap lsts] in Hrow1. destruct (decide (r1 = rr)) as [->|Hrne].
  - rewrite list_lookup_insert_eq in Hrow1 by (by eapply lookup_lt_Some).
    injection Hrow1 as <-. assert (row2 = row) as -> by congruence.
    assert (Z.to_nat (fst s') = Z.to_nat (fst s)) as Hrows_eq
      by (eapply NoDup_lookup; eauto).
    unfold row' in Hcell1. rewrite list_lookup_insert_ne in Hcell1;
      [exact (lookup_unique _ _ _ _ Hcell1 Hcell2)|].
    intros Hceq. apply Hne. destruct Hs' as [? ?].
    destruct s as [a1 a2], s' as [b1 b2]. cbn [fst snd] in *. f_equal; lia.
  - rewrite list_lookup_insert_ne in Hrow1 by done.
    pose proof (lookup_unique _ _ _ _ Hrow1 Hrow2) as ->.
    exact (lookup_unique _ _ _ _ Hcell1 Hcell2).
Qed.

Lemma grid_grows (w0 w : World) (b : list ref) :
  (exists extra, lsts (heap w) = lsts (heap w0) ++ extra) ->
  grid (heap w0) b -> grid (heap w) b.
Proof.
  intros (extra & Hl) (Hlen & Hnd & Hrows). split; [done|]. split; [done|].
  intros rr Hrr. destruct (Hrows rr Hrr) as (row & Hrow & Hrlen).
  exists row. split; [|done]. by rewrite Hl, (lookup_app_l_Some _ _ _ _ Hrow).
Qed.

Lemma board_get_lists_grow (h0 h : Heap) (b : list ref) (r c : Z) (x : option ref) :
  (exists extra, lsts h = lsts h0 ++ extra) ->
  board_get h0 b r c = Ok x -> board_get h b r c = Ok x.
Proof.
  intros (extra & Hl). unfold board_get.
  destruct (getitem b r) as [rr|e]; [|done]. cbn [mbind Res_bind].
  unfold deref_list. destruct (lsts h0 !! rr) as [row|] eqn:Hrow; [|discriminate].
  by rewrite Hl, (lookup_app_l_Some _ _ _ _ Hrow).
Qed.

(** ** Lists and pieces a call leaves alone *)

Lemma keeps_lists_bind {A B} (m : M A) (f : A -> M B) :
  keeps_lists m -> (forall a, keeps_lists (f a)) -> keeps_lists (m ≫= f).
Proof.
  intros Hm Hf w. rewrite run_bind. destruct (Hm w) as [e1 H1].
  destruct (run m w) as [w1 [a|e]]; cbn [fst] in *; [|by exists e1].
  destruct (Hf a w1) as [e2 H2]. exists (e1 ++ e2). by rewrite H2, H1, app_assoc.
Qed.

Lemma keeps_lists_same {A} (m : M A) :
  (forall w, lsts (heap (fst (run m w))) = lsts (heap w)) -> keeps_lists m.
Proof. intros H w. exists []. by rewrite H, app_nil_r. Qed.

Lemma keeps_lists_grows {A} (m : M A) : grows m -> keeps_lists m.
Proof. intros H w. exact (proj2 (H w)). Qed.

Lemma keeps_lists_update_piece (p : ref) (f : Piece -> Piece) :
  keeps_lists (update_piece p f).
Proof.
  apply keeps_lists_same. intros w. unfold update_piece.
  rewrite run_bind. cbn [get_heap run]. rewrite run_bind. cbn [lift run].
  by destruct (deref (heap w) p).
Qed.

Lemma keeps_lists_load (p : ref) : keeps_lists (load p).
Proof.
  apply keeps_lists_same. intros w. unfold load. rewrite run_bind.
  cbn [get_heap run lift]. by destruct (deref (heap w) p).
Qed.

Lemma keeps_lists_for_each {A} (l : list A) (body : A -> M unit) :
  (forall a, keeps_lists (body a)) -> keeps_lists (for_each l body).
Proof.
  intros Hbody. induction l as [|a l IH]; cbn [for_each].
  - by apply keeps_lists_same.
  - apply keeps_lists_bind; [apply Hbody|by intros _].
Qed.

Lemma keeps_lists_run {A} (m : M A) (w w' : World) (r : Res A) :
  keeps_lists m -> run m w = (w', r) ->
  exists extra, lsts (heap w') = lsts (heap w) ++ extra.
Proof. intros H Hrun. specialize (H w). by rewrite Hrun in H. Qed.

Lemma same_place_refl (x : Piece) : same_place x x.
Proof. by repeat split. Qed.

Lemma same_place_trans (x y z : Piece) :
  same_place x y -> same_place y z -> same_place x z.
Proof. intros (H1 & H2 & H3) (H4 & H5 & H6). repeat split; congruence. Qed.

Lemma keeps_places_bind {A B} (m : M A) (f : A -> M B) :
  keeps_places m -> (forall a, keeps_places (f a)) -> keeps_places (m ≫= f).
Proof.
  intros Hm Hf w q x Hq. rewrite run_bind. destruct (Hm w q x Hq) as (x1 & Hx1 & Hp1).
  destruct (run m w) as [w1 [a|e]]; cbn [fst] in *; [|by exists x1].
  destruct (Hf a w1 q x1 Hx1) as (x2 & Hx2 & Hp2).
  exists x2. split; [done|]. by eapply same_place_trans.
Qed.

Lemma keeps_places_same {A} (m : M A) :
  (forall w, objs (heap (fst (run m w))) = objs (heap w)) -> keeps_places m.
Proof. intros H w q x Hq. exists x. rewrite H. split; [done|apply same_place_refl]. Qed.

Lemma keeps_places_grows {A} (m : M A) : grows m -> keeps_places m.
Proof. intros H. apply keeps_places_same. intros w. exact (proj1 (H w)). Qed.

Lemma keeps_places_update_piece (p : ref) (f : Piece -> Piece) :
  (forall x, same_place x (f x)) -> keeps_places (update_piece p f).
Proof.
  intros Hf w q x Hq. unfold update_piece.
  rewrite run_bind. cbn [get_heap run]. rewrite run_bind. cbn [lift run].
  unfold deref. destruct (objs (heap w) !! p) as [y|] eqn:Hy;
    [|exists x; split; [done|apply same_place_refl]].
  cbn [put_heap run fst heap objs].
  destruct (decide (q = p)) as [->|Hne].
  - exists (f y). rewrite list_lookup_insert_eq by (by eapply lookup_lt_Some).
    split; [done|]. pose proof (lookup_unique _ _ _ _ Hq Hy) as ->. apply Hf.
  - exists x. rewrite list_lookup_insert_ne by done. split; [done|apply same_place_refl].
Qed.

Lemma keeps_places_for_each {A} (l : list A) (body : A -> M unit) :
  (forall a, keeps_places (body a)) -> keeps_places (for_each l body).
Proof.
  intros Hbody. induction l as [|a l IH]; cbn [for_each].
  - by apply keeps_places_same.
  - apply keeps_places_bind; [apply Hbody|by intros _].
Qed.

Lemma keeps_places_run {A} (m : M A) (w w' : World) (r : Res A) (q : ref) (x : Piece) :
  keeps_places m -> run m w = (w', r) -> objs (heap w) !! q = Some x ->
  exists x', objs (heap w') !! q = Some x' /\ same_place x x'.
Proof. intros H Hrun Hq. specialize (H w q x Hq). by rewrite Hrun in H. Qed.

Lemma grows_load (p : ref) : grows (load p).
Proof.
  apply grows_same_heap. intros w. unfold load. rewrite run_bind.
  cbn [get_heap run lift]. by destruct (deref (heap w) p).
Qed.

Lemma grows_get_heap : grows get_heap.
Proof. by apply grows_same_heap. Qed.

Lemma grows_lift {A} (r : Res A) : grows (lift r).
Proof. by apply grows_same_heap. Qed.

Create HintDb frame_lists.
Create HintDb frame_places.

#[local] Hint Resolve keeps_lists_update_piece keeps_lists_load : frame_lists.

Ltac grows_leaf :=
  first [ apply grows_update_check_status | apply grows_update_game_over
        | apply grows_update_position_history | apply grows_modify_self
        | apply grows_get_self | apply grows_get_heap | apply grows_lift
        | apply grows_load | apply grows_ret ].

Ltac keeps_lists_steps :=
  repeat first
    [ solve [auto with frame_lists]
    | solve [apply keeps_lists_grows; grows_leaf]
    | apply keeps_lists_for_each; intros ?
    | apply keeps_lists_bind; [|intros ?]
    | match goal with
      | |- keeps_lists (match ?x with _ => _ end) => destruct x
      end ].

Ltac keeps_places_steps :=
  repeat first
    [ solve [apply keeps_places_grows; grows_leaf]
    | solve [apply keeps_places_update_piece; intros ?; split; [|split]; reflexivity]
    | apply keeps_places_for_each; intros ?
    | apply keeps_places_bind; [|intros ?]
    | match goal with
      | |- keeps_places (match ?x with _ => _ end) => destruct x
      end ].

Lemma keeps_lists_reset_en_passant (mover : ref) (clr : Color) :
  keeps_lists (reset_en_passant mover clr).
Proof. unfold reset_en_passant. keeps_lists_steps. Qed.

Lemma keeps_places_reset_en_passant (mover : ref) (clr : Color) :
  keeps_places (reset_en_passant mover clr).
Proof. unfold reset_en_passant. keeps_places_steps. Qed.

#[local] Hint Resolve keeps_lists_reset_en_passant : frame_lists.

Lemma deref_lookup (h : Heap) (q : ref) (x : Piece) :
  deref h q = Ok x <-> objs h !! q = Some x.
Proof.
  unfold deref. destruct (objs h !! q) as [y|]; split; intros H;
    try discriminate; by simplify_eq.
Qed.

Lemma update_piece_run (q : ref) (f : Piece -> Piece) (w w' : World) :
  run (update_piece q f) w = (w', Ok tt) ->
  exists x,
    deref (heap w) q = Ok x /\
    w' = mkWorld (mkHeap (<[q:=f x]> (objs (heap w))) (lsts (heap w))) (self w).
Proof.
  unfold update_piece. rewrite run_bind. cbn [get_heap run]. rewrite run_bind.
  cbn [lift run]. destruct (deref (heap w) q) as [x|e]; [|discriminate].
  cbn [put_heap run]. intros [= <-]. by exists x.
Qed.

(** ** The relocation of a piece *)

(** The en passant step of [move_piece] on a grid. *)
Lemma en_passant_removal (b : list ref) (p : Piece) (start dest : Square)
    (w wa : World) :
  grid (heap w) b -> in_bounds start -> in_bounds dest ->
  run (if is_class Pawn p && negb (snd dest =? snd start) then
         cell ← board_read b (fst dest) (snd dest);
         match cell with
         | None => board_set b (fst start) (snd dest) None
         | Some _ => mret tt
         end
       else mret tt) w = (wa, Ok tt) ->
  let removal :=
    cls p = Pawn /\ snd dest <> snd start /\
    board_get (heap w) b (fst dest) (snd dest) = Ok None in
  grid (heap wa) b /\ self wa = self w /\ objs (heap wa) = objs (heap w) /\
  (forall s, in_bounds s -> ~ (removal /\ s = (fst start, snd dest)) ->
             board_get (heap wa) b (fst s) (snd s)
             = board_get (heap w) b (fst s) (snd s)) /\
  (removal -> board_get (heap wa) b (fst start) (snd dest) = Ok None).
Proof.
  intros Hgrid Hstart Hdest Hrun removal.
  assert (Hsame : wa = w -> ~ removal ->
                  grid (heap wa) b /\ self wa = self w /\
                  objs (heap wa) = objs (heap w) /\
                  (forall s, in_bounds s -> ~ (removal /\ s = (fst start, snd dest)) ->
                             board_get (heap wa) b (fst s) (snd s)
                             = board_get (heap w) b (fst s) (snd s)) /\
                  (removal -> board_get (heap wa) b (fst start) (snd dest) = Ok None)).
  { intros -> Hno. split; [done|]. split; [done|]. split; [done|]. split; [done|].
    intros H. by destruct Hno. }
  destruct (is_class Pawn p && negb (snd dest =? snd start)) eqn:Hcond.
  - apply andb_true_iff in Hcond as [Hpawn Hcol].
    apply bool_decide_eq_true in Hpawn. apply negb_true_iff, Z.eqb_neq in Hcol.
    rewrite run_bind in Hrun. unfold board_read in Hrun. rewrite run_bind in Hrun.
    cbn [get_heap run lift] in Hrun.
    destruct (board_get (heap w) b (fst dest) (snd dest)) as [[q|]|e] eqn:Hcell;
      [| |discriminate].
    + cbn [mret M_ret run] in Hrun. injection Hrun as <-. apply Hsame; [done|].
      intros (_ & _ & H). discriminate H.
    + assert (Hcap : in_bounds (fst start, snd dest))
        by (destruct Hstart, Hdest; by split).
      destruct (board_set_grid b (fst start, snd dest) None w Hgrid Hcap)
        as (w1 & Hrun1 & Hg1 & Hs1 & Ho1 & Hget1 & Hother1).
      cbn [fst snd] in Hrun1. rewrite Hrun1 in Hrun. injection Hrun as <-.
      repeat (split; [done|]). split.
      * intros s Hs Hno. apply Hother1; [done|]. intros ->. by apply Hno.
      * intros _. exact Hget1.
  - cbn [mret M_ret run] in Hrun. injection Hrun as <-. apply Hsame; [done|].
    intros (Hpawn & Hcol & _). apply andb_false_iff in Hcond as [Hc|Hc].
    + unfold is_class in Hc. by rewrite (bool_decide_eq_true_2 _ Hpawn) in Hc.
    + apply negb_false_iff, Z.eqb_eq in Hc. done.
Qed.

Lemma move_piece_board (w w' : World) (end_pos : Z * Z) (sel : ref) (p : Piece)
    (start dest : Square) :
  grid (heap w) (board (self w)) ->
  selected_piece (self w) = Some sel ->
  deref (heap w) sel = Ok p ->
  position p = start ->
  get_board_position (self w) end_pos = dest ->
  in_bounds start -> in_bounds dest -> dest <> start ->
  run (move_piece end_pos) w = (w', Ok true) ->
  board (self w') = board (self w) /\
  grid (heap w') (board (self w)) /\
  board_get (heap w') (board (self w)) (fst dest) (snd dest) = Ok (Some sel) /\
  board_get (heap w') (board (self w)) (fst start) (snd start) = Ok None /\
  (captures_en_passant w p dest -> (fst start, snd dest) <> dest ->
   board_get (heap w') (board (self w)) (fst start) (snd dest) = Ok None) /\
  (forall s, in_bounds s -> s <> dest -> s <> start ->
             ~ (captures_en_passant w p dest /\ s = (fst start, snd dest)) ->
             board_get (heap w') (board (self w)) (fst s) (snd s)
             = board_get (heap w) (board (self w)) (fst s) (snd s)) /\
  (exists p', deref (heap w') sel = Ok p' /\
              cls p' = cls p /\ color p' = color p /\ position p' = dest) /\
  (forall q x, q <> sel -> deref (heap w) q = Ok x ->
               exists x', deref (heap w') q = Ok x' /\ same_place x x').
Proof.
  intros Hgrid Hsel Hp Hpos Hd Hstart Hdest Hne Hrun.
  assert (Hboard : board (self w') = board (self w)).
  { assert (keeps_attr board (move_piece end_pos))
      by (unfold move_piece; keeps_attr_steps).
    by eapply keeps_attr_run. }
  split; [exact Hboard|].
  unfold captures_en_passant. rewrite Hpos.
  unfold move_piece in Hrun.
  destruct (BOARD_SIZE <=? end_pos.2); [discriminate|].
  rewrite run_bind in Hrun. cbn [get_self run] in Hrun. rewrite Hd in Hrun.
  destruct dest as [end_row end_col].
  rewrite Hsel, run_bind in Hrun. cbn [mret M_ret run] in Hrun.
  rewrite run_bind in Hrun. unfold load in Hrun. rewrite run_bind in Hrun.
  cbn [get_heap run lift] in Hrun. rewrite Hp, Hpos in Hrun.
  destruct start as [start_row start_col].
  destruct (existsb _ _); [|discriminate].
  cbn [fst snd].
  apply run_bind_Ok in Hrun as (wa & [] & Ha & Hrun).
  apply run_bind_Ok in Hrun as (wb & [] & Hb & Hrun).
  apply run_bind_Ok in Hrun as (wc & [] & Hc & Hrun).
  apply run_bind_Ok in Hrun as (wd & [] & Hdd & Hrun).
  set (b := board (self w)) in *.
  destruct (en_passant_removal b p (start_row, start_col) (end_row, end_col) w wa
              Hgrid Hstart Hdest Ha) as (Hga & Hsa & Hoa & Hfa & Hca).
  destruct (board_set_grid b (end_row, end_col) (Some sel) wa Hga Hdest)
    as (wb' & Hrunb & Hgb & Hsb & Hob & Hgetb & Hfb).
  cbn [fst snd] in Hrunb. rewrite Hrunb in Hb. injection Hb as ->.
  destruct (board_set_grid b (start_row, start_col) None wb Hgb Hstart)
    as (wc' & Hrunc & Hgc & Hsc & Hoc & Hgetc & Hfc).
  cbn [fst snd] in Hrunc. rewrite Hrunc in Hc. injection Hc as ->.
  apply update_piece_run in Hdd as (x & Hx & ->).
  assert (x = p) as ->.
  { apply deref_lookup in Hx, Hp. rewrite Hoc, Hob, Hoa in Hx.
    exact (lookup_unique _ _ _ _ Hx Hp). }
  set (wd := mkWorld _ _) in Hrun.
  assert (Hlists : exists extra, lsts (heap w') = lsts (heap wc) ++ extra).
  { change (lsts (heap wc)) with (lsts (heap wd)).
    eapply keeps_lists_run; [|exact Hrun]. keeps_lists_steps. }
  assert (Hplaces : forall q y, objs (heap wd) !! q = Some y ->
                      exists y', objs (heap w') !! q = Some y' /\ same_place y y').
  { intros q y Hq. eapply keeps_places_run; [|exact Hrun|exact Hq].
    keeps_places_steps. }
  clear Hrun.
  assert (Hread : forall s cell, board_get (heap wc) b (fst s) (snd s) = Ok cell ->
                                 board_get (heap w') b (fst s) (snd s) = Ok cell).
  { intros s cell. by apply board_get_lists_grow. }
  split; [by eapply grid_grows|].
  split.
  { apply (Hread (end_row, end_col)). rewrite (Hfc (end_row, end_col)) by done.
    exact Hgetb. }
  split; [exact (Hread (start_row, start_col) _ Hgetc)|].
  assert (Hkeep : forall s, in_bounds s -> s <> (end_row, end_col) ->
                            s <> (start_row, start_col) ->
                            board_get (heap wc) b (fst s) (snd s)
                            = board_get (heap wa) b (fst s) (snd s)).
  { intros s Hs H1 H2. by rewrite Hfc, Hfb. }
  assert (Hok : forall s, in_bounds s ->
                          exists cell, board_get (heap wc) b (fst s) (snd s) = Ok cell).
  { intros s Hs. destruct (board_get_grid _ _ _ Hgc Hs) as (? & ? & cell & _ & _ & _ & _ & H).
    by exists cell. }
  split.
  { intros (Hpawn & Hcol & Hempty) Hrd.
    apply (Hread (start_row, end_col)).
    rewrite (Hkeep (start_row, end_col)).
    - apply Hca. split; [exact Hpawn|]. split; [exact Hcol|exact Hempty].
    - destruct Hstart, Hdest. by split.
    - exact Hrd.
    - intros [= ?]. by apply Hcol. }
  split.
  { intros s Hs H1 H2 H3. destruct (Hok s Hs) as [cell Hcell].
    rewrite (Hread s cell Hcell), <- Hcell, (Hkeep s Hs H1 H2).
    apply Hfa; [done|]. intros [(Hpawn & Hcol & Hempty) ->]. apply H3. by split. }
  split.
  { destruct (Hplaces sel (set_position (end_row, end_col) p)) as (p' & Hp' & Hc' & Hcl' & Hpos').
    - cbn [wd heap objs]. apply list_lookup_insert_eq. apply deref_lookup in Hx.
      by eapply lookup_lt_Some.
    - exists p'. split; [by apply deref_lookup|]. by repeat split. }
  intros q y Hq Hy. apply deref_lookup in Hy.
  destruct (Hplaces q y) as (y' & Hy' & Hsame).
  - cbn [wd heap objs]. rewrite list_lookup_insert_ne by done.
    by rewrite Hoc, Hob, Hoa.
  - exists y'. split; [by apply deref_lookup|done].
Qed.

(** ** Checking a world *)

Lemma gridb_true (h : Heap) (b : list ref) : gridb h b = true -> grid h b.
Proof.
  unfold gridb, grid. rewrite !andb_true_iff, Nat.eqb_eq, bool_decide_eq_true.
  intros [[Hlen Hnd] Hrows]. split; [done|]. split; [done|].
  rewrite forallb_forall in Hrows. intros rr Hrr. specialize (Hrows rr Hrr).
  destruct (lsts h !! rr) as [row|]; [|discriminate].
  exists row. split; [done|]. by apply Nat.eqb_eq.
Qed.

Lemma syncedb_true (w : World) : syncedb w = true -> synced w.
Proof.
  unfold syncedb, synced. rewrite forallb_forall. intros H s q Hs Hq.
  specialize (H s (proj2 (In_all_squares s) Hs)). rewrite Hq in H.
  destruct (deref (heap w) q) as [x|e]; [|discriminate].
  exists x. split; [done|]. unfold Square_eqb in H.
  apply andb_true_iff in H as [H1 H2]. apply Z.eqb_eq in H1, H2.
  destruct (position x), s; cbn in *; by subst.
Qed.

(** X14. An accepted move puts the selected piece on the destination square
    and empties its start square; an en passant capture also empties the
    square beside the start square on the destination file; every other
    square of the board holds what it held. The moved piece keeps its class
    and colour and has the destination as its position, and every other
    piece keeps its class, colour and position. *)
Theorem move_relocates_piece (w w' : World) (end_pos : Z * Z) (sel : ref) (p : Piece)
    (start dest : Square) :
  grid (heap w) (board (self w)) ->
  selected_piece (self w) = Some sel ->
  deref (heap w) sel = Ok p ->
  position p = start ->
  get_board_position (self w) end_pos = dest ->
  in_bounds start -> in_bounds dest -> dest <> start ->
  run (move_piece end_pos) w = (w', Ok true) ->
  board (self w') = board (self w) /\
  board_get (heap w') (board (self w)) (fst dest) (snd dest) = Ok (Some sel) /\
  board_get (heap w') (board (self w)) (fst start) (snd start) = Ok None /\
  (captures_en_passant w p dest -> (fst start, snd dest) <> dest ->
   board_get (heap w') (board (self w)) (fst start) (snd dest) = Ok None) /\
  (forall s, in_bounds s -> s <> dest -> s <> start ->
             ~ (captures_en_passant w p dest /\ s = (fst start, snd dest)) ->
             board_get (heap w') (board (self w)) (fst s) (snd s)
             = board_get (heap w) (board (self w)) (fst s) (snd s)) /\
  (exists p', deref (heap w') sel = Ok p' /\
              cls p' = cls p /\ color p' = color p /\ position p' = dest) /\
  (forall q x, q <> sel -> deref (heap w) q = Ok x ->
               exists x', deref (heap w') q = Ok x' /\ same_place x x').
Proof.
  intros Hgrid Hsel Hp Hpos Hd Hstart Hdest Hne Hrun.
  destruct (move_piece_board _ _ _ _ _ _ _ Hgrid Hsel Hp Hpos Hd Hstart Hdest Hne Hrun)
    as (H1 & _ & H2). by split.
Qed.

Lemma move_relocates_piece_witness :
  let w := fst (run (handle_click (square_center (3, 5))) en_passant_position) in
  let w' := fst (run (move_piece (square_center (2, 6))) w) in
  let p := mkPiece Pawn white (3, 5) true false in
  let start := (3, 5) in
  let dest := (2, 6) in
  board (self w') = board (self w) /\
  board_get (heap w') (board (self w)) (fst dest) (snd dest) = Ok (Some 11%nat) /\
  board_get (heap w') (board (self w)) (fst start) (snd start) = Ok None /\
  (captures_en_passant w p dest -> (fst start, snd dest) <> dest ->
   board_get (heap w') (board (self w)) (fst start) (snd dest) = Ok None) /\
  (forall s, in_bounds s -> s <> dest -> s <> start ->
             ~ (captures_en_passant w p dest /\ s = (fst start, snd dest)) ->
             board_get (heap w') (board (self w)) (fst s) (snd s)
             = board_get (heap w) (board (self w)) (fst s) (snd s)) /\
  (exists p', deref (heap w') 11%nat = Ok p' /\
              cls p' = cls p /\ color p' = color p /\ position p' = dest) /\
  (forall q x, q <> 11%nat -> deref (heap w) q = Ok x ->
               exists x', deref (heap w') q = Ok x' /\ same_place x x').
Proof.
  intros w w' p start dest.
  apply (move_relocates_piece w w' (square_center (2, 6)) 11%nat p start dest).
  - apply gridb_true. vm_compute. reflexivity.
  - vm_compute. reflexivity.
  - vm_compute. reflexivity.
  - reflexivity.
  - vm_compute. reflexivity.
  - unfold in_bounds. cbn. lia.
  - unfold in_bounds. cbn. lia.
  - discriminate.
  - vm_compute. reflexivity.
Defined.

(** X15. If the board is a grid of eight rows of eight cells and every piece
    on it records the square it stands on, the same holds after an accepted
    move. *)
Theorem move_keeps_pieces_synced (w w' : World) (end_pos : Z * Z) (sel : ref)
    (p : Piece) :
  grid (heap w) (board (self w)) ->
  synced w ->
  selected_piece (self w) = Some sel ->
  deref (heap w) sel = Ok p ->
  in_bounds (position p) ->
  in_bounds (get_board_position (self w) end_pos) ->
  get_board_position (self w) end_pos <> position p ->
  run (move_piece end_pos) w = (w', Ok true) ->
  grid (heap w') (board (self w')) /\ synced w'.
Proof.
  intros Hgrid Hsync Hsel Hp Hstart Hdest Hne Hrun.
  destruct (move_piece_board _ _ _ _ _ _ _ Hgrid Hsel Hp eq_refl eq_refl
              Hstart Hdest Hne Hrun)
    as (Hboard & Hgrid' & Hd & Hs & Hrem & Hother & (p' & Hp' & _ & _ & Hpos') & Hpieces).
  rewrite Hboard. split; [exact Hgrid'|]. intros s q Hin Hcell. rewrite Hboard in Hcell.
  set (dest := get_board_position (self w) end_pos) in *.
  destruct (decide (s = dest)) as [->|Hsd].
  { rewrite Hd in Hcell. injection Hcell as <-. by exists p'. }
  destruct (decide (s = position p)) as [->|Hss].
  { rewrite Hs in Hcell. discriminate. }
  assert (Hno : ~ (captures_en_passant w p dest /\ s = ((position p).1, dest.2))).
  { intros [Hcap ->]. cbn [fst snd] in Hcell.
    rewrite (Hrem Hcap Hsd) in Hcell. discriminate. }
  rewrite (Hother s Hin Hsd Hss Hno) in Hcell.
  destruct (Hsync s q Hin Hcell) as (x & Hx & Hxpos).
  assert (Hq : q <> sel).
  { intros ->. apply Hss. rewrite Hp in Hx. injection Hx as <-. by symmetry. }
  destruct (Hpieces q x Hq Hx) as (x' & Hx' & _ & _ & Hpos).
  exists x'. split; [done|congruence].
Qed.

Lemma move_keeps_pieces_synced_witness :
  let w := fst (run (handle_click (square_center (3, 5))) en_passant_position) in
  let w' := fst (run (move_piece (square_center (2, 6))) w) in
  grid (heap w') (board (self w')) /\ synced w'.
Proof.
  intros w w'.
  apply (move_keeps_pieces_synced w w' (square_center (2, 6)) 11%nat
           (mkPiece Pawn white (3, 5) true false)).
  - apply gridb_true. vm_compute. reflexivity.
  - apply syncedb_true. vm_compute. reflexivity.
  - vm_compute. reflexivity.
  - vm_compute. reflexivity.
  - unfold in_bounds. cbn. lia.
  - unfold in_bounds. vm_compute. repeat split; discriminate.
  - vm_compute. discriminate.
  - vm_compute. reflexivity.
Defined.

(** X16. [promote_pawn] changes the board at the square of the pending pawn
    only, alters no existing piece object, and keeps the board a grid on
    which every piece records the square it stands on. *)
Theorem promote_pawn_keeps_pieces_synced (w w' : World) (piece_class : PieceClass)
    (pending : ref) (pawn : Piece) :
  grid (heap w) (board (self w)) ->
  synced w ->
  promotion_pawn (self w) = Some pending ->
  deref (heap w) pending = Ok pawn ->
  in_bounds (position pawn) ->
  run (promote_pawn piece_class) w = (w', Ok tt) ->
  board (self w') = board (self w) /\
  grid (heap w') (board (self w')) /\
  synced w' /\
  (forall s, in_bounds s -> s <> position pawn ->
             board_get (heap w') (board (self w')) (fst s) (snd s)
             = board_get (heap w) (board (self w)) (fst s) (snd s)) /\
  (forall q x, deref (heap w) q = Ok x -> deref (heap w') q = Ok x).
Proof.
  intros Hgrid Hsync Hpending Hpawn Hin Hrun.
  pose proof (promote_pawn_changes _ _ _ _ _ Hpending Hpawn Hrun)
    as (_ & Hobjs & Hcell & _).
  unfold promote_pawn in Hrun.
  rewrite run_bind in Hrun. cbn [get_self run] in Hrun.
  rewrite Hpending in Hrun. rewrite run_bind in Hrun. unfold load in Hrun.
  rewrite run_bind in Hrun. cbn [get_heap run lift] in Hrun. rewrite Hpawn in Hrun.
  destruct (position pawn) as [row col] eqn:Hpos.
  rewrite run_bind in Hrun. unfold alloc_piece in Hrun. rewrite run_bind in Hrun.
  cbn [get_heap run] in Hrun. rewrite run_bind in Hrun.
  cbn [put_heap run mret M_ret] in Hrun.
  apply run_bind_Ok in Hrun as (wc & [] & Hc & Hrun).
  apply run_bind_Ok in Hrun as (wd & [] & Hd & Hrun).
  cbn [modify_self run] in Hd. injection Hd as <-.
  set (wb := mkWorld _ _) in Hc.
  assert (Hgb : grid (heap wb) (board (self w))) by exact Hgrid.
  destruct (board_set_grid (board (self w)) (row, col)
              (Some (length (objs (heap w)))) wb Hgb Hin)
    as (wc' & Hrunc & Hgc & Hsc & Hoc & _ & Hfc).
  pose proof (eq_trans (eq_sym Hc) Hrunc) as Heq. injection Heq as ->. clear Hc.
  set (wd := mkWorld _ _) in Hrun.
  pose proof (grows_run _ _ _ _ grows_updates Hrun) as [_ Hlists].
  pose proof (keeps_attr_run board _ _ _ _ (updates_keep board
    (fun _ _ _ => eq_refl) (fun _ _ => eq_refl) (fun _ _ => eq_refl)) Hrun) as Hboard.
  clear Hrun. cbn [wd self] in Hboard. rewrite Hsc in Hboard.
  change (board (self w') = board (self w)) in Hboard.
  assert (Hderef : forall q x, deref (heap w) q = Ok x -> deref (heap w') q = Ok x).
  { intros q x Hq. apply deref_lookup. rewrite Hobjs.
    apply lookup_app_l_Some. by apply deref_lookup. }
  assert (Hother : forall s, in_bounds s -> s <> (row, col) ->
                             board_get (heap w') (board (self w)) (fst s) (snd s)
                             = board_get (heap w) (board (self w)) (fst s) (snd s)).
  { intros s Hs Hne.
    destruct (board_get_grid _ _ _ Hgrid Hs) as (? & ? & cell & _ & _ & _ & _ & Hget).
    rewrite Hget. apply (board_get_lists_grow (heap wd)); [exact Hlists|].
    cbn [wd heap]. rewrite (Hfc s Hs Hne). exact Hget. }
  rewrite Hboard. split; [done|]. split.
  { apply (grid_grows wd); [exact Hlists|exact Hgc]. }
  split; [|by split].
  intros s q Hs Hq. rewrite Hboard in Hq.
  destruct (decide (s = (row, col))) as [->|Hne].
  - rewrite Hboard in Hcell. cbn [fst snd] in Hq, Hcell. rewrite Hcell in Hq.
    injection Hq as <-. exists (new_piece piece_class (color pawn) (row, col)).
    split; [|done]. apply deref_lookup. rewrite Hobjs.
    by rewrite lookup_app_r, Nat.sub_diag.
  - rewrite (Hother s Hs Hne) in Hq. destruct (Hsync s q Hs Hq) as (x & Hx & Hxpos).
    exists x. split; [by apply Hderef|done].
Qed.

Lemma promote_pawn_keeps_pieces_synced_witness :
  let w := promotion_position in
  let w' := fst (run (promote_pawn Queen) w) in
  board (self w') = board (self w) /\
  grid (heap w') (board (self w')) /\
  synced w' /\
  (forall s, in_bounds s -> s <> (0, 0) ->
             board_get (heap w') (board (self w')) (fst s) (snd s)
             = board_get (heap w) (board (self w)) (fst s) (snd s)) /\
  (forall q x, deref (heap w) q = Ok x -> deref (heap w') q = Ok x).
Proof.
  intros w w'.
  apply (promote_pawn_keeps_pieces_synced w w' Queen 1%nat
           (mkPiece Pawn white (0, 0) true false)).
  - apply gridb_true. vm_compute. reflexivity.
  - apply syncedb_true. vm_compute. reflexivity.
  - vm_compute. reflexivity.
  - vm_compute. reflexivity.
  - unfold in_bounds. cbn. lia.
  - vm_compute. reflexivity.
Defined.

(** ** The action list of [ai.py] *)

Lemma collect_all_Ok {A B} (f : A -> Res (list B)) (l : list A) (ys : list B) (a : A) :
  collect f l = Ok ys -> In a l -> exists xs, f a = Ok xs.
Proof.
  revert ys. induction l as [|a' l IH]; cbn [collect]; intros ys H Ha; [destruct Ha|].
  apply Res_bind_Ok in H as (xs & Hxs & H).
  apply Res_bind_Ok in H as (zs & Hzs & _).
  destruct Ha as [->|Ha]; eauto.
Qed.

Lemma get_state_representation_In (h : Heap) (g : ChessGame) (state : list ref)
    (q : ref) :
  get_state_representation h g = Ok state ->
  In q state <->
  exists s, in_bounds s /\ board_get h (board g) (fst s) (snd s) = Ok (Some q).
Proof.
  unfold get_state_representation. intros H. split.
  - intros Hq. destruct (collect_In _ _ _ _ H Hq) as (s & xs & Hs & Hxs & Hin).
    apply Res_bind_Ok in Hxs as (cell & Hcell & Hxs). injection Hxs as <-.
    exists s. split; [by apply In_all_squares|].
    destruct cell as [q'|]; [|destruct Hin]. destruct Hin as [->|[]]. done.
  - intros (s & Hs & Hcell). apply In_all_squares in Hs.
    eapply collect_In_conv; [exact H|exact Hs| |].
    + cbv beta. rewrite Hcell. reflexivity.
    + by left.
Qed.

(** X17. [ChessAI.get_possible_actions] returns exactly the pairs of the
    position of a piece on the board and one of its [get_valid_moves]
    destinations, for the pieces of both colours, and without the filter of
    [get_legal_moves] for moves that leave the own king attacked. *)
Theorem possible_actions_are_all_valid_moves (h : Heap) (g : ChessGame)
    (actions : list (Square * Square)) (from to : Square) :
  get_possible_actions h g = Ok actions ->
  In (from, to) actions <->
  exists s q p moves,
    in_bounds s /\
    board_get h (board g) (fst s) (snd s) = Ok (Some q) /\
    deref h q = Ok p /\ position p = from /\
    get_valid_moves h (board g) p = Ok moves /\
    In to moves.
Proof.
  unfold get_possible_actions. intros H.
  apply Res_bind_Ok in H as (state & Hstate & H). split.
  - intros Hin. destruct (collect_In _ _ _ _ H Hin) as (q & xs & Hq & Hxs & Hx).
    apply Res_bind_Ok in Hxs as (p & Hp & Hxs).
    apply Res_bind_Ok in Hxs as (moves & Hmoves & Hxs). injection Hxs as <-.
    apply in_map_iff in Hx as (move & [= <- <-] & Hmove).
    apply (get_state_representation_In _ _ _ _ Hstate) in Hq as (s & Hs & Hcell).
    by exists s, q, p, moves.
  - intros (s & q & p & moves & Hs & Hcell & Hp & <- & Hmoves & Hto).
    assert (Hq : In q state).
    { apply (get_state_representation_In _ _ _ _ Hstate). by exists s. }
    eapply collect_In_conv; [exact H|exact Hq| |].
    + cbv beta. rewrite Hp. cbn [mbind Res_bind]. rewrite Hmoves. reflexivity.
    + apply in_map_iff. by exists to.
Qed.

Lemma possible_actions_are_all_valid_moves_witness :
  let w := new_game white in
  exists actions,
    get_possible_actions (heap w) (self w) = Ok actions /\
    (In ((1, 4), (3, 4)) actions <->
     exists s q p moves,
       in_bounds s /\
       board_get (heap w) (board (self w)) (fst s) (snd s) = Ok (Some q) /\
       deref (heap w) q = Ok p /\ position p = (1, 4) /\
       get_valid_moves (heap w) (board (self w)) p = Ok moves /\
       In (3, 4) moves).
Proof.
  intros w. eexists. split; [vm_compute; reflexivity|].
  apply (possible_actions_are_all_valid_moves (heap w) (self w)).
  vm_compute. reflexivity.
Defined.

(** ** Where a piece may go *)

Lemma valid_move_elsewhere_and_free (h : Heap) (board : list ref)
    (self : Piece) (moves : list Square) (dest : Square) :
  get_valid_moves h board self = Ok moves ->
  In dest moves ->
  dest <> position self /\
  (empty_at h board dest \/ enemy_at h board (color self) dest).
Proof.
  intros H Hin. unfold get_valid_moves in H.
  assert (Hslide : forall dirs,
             Forall (fun d : Z * Z => d <> (0, 0)) dirs ->
             slides_to h board (color self) (position self) dirs dest ->
             dest <> position self /\
             (empty_at h board dest \/ enemy_at h board (color self) dest)).
  { intros dirs Hdirs (d & i & Hd & Hi & -> & _ & _ & Hfree). split; [|done].
    rewrite Forall_forall in Hdirs. specialize (Hdirs d (proj2 (list_elem_of_In _ _) Hd)).
    unfold step_to. destruct (position self) as [r c], d as [dr dc]. cbn [fst snd].
    intros [= H1 H2]. apply Hdirs. f_equal; nia. }
  assert (Hjump : forall offsets,
             Forall (fun d : Z * Z => d <> (0, 0)) offsets ->
             jumps_to h board (color self) (position self) offsets dest ->
             dest <> position self /\
             (empty_at h board dest \/ enemy_at h board (color self) dest)).
  { intros offsets Hoff (d & Hd & -> & _ & Hfree). split; [|done].
    rewrite Forall_forall in Hoff. specialize (Hoff d (proj2 (list_elem_of_In _ _) Hd)).
    destruct (position self) as [r c], d as [dr dc]. cbn [fst snd].
    intros [= H1 H2]. apply Hoff. f_equal; lia. }
  assert (Hrook : Forall (fun d : Z * Z => d <> (0, 0)) rook_directions)
    by (repeat constructor; discriminate).
  assert (Hbishop : Forall (fun d : Z * Z => d <> (0, 0)) bishop_directions)
    by (repeat constructor; discriminate).
  destruct (cls self) eqn:Hcls.
  - assert (Hp : pawn_moves_to h board self dest)
      by (by apply (Pawn_get_valid_moves_spec _ _ _ _ dest H)).
    destruct Hp as (_ & [[-> He]|[(-> & _ & _ & He)|(dcol & Hdcol & -> & _ & Hd)]]).
    + split; [|by left]. destruct (position self) as [r c], (color self);
        cbn; intros [= ?]; lia.
    + split; [|by left]. destruct (position self) as [r c], (color self);
        cbn; intros [= ?]; lia.
    + split; [|destruct Hd as [Hd|[Hd _]]; auto].
      destruct (position self) as [r c]. cbn [fst snd]. intros [= ? ?].
      destruct Hdcol; lia.
  - apply (Hslide rook_directions Hrook). by apply (collect_slide_iff _ _ _ _ _ _ dest H).
  - apply (Hjump knight_moves); [repeat constructor; discriminate|].
    by apply (collect_jump_iff _ _ _ _ _ dest H).
  - apply (Hslide bishop_directions Hbishop).
    by apply (collect_slide_iff _ _ _ _ _ _ dest H).
  - apply Res_bind_Ok in H as (straight & Hs & H).
    apply Res_bind_Ok in H as (diagonal & Hd & H). injection H as <-.
    apply in_app_or in Hin as [Hin|Hin].
    + apply (Hslide rook_directions Hrook).
      by apply (collect_slide_iff _ _ _ _ _ _ dest Hs).
    + apply (Hslide bishop_directions Hbishop).
      by apply (collect_slide_iff _ _ _ _ _ _ dest Hd).
  - apply (Hjump king_moves); [repeat constructor; discriminate|].
    by apply (collect_jump_iff _ _ _ _ _ dest H).
Qed.

(** X18. No piece of any class has its own square among its destinations, and
    every destination is empty or holds a piece of the other colour: a move
    never lands on a piece of its own side. *)
Theorem destination_is_elsewhere_and_free (h : Heap) (board : list ref)
    (self : Piece) (moves : list Square) (dest : Square) :
  get_valid_moves h board self = Ok moves ->
  In dest moves ->
  dest <> position self /\
  (empty_at h board dest \/ enemy_at h board (color self) dest).
Proof. apply valid_move_elsewhere_and_free. Qed.

Lemma destination_is_elsewhere_and_free_witness :
  let w := new_game white in
  (4, 4) <> (6, 4) /\
  (empty_at (heap w) (board (self w)) (4, 4) \/
   enemy_at (heap w) (board (self w)) white (4, 4)).
Proof.
  intros w.
  apply (destination_is_elsewhere_and_free (heap w) (board (self w))
           (mkPiece Pawn white (6, 4) false false) [(5, 4); (4, 4)] (4, 4)).
  - vm_compute. reflexivity.
  - cbn. tauto.
Defined.

(** * Calls that return *)

(** ** Boards of a well-formed store *)

Lemma board_ok_of (h : Heap) (b : list ref) (m : nat) :
  rows_ok h -> board_in m b -> (m <= length (lsts h))%nat -> board_ok h b = true.
Proof.
  intros Hrows [Hlen Hb] Hm. unfold board_ok.
  apply andb_true_iff. split; [by apply Nat.eqb_eq|].
  apply forallb_forall. intros rr Hrr.
  rewrite Forall_forall in Hb. specialize (Hb rr (proj2 (list_elem_of_In _ _) Hrr)).
  destruct (lsts h !! rr) as [row|] eqn:Hrow.
  - unfold rows_ok in Hrows. rewrite Forall_forall in Hrows.
    apply Hrows. by eapply list_elem_of_lookup_2.
  - apply lookup_ge_None in Hrow. lia.
Qed.

Lemma deref_piece_ok (h : Heap) (q : ref) (qp : Piece) :
  Forall piece_ok (objs h) -> deref h q = Ok qp -> piece_ok qp.
Proof.
  intros Hos Hq. unfold deref in Hq.
  destruct (objs h !! q) as [x|] eqn:Hx; [|discriminate]. injection Hq as ->.
  rewrite Forall_forall in Hos. apply Hos. by eapply list_elem_of_lookup_2.
Qed.

Section ReturningGenerators.
Variable h : Heap.
Variable board : list ref.
Hypothesis Hboard : board_ok h board = true.

Lemma get_valid_moves_returns (self : Piece) :
  piece_ok self ->
  exists moves, get_valid_moves h board self = Ok moves /\ Forall in_bounds moves.
Proof.
  intros [Hpos Htwo]. unfold get_valid_moves.
  destruct (cls self).
  - unfold Pawn_get_valid_moves.
    destruct (Pawn_forward_ok h board Hboard self Hpos (Htwo eq_refl))
      as (fwd & -> & Hfwd). res_simpl.
    destruct (collect_ok (Pawn_diagonal h board self) [-1; 1] in_bounds)
      as (diag & -> & Hdiag); [intros; by apply Pawn_diagonal_ok|].
    res_simpl. eexists; split; [reflexivity|]. by apply Forall_app.
  - apply collect_ok. intros. by apply slide_ok.
  - apply collect_ok. intros. by apply jump_ok.
  - apply collect_ok. intros. by apply slide_ok.
  - destruct (collect_ok
                (fun d : Z * Z => slide h board (color self) (position self) d.1 d.2 range_1_8)
                [(0, 1); (1, 0); (0, -1); (-1, 0)] in_bounds)
      as (straight & Hs & Hstraight); [intros; by apply slide_ok|].
    destruct (collect_ok
                (fun d : Z * Z => slide h board (color self) (position self) d.1 d.2 range_1_8)
                [(1, 1); (1, -1); (-1, 1); (-1, -1)] in_bounds)
      as (diagonal & Hd & Hdiagonal); [intros; by apply slide_ok|].
    unfold _get_straight_moves, _get_diagonal_moves. rewrite Hs. res_simpl.
    rewrite Hd. res_simpl.
    eexists; split; [reflexivity|]. by apply Forall_app.
  - apply collect_ok. intros. by apply jump_ok.
Qed.

Lemma find_king_from_returns (clr : Color) (sqs : list Square) :
  Forall in_bounds sqs ->
  exists found, find_king_from h clr board sqs = Ok found.
Proof.
  induction sqs as [|[row col] rest IH]; cbn [find_king_from]; intros Hsqs.
  - by eexists.
  - apply Forall_cons in Hsqs as [[Hr Hc] Hrest]. cbn [fst snd] in Hr, Hc.
    destruct (board_get_ok h board Hboard row col Hr Hc) as (cell & -> & Hcell).
    res_simpl. destruct cell as [q|]; [|by apply IH].
    destruct (Hcell q eq_refl) as (qp & ->). res_simpl.
    destruct (_ && _); [by eexists|by apply IH].
Qed.

Lemma is_square_under_attack_from_returns (target : option Square) (clr : Color)
    (sqs : list Square) :
  Forall piece_ok (objs h) ->
  Forall in_bounds sqs ->
  exists b, is_square_under_attack_from h target clr board sqs = Ok b.
Proof.
  intros Hos.
  induction sqs as [|[row col] rest IH]; cbn [is_square_under_attack_from]; intros Hsqs.
  - by eexists.
  - apply Forall_cons in Hsqs as [[Hr Hc] Hrest]. cbn [fst snd] in Hr, Hc.
    destruct (board_get_ok h board Hboard row col Hr Hc) as (cell & -> & Hcell).
    res_simpl. destruct cell as [q|]; [|by apply IH].
    destruct (Hcell q eq_refl) as (qp & Hq). rewrite Hq. res_simpl.
    destruct (negb _); [|by apply IH].
    destruct (get_valid_moves_returns qp (deref_piece_ok _ _ _ Hos Hq))
      as (moves & -> & _). res_simpl.
    destruct (square_in _ _); [by eexists|by apply IH].
Qed.

End ReturningGenerators.

Lemma all_squares_in_bounds : Forall in_bounds all_squares.
Proof. apply Forall_forall. intros s Hs. by apply In_all_squares, list_elem_of_In. Qed.

(** ** Rules for calls that return *)

Lemma returns_bind {A B} (P : World -> Prop) (m : M A) (Q : A -> World -> Prop)
    (f : A -> M B) (R : B -> World -> Prop) :
  returns P m Q -> (forall a, returns (Q a) (f a) R) -> returns P (m ≫= f) R.
Proof. apply hoare_bind. Qed.

Lemma returns_ret {A} (P : World -> Prop) (a : A) (Q : A -> World -> Prop) :
  (forall w, P w -> Q a w) -> returns P (mret a) Q.
Proof. apply hoare_ret. Qed.

Lemma returns_post {A} (P : World -> Prop) (m : M A) (Q Q' : A -> World -> Prop) :
  returns P m Q' -> (forall a w, Q' a w -> Q a w) -> returns P m Q.
Proof. apply hoare_post. Qed.

Lemma returns_pre {A} (P P' : World -> Prop) (m : M A) (Q : A -> World -> Prop) :
  (forall w, P w -> P' w) -> returns P' m Q -> returns P m Q.
Proof. intros HP H w Hw. apply H, HP, Hw. Qed.

(** A fact that does not depend on the world moves to the context. *)
Lemma returns_assume {A} (F : Prop) (P : World -> Prop) (m : M A)
    (Q : A -> World -> Prop) :
  (F -> returns P m Q) -> returns (fun w => P w /\ F) m Q.
Proof. apply hoare_assume. Qed.

Lemma returns_exists {A X} (P : X -> World -> Prop) (m : M A)
    (Q : A -> World -> Prop) :
  (forall x, returns (P x) m Q) -> returns (fun w => exists x, P x w) m Q.
Proof. intros H w [x Hx]. exact (H x w Hx). Qed.

(** The number of list objects at the call, named. *)
Lemma returns_at_length {A} (P : World -> Prop) (m : M A) (Q : A -> World -> Prop) :
  (forall k, returns (fun w => P w /\ length (lsts (heap w)) = k) m Q) ->
  returns P m Q.
Proof. intros H w Hw. apply (H (length (lsts (heap w))) w). auto. Qed.

Lemma returns_lift {A} (P : World -> Prop) (r : Res A) (F : A -> Prop) :
  (exists a, r = Ok a /\ F a) -> returns P (lift r) (fun a w => P w /\ F a).
Proof. intros (a & -> & Ha) w Hw. cbn. auto. Qed.

Lemma returns_get_self (P : World -> Prop) (G : ChessGame -> Prop) :
  (forall w, P w -> G (self w)) ->
  returns P get_self (fun g w => P w /\ G g).
Proof. intros HG w Hw. cbn. auto. Qed.

Lemma returns_get_heap (P : World -> Prop) (H : Heap -> Prop) :
  (forall w, P w -> H (heap w)) ->
  returns P get_heap (fun h w => P w /\ H h).
Proof. intros HH w Hw. cbn. auto. Qed.

Lemma returns_load (P : World -> Prop) (p : ref) (F : Piece -> Prop) :
  (forall w, P w -> exists x, deref (heap w) p = Ok x /\ F x) ->
  returns P (load p) (fun x w => P w /\ F x).
Proof.
  intros H w Hw. unfold load. cbn. destruct (H w Hw) as (x & -> & Hx). auto.
Qed.

Lemma returns_board_read (P : World -> Prop) (b : list ref) (r c : Z)
    (F : option ref -> Prop) :
  (forall w, P w -> exists x, board_get (heap w) b r c = Ok x /\ F x) ->
  returns P (board_read b r c) (fun x w => P w /\ F x).
Proof.
  intros H w Hw. unfold board_read. cbn. destruct (H w Hw) as (x & -> & Hx). auto.
Qed.

Lemma returns_for_each {A} (I : World -> Prop) (l : list A) (body : A -> M unit) :
  (forall a, In a l -> returns I (body a) (fun _ => I)) ->
  returns I (for_each l body) (fun _ => I).
Proof.
  induction l as [|a l IH]; cbn [for_each]; intros Hbody.
  - by apply returns_ret.
  - eapply returns_bind; [apply Hbody; by left|]. intros ?.
    apply IH. intros a' Ha'. apply Hbody. by right.
Qed.

(** What a call leaves of the game object stays true of it. *)
Lemma returns_heap_only {A} (P : World -> Prop) (m : M A) (Q : A -> World -> Prop)
    (G : ChessGame -> Prop) :
  heap_only m -> returns P m Q ->
  returns (fun w => P w /\ G (self w)) m (fun a w => Q a w /\ G (self w)).
Proof.
  intros Hm H w [Hw HG]. specialize (H w Hw). specialize (Hm w).
  destruct (run m w) as [w' [a|e]]; [|done]. cbn in Hm. by rewrite Hm.
Qed.

Lemma returns_keeps_attr {A X} (f : ChessGame -> X) (v : X) (P : World -> Prop)
    (m : M A) (Q : A -> World -> Prop) :
  keeps_attr f m -> returns P m Q ->
  returns (fun w => P w /\ f (self w) = v) m (fun a w => Q a w /\ f (self w) = v).
Proof.
  intros Hm H w [Hw HG]. specialize (H w Hw). specialize (Hm w).
  destruct (run m w) as [w' [a|e]]; [|done]. cbn in Hm. by rewrite Hm.
Qed.

(** ** The store under the calls *)

Lemma ref_lookup {A} (l : list A) (p : ref) :
  (p < length l)%nat -> exists x, l !! p = Some x.
Proof. apply lookup_lt_is_Some_2. Qed.

Lemma row_ok_objs (h h' : Heap) (row : list (option ref)) :
  length (objs h') = length (objs h) -> row_ok h' row = row_ok h row.
Proof. intros Hlen. unfold row_ok. by rewrite Hlen. Qed.

Lemma rows_ok_objs (h h' : Heap) :
  length (objs h') = length (objs h) -> lsts h' = lsts h -> rows_ok h -> rows_ok h'.
Proof.
  unfold rows_ok. intros Ho -> Hr. eapply Forall_impl; [exact Hr|]. intros row.
  by rewrite (row_ok_objs h h').
Qed.

Lemma stable_le (os : list Piece) (b : list ref) (m m' : nat) (w : World) :
  (m <= m')%nat -> stable os b m' w -> stable os b m w.
Proof. intros Hm ((Ho & Hl & Hr) & Hb). repeat split; auto. lia. Qed.

Lemma stable_at_length (os : list Piece) (b : list ref) (m : nat) (w : World) :
  stable os b m w -> stable os b (length (lsts (heap w))) w.
Proof. intros ((Ho & Hl & Hr) & Hb). repeat split; auto. Qed.

Lemma board_in_le (m m' : nat) (b : list ref) :
  (m <= m')%nat -> board_in m b -> board_in m' b.
Proof.
  intros Hm [Hlen Hb]. split; [done|]. eapply Forall_impl; [exact Hb|].
  cbn. intros. lia.
Qed.

Lemma heap_in_board_ok (os : list Piece) (m : nat) (h : Heap) (b : list ref) :
  heap_in os m h -> board_in m b -> board_ok h b = true.
Proof. intros (Ho & Hl & Hr) Hb. by eapply board_ok_of. Qed.

Lemma row_ok_insert (h : Heap) (row : list (option ref)) (i : nat) (v : option ref) :
  row_ok h row = true ->
  (forall q, v = Some q -> (q < length (objs h))%nat) ->
  row_ok h (<[i:=v]> row) = true.
Proof.
  unfold row_ok. rewrite !andb_true_iff, length_insert. intros [Hlen Hcells] Hv.
  split; [done|]. rewrite forallb_forall in *. intros cell Hcell.
  apply list_elem_of_In, list_elem_of_lookup in Hcell as [j Hj].
  destruct (decide (i = j)) as [->|Hne].
  - pose proof (lookup_lt_Some _ _ _ Hj) as Hlt. rewrite length_insert in Hlt.
    rewrite list_lookup_insert_eq in Hj by done.
    injection Hj as <-. destruct v as [q|]; [|done]. apply Nat.ltb_lt. by apply Hv.
  - rewrite list_lookup_insert_ne in Hj by done.
    apply Hcells, list_elem_of_In. by eapply list_elem_of_lookup_2.
Qed.

Section Stable.
Variable os : list Piece.
Variable b : list ref.
Variable m : nat.

Lemma returns_stable_get_self :
  returns (stable os b m) get_self (fun g w => stable os b m w /\ board g = b).
Proof. apply returns_get_self. by intros w [_ Hb]. Qed.

Lemma returns_stable_get_heap :
  returns (stable os b m) get_heap (fun h w => stable os b m w /\ heap_in os m h).
Proof. apply returns_get_heap. by intros w [Hh _]. Qed.

Lemma returns_stable_modify_self (f : ChessGame -> ChessGame) :
  (forall g, board (f g) = board g) ->
  returns (stable os b m) (modify_self f) (fun _ => stable os b m).
Proof. intros Hf w [Hh Hb]. cbn. split; [done|]. cbn. by rewrite Hf. Qed.

Lemma returns_stable_load (p : ref) (x : Piece) :
  os !! p = Some x ->
  returns (stable os b m) (load p) (fun y w => stable os b m w /\ y = x).
Proof.
  intros Hp. apply returns_load. intros w ((Ho & _) & _).
  exists x. split; [|done]. unfold deref. by rewrite Ho, Hp.
Qed.

Lemma stable_board_get (b' : list ref) (r c : Z) (w : World) :
  stable os b m w -> board_in m b' -> 0 <= r < 8 -> 0 <= c < 8 ->
  exists cell, board_get (heap w) b' r c = Ok cell /\
               forall q, cell = Some q -> (q < length os)%nat.
Proof.
  intros [Hh Hb] Hb' Hr Hc.
  destruct (board_get_ok (heap w) b' (heap_in_board_ok _ _ _ _ Hh Hb') r c Hr Hc)
    as (cell & Hcell & Hq).
  exists cell. split; [done|]. intros q Hc'. destruct (Hq q Hc') as (qp & Hqp).
  unfold deref in Hqp. destruct Hh as (Ho & _). rewrite Ho in Hqp.
  destruct (os !! q) eqn:Hos; [|discriminate]. by eapply lookup_lt_Some.
Qed.

Lemma returns_stable_board_read (b' : list ref) (r c : Z) :
  board_in m b' -> 0 <= r < 8 -> 0 <= c < 8 ->
  returns (stable os b m) (board_read b' r c)
    (fun cell w => stable os b m w /\ forall q, cell = Some q -> (q < length os)%nat).
Proof.
  intros Hb' Hr Hc. apply returns_board_read. intros w Hw.
  by apply stable_board_get.
Qed.

Lemma returns_stable_board_set (b' : list ref) (r c : Z) (v : option ref) :
  board_in m b' -> 0 <= r < 8 -> 0 <= c < 8 ->
  (forall q, v = Some q -> (q < length os)%nat) ->
  returns (stable os b m) (board_set b' r c v) (fun _ => stable os b m).
Proof.
  intros [Hlen Hb'] Hr Hc Hv w ((Ho & Hl & Hrows) & Hb).
  unfold board_set. rewrite run_bind. cbn [lift run].
  destruct (getitem_in_range b' r Hlen Hr) as (rr & Hrr & ->).
  rewrite run_bind. cbn [get_heap run]. rewrite run_bind. cbn [lift run].
  assert (Hlt : (rr < m)%nat).
  { rewrite Forall_forall in Hb'. apply Hb'. by eapply list_elem_of_lookup_2. }
  destruct (lsts (heap w) !! rr) as [row|] eqn:Hrow;
    [|apply lookup_ge_None in Hrow; lia].
  unfold deref_list. rewrite Hrow.
  assert (Hok : row_ok (heap w) row = true).
  { unfold rows_ok in Hrows. rewrite Forall_forall in Hrows.
    apply Hrows. by eapply list_elem_of_lookup_2. }
  assert (Hrl : length row = 8%nat).
  { unfold row_ok in Hok. apply andb_true_iff in Hok as [Hrl _].
    by apply Nat.eqb_eq. }
  rewrite run_bind. cbn [lift run]. rewrite (setitem_in_range row c v Hrl Hc).
  cbn [put_heap run]. split; [|done]. cbn [heap objs lsts]. split; [done|].
  split; [cbn [lsts]; by rewrite length_insert|].
  unfold rows_ok. cbn [lsts]. apply Forall_insert.
  - eapply Forall_impl; [exact Hrows|]. intros row0 H0. cbn beta in *.
    by rewrite (row_ok_objs (heap w)).
  - rewrite (row_ok_objs (heap w)) by done. apply row_ok_insert; [done|].
    intros q Hq. rewrite Ho. by apply Hv.
Qed.

Lemma returns_stable_update_piece (p : ref) (f : Piece -> Piece) (x : Piece) :
  os !! p = Some x ->
  returns (stable os b m) (update_piece p f) (fun _ => stable (<[p:=f x]> os) b m).
Proof.
  intros Hp w ((Ho & Hl & Hrows) & Hb).
  unfold update_piece. rewrite run_bind. cbn [get_heap run]. rewrite run_bind.
  cbn [lift run]. unfold deref. rewrite Ho, Hp. cbn [put_heap run].
  split; [|done]. cbn [heap objs lsts]. split; [done|]. split; [done|].
  eapply rows_ok_objs; [| |exact Hrows]; cbn [objs lsts]; [|done].
  by rewrite length_insert, Ho.
Qed.

(** [row[:]] of one row of the board. *)
Lemma returns_copy_row (rr : ref) (k : nat) :
  (rr < m)%nat ->
  returns (fun w => stable os b m w /\ length (lsts (heap w)) = k)
    (h ← get_heap; row ← lift (deref_list h rr); alloc_list row)
    (fun r w => (stable os b m w /\ length (lsts (heap w)) = S k) /\ r = k).
Proof.
  intros Hlt w (((Ho & Hl & Hrows) & Hb) & Hk).
  rewrite run_bind. cbn [get_heap run]. rewrite run_bind. cbn [lift run].
  destruct (lsts (heap w) !! rr) as [row|] eqn:Hrow;
    [|apply lookup_ge_None in Hrow; lia].
  unfold deref_list. rewrite Hrow. unfold alloc_list.
  rewrite run_bind. cbn [get_heap run]. rewrite run_bind. cbn [put_heap run].
  cbn [mret M_ret run heap self objs lsts].
  assert (Hok : row_ok (heap w) row = true).
  { unfold rows_ok in Hrows. rewrite Forall_forall in Hrows.
    apply Hrows. by eapply list_elem_of_lookup_2. }
  repeat split; cbn [heap self objs lsts]; auto.
  - rewrite length_app. lia.
  - unfold rows_ok. cbn [lsts]. apply Forall_app. split.
    + eapply Forall_impl; [exact Hrows|]. intros row0 H0. cbn beta in *.
      by rewrite (row_ok_objs (heap w)).
    + apply Forall_cons. split; [|done]. by rewrite (row_ok_objs (heap w)).
  - rewrite length_app. cbn. lia.
Qed.

Lemma returns_copy_rows (rows : list ref) (k : nat) :
  Forall (fun rr => (rr < m)%nat) rows ->
  returns (fun w => stable os b m w /\ length (lsts (heap w)) = k)
    (map_M (fun rr => h ← get_heap; row ← lift (deref_list h rr); alloc_list row) rows)
    (fun refs w => (stable os b m w /\ length (lsts (heap w)) = (k + length rows)%nat) /\
                   refs = seq k (length rows)).
Proof.
  revert k. induction rows as [|rr rest IH]; intros k Hrows; cbn [map_M].
  - apply returns_ret. intros w [Hw Hk]. rewrite Nat.add_0_r. done.
  - apply Forall_cons in Hrows as [Hrr Hrest].
    eapply returns_bind; [by apply returns_copy_row|]. intros r.
    apply returns_assume. intros ->.
    eapply returns_bind; [by apply IH|]. intros refs.
    apply returns_assume. intros ->.
    apply returns_ret. intros w [Hw Hlen]. cbn [length seq].
    split; [|done]. split; [done|]. lia.
Qed.

End Stable.

(** ** The calls that read the board *)

Section ReturningCalls.
Variable os : list Piece.
Variable b : list ref.
Variable m : nat.
Hypothesis Hos : Forall piece_ok os.
Hypothesis Hb : board_in m b.

Lemma os_piece_ok (p : ref) (x : Piece) : os !! p = Some x -> piece_ok x.
Proof.
  intros Hp. rewrite Forall_forall in Hos. apply Hos.
  by eapply list_elem_of_lookup_2.
Qed.

Lemma returns_stable_at_length {A} (f : M A) (Q : A -> World -> Prop) :
  (forall k, (m <= k)%nat ->
             returns (fun w => stable os b m w /\ length (lsts (heap w)) = k) f Q) ->
  returns (stable os b m) f Q.
Proof.
  intros H w Hw. apply (H (length (lsts (heap w)))); [|done].
  by destruct Hw as ((_ & Hl & _) & _).
Qed.

Lemma heap_in_find_king (m' : nat) (h : Heap) (clr : Color) (board : list ref) :
  heap_in os m' h -> board_in m' board ->
  exists found, find_king h clr board = Ok found /\ True.
Proof.
  intros Hh Hboard.
  destruct (find_king_from_returns h board (heap_in_board_ok _ _ _ _ Hh Hboard)
              clr all_squares all_squares_in_bounds) as (found & Hfound).
  by exists found.
Qed.

Lemma heap_in_is_square_under_attack (m' : nat) (h : Heap) (target : option Square)
    (clr : Color) (board : list ref) :
  heap_in os m' h -> board_in m' board ->
  exists a, is_square_under_attack h target clr board = Ok a /\ True.
Proof.
  intros Hh Hboard.
  destruct (is_square_under_attack_from_returns h board
              (heap_in_board_ok _ _ _ _ Hh Hboard) target clr all_squares)
    as (a & Ha); [|apply all_squares_in_bounds|by exists a].
  destruct Hh as (-> & _). exact Hos.
Qed.

Lemma returns_move_causes_check (piece : ref) (move : Square) :
  (piece < length os)%nat -> in_bounds move ->
  returns (stable os b m) (move_causes_check piece move) (fun _ => stable os b m).
Proof.
  intros Hpiece Hmove.
  destruct (ref_lookup os piece Hpiece) as [p Hp].
  pose proof (os_piece_ok _ _ Hp) as [Hpos _].
  unfold move_causes_check.
  eapply returns_bind; [apply returns_stable_get_self|]. intros g.
  apply returns_assume. intros ->.
  apply returns_stable_at_length. intros k Hk.
  eapply returns_bind; [apply returns_copy_rows, Hb|]. intros temp.
  apply returns_assume. intros ->.
  assert (Hlen : length b = 8%nat) by apply Hb.
  assert (Htemp : board_in (k + 8) (seq k (length b))).
  { rewrite Hlen. split; [by rewrite length_seq|].
    apply Forall_forall. intros x Hx%elem_of_seq. lia. }
  apply returns_pre with (P' := stable os b (k + 8)).
  { intros w [Hw Hl]. rewrite Hlen in Hl. rewrite <- Hl. by apply stable_at_length in Hw. }
  apply returns_post with (Q' := fun _ => stable os b (k + 8)).
  2:{ intros _ w Hw. eapply stable_le; [|exact Hw]. lia. }
  eapply returns_bind; [apply (returns_stable_load _ _ _ _ _ Hp)|]. intros p'.
  apply returns_assume. intros ->.
  destruct (position p) as [start_row start_col], move as [end_row end_col].
  cbv beta iota zeta.
  eapply returns_bind.
  { apply returns_stable_board_set; [exact Htemp|apply Hmove|apply Hmove|].
    by intros q [= <-]. }
  intros ?.
  eapply returns_bind.
  { apply returns_stable_board_set; [exact Htemp|apply Hpos|apply Hpos|done]. }
  intros ?.
  eapply returns_bind; [apply returns_stable_get_heap|]. intros h.
  apply returns_assume. intros Hh.
  eapply returns_bind.
  { apply returns_lift. by eapply heap_in_find_king. }
  intros king. apply returns_assume. intros _.
  eapply returns_post.
  { apply returns_lift. by eapply heap_in_is_square_under_attack. }
  by intros res w1 [Hw1 _].
Qed.

Lemma returns_legal_among (piece : ref) (moves : list Square) :
  (piece < length os)%nat -> Forall in_bounds moves ->
  returns (stable os b m) (legal_among piece moves)
    (fun legal w => stable os b m w /\ Forall in_bounds legal).
Proof.
  intros Hpiece. induction moves as [|move rest IH]; intros Hmoves; cbn [legal_among].
  - by apply returns_ret.
  - apply Forall_cons in Hmoves as [Hmove Hrest].
    eapply returns_bind; [by apply returns_move_causes_check|]. intros bad.
    eapply returns_bind; [by apply IH|]. intros more.
    apply returns_assume. intros Hmore.
    apply returns_ret. intros w Hw. split; [done|].
    destruct bad; [done|]. by apply Forall_cons.
Qed.

Lemma returns_get_legal_moves (piece : ref) :
  (piece < length os)%nat ->
  returns (stable os b m) (get_legal_moves piece)
    (fun legal w => stable os b m w /\ Forall in_bounds legal).
Proof.
  intros Hpiece.
  destruct (ref_lookup os piece Hpiece) as [p Hp].
  unfold get_legal_moves.
  eapply returns_bind; [apply returns_stable_get_self|]. intros g.
  apply returns_assume. intros ->.
  eapply returns_bind; [apply returns_stable_get_heap|]. intros h.
  apply returns_assume. intros Hh.
  eapply returns_bind.
  { apply returns_lift with (F := fun x => x = p). exists p. split; [|done].
    destruct Hh as (Ho & _). unfold deref. by rewrite Ho, Hp. }
  intros p'. apply returns_assume. intros ->.
  eapply returns_bind.
  { apply returns_lift with (F := Forall in_bounds).
    apply get_valid_moves_returns; [by eapply heap_in_board_ok|by eapply os_piece_ok]. }
  intros potential. apply returns_assume. intros Hpot.
  by apply returns_legal_among.
Qed.

Lemma returns_is_in_check (clr : Color) :
  returns (stable os b m) (is_in_check clr) (fun _ => stable os b m).
Proof.
  unfold is_in_check.
  eapply returns_bind; [apply returns_stable_get_self|]. intros g.
  apply returns_assume. intros ->.
  eapply returns_bind; [apply returns_stable_get_heap|]. intros h.
  apply returns_assume. intros Hh.
  eapply returns_bind.
  { apply returns_lift. by eapply heap_in_find_king. }
  intros king. apply returns_assume. intros _.
  eapply returns_post.
  { apply returns_lift. by eapply heap_in_is_square_under_attack. }
  by intros res w1 [Hw1 _].
Qed.

Lemma returns_update_check_status :
  returns (stable os b m) update_check_status (fun _ => stable os b m).
Proof.
  unfold update_check_status.
  eapply returns_bind; [apply returns_is_in_check|]. intros w.
  eapply returns_bind; [by apply returns_stable_modify_self|]. intros ?.
  eapply returns_bind; [apply returns_is_in_check|]. intros b'.
  by apply returns_stable_modify_self.
Qed.

Lemma returns_has_no_legal_moves_from (clr : Color) (sqs : list Square) :
  Forall in_bounds sqs ->
  returns (stable os b m) (has_no_legal_moves_from clr sqs) (fun _ => stable os b m).
Proof.
  induction sqs as [|[row col] rest IH]; intros Hsqs; cbn [has_no_legal_moves_from].
  - by apply returns_ret.
  - apply Forall_cons in Hsqs as [[Hr Hc] Hrest]. cbn [fst snd] in Hr, Hc.
    eapply returns_bind; [apply returns_stable_get_self|]. intros g.
    apply returns_assume. intros ->.
    eapply returns_bind; [by apply returns_stable_board_read|]. intros cell.
    apply returns_assume. intros Hcell.
    destruct cell as [q|]; [|by apply IH].
    specialize (Hcell q eq_refl).
    destruct (ref_lookup os q Hcell) as [qp Hqp].
    eapply returns_bind; [apply (returns_stable_load _ _ _ _ _ Hqp)|]. intros qp'.
    apply returns_assume. intros ->.
    destruct (color_eqb (color qp) clr); [|by apply IH].
    eapply returns_bind; [by apply returns_get_legal_moves|]. intros moves.
    apply returns_assume. intros _.
    destruct moves; [by apply IH|]. by apply returns_ret.
Qed.

Lemma returns_has_no_legal_moves (clr : Color) :
  returns (stable os b m) (has_no_legal_moves clr) (fun _ => stable os b m).
Proof. apply returns_has_no_legal_moves_from, all_squares_in_bounds. Qed.

Lemma returns_is_checkmate (clr : Color) :
  returns (stable os b m) (is_checkmate clr) (fun _ => stable os b m).
Proof.
  unfold is_checkmate.
  eapply returns_bind; [apply returns_stable_get_self|]. intros g.
  apply returns_assume. intros _.
  destruct (negb _); [by apply returns_ret|apply returns_has_no_legal_moves].
Qed.

Lemma returns_is_stalemate (clr : Color) :
  returns (stable os b m) (is_stalemate clr) (fun _ => stable os b m).
Proof.
  unfold is_stalemate.
  eapply returns_bind; [apply returns_stable_get_self|]. intros g.
  apply returns_assume. intros _.
  destruct (in_check_of _ _); [by apply returns_ret|apply returns_has_no_legal_moves].
Qed.

Lemma returns_update_game_over :
  returns (stable os b m) update_game_over (fun _ => stable os b m).
Proof.
  unfold update_game_over.
  eapply returns_bind; [apply returns_stable_get_self|]. intros g.
  apply returns_assume. intros _.
  eapply returns_bind; [apply returns_is_checkmate|]. intros mate.
  destruct mate; [by apply returns_stable_modify_self|].
  eapply returns_bind; [apply returns_is_stalemate|]. intros stale.
  destruct stale; [by apply returns_stable_modify_self|].
  eapply returns_bind; [apply returns_stable_get_self|]. intros g'.
  apply returns_assume. intros _.
  destruct (is_draw_by_repetition g'); [by apply returns_stable_modify_self|].
  by apply returns_ret.
Qed.

Lemma returns_update_position_history :
  returns (stable os b m) update_position_history (fun _ => stable os b m).
Proof.
  unfold update_position_history, get_current_position.
  eapply returns_bind.
  { eapply returns_bind; [apply returns_stable_get_self|]. intros g.
    apply returns_assume. intros ->.
    eapply returns_bind; [apply returns_stable_get_heap|]. intros h.
    apply returns_assume. intros Hh.
    apply returns_lift with (F := fun _ => True).
    destruct (collect_ok (fun rr => row ← deref_list h rr; Ok [row]) b
                (fun _ => True)) as (rows & Hrows & _); [|by exists rows].
    intros rr Hrr. destruct Hb as [_ Hlt]. rewrite Forall_forall in Hlt.
    specialize (Hlt rr (proj2 (list_elem_of_In _ _) Hrr)).
    destruct Hh as (_ & Hl & _). unfold deref_list.
    destruct (lsts h !! rr) as [row|] eqn:Hrow;
      [|apply lookup_ge_None in Hrow; lia].
    res_simpl. exists [row]. split; [done|]. by repeat constructor. }
  intros pos. apply returns_assume. intros _.
  by apply returns_stable_modify_self.
Qed.

End ReturningCalls.

(** ** Checking a world, continued *)

Lemma piece_okb_true (p : Piece) : piece_okb p = true -> piece_ok p.
Proof.
  unfold piece_okb, piece_ok, in_bounds, is_class.
  rewrite !andb_true_iff, !orb_true_iff, !in_range_spec, !negb_true_iff.
  intros [[Hr Hc] Hp]. split; [done|]. intros Hcls Hm.
  destruct Hp as [[Hp|Hp]|Hp].
  - by apply bool_decide_eq_false in Hp.
  - congruence.
  - by apply Z.eqb_neq in Hp.
Qed.

Lemma well_formedb_true (w : World) : well_formedb w = true -> well_formed w.
Proof.
  unfold well_formedb, well_formed, rows_ok, board_in, selection_ok.
  rewrite !andb_true_iff. intros [[[[[Hos Hrows] Hlen] Hb] Hsel] Hvm].
  rewrite forallb_forall in Hos, Hrows, Hb, Hvm.
  repeat split.
  - apply Forall_forall. intros p Hp. by apply piece_okb_true, Hos, list_elem_of_In.
  - apply Forall_forall. intros row Hrow. by apply Hrows, list_elem_of_In.
  - by apply Nat.eqb_eq.
  - apply Forall_forall. intros rr Hrr. by apply Nat.ltb_lt, Hb, list_elem_of_In.
  - intros q Hq. rewrite Hq in Hsel. by apply Nat.ltb_lt.
  - apply Forall_forall. intros s Hs.
    specialize (Hvm s (proj1 (list_elem_of_In _ _) Hs)).
    apply andb_true_iff in Hvm as [H1 H2]. by apply in_range_spec in H1, H2.
Qed.

Lemma new_game_well_formed (player : Color) : well_formed (new_game player).
Proof. apply well_formedb_true. by destruct player; vm_compute. Qed.

(** ** Worlds of the handlers *)

Lemma well_formed_stable (w : World) :
  well_formed w ->
  stable (objs (heap w)) (board (self w)) (length (lsts (heap w))) w.
Proof. intros (Hos & Hrows & Hb & Hsel). repeat split; auto. Qed.

Lemma well_formed_of (os : list Piece) (b : list ref) (m : nat) (w : World) :
  stable os b m w -> Forall piece_ok os -> board_in m b ->
  selection_ok (length os) (self w) ->
  well_formed w.
Proof.
  intros ((Ho & Hl & Hrows) & Hb) Hos Hbin Hsel. unfold well_formed.
  rewrite Ho, Hb. repeat split; auto; try apply Hsel.
  - apply Hbin.
  - eapply board_in_le; [exact Hl|exact Hbin].
Qed.

Lemma returns_ret_eq {A} (P : World -> Prop) (a : A) :
  returns P (mret a) (fun x w => P w /\ x = a).
Proof. by apply returns_ret. Qed.

Lemma returns_modify_self (P : World -> Prop) (f : ChessGame -> ChessGame)
    (Q : unit -> World -> Prop) :
  (forall w, P w -> Q tt (mkWorld (heap w) (f (self w)))) ->
  returns P (modify_self f) Q.
Proof. intros H w Hw. cbn. by apply H. Qed.

(** The world at the call, named. *)
Lemma returns_at {A} (P : World -> Prop) (m : M A) (Q : A -> World -> Prop) :
  (forall w0, P w0 -> returns (fun w => w = w0) m Q) -> returns P m Q.
Proof. intros H w Hw. by apply (H w Hw w). Qed.

Lemma get_board_position_in_bounds (g : ChessGame) (pos : Z * Z) :
  0 <= fst pos < BOARD_SIZE -> 0 <= snd pos < BOARD_SIZE ->
  in_bounds (get_board_position g pos).
Proof.
  destruct pos as [x y]. cbn [fst snd]. unfold BOARD_SIZE. intros Hx Hy.
  assert (Hqx : 0 <= x / SQ_SIZE < 8).
  { change SQ_SIZE with 60. split; [apply Z.div_pos; lia|].
    apply Z.div_lt_upper_bound; lia. }
  assert (Hqy : 0 <= y / SQ_SIZE < 8).
  { change SQ_SIZE with 60. split; [apply Z.div_pos; lia|].
    apply Z.div_lt_upper_bound; lia. }
  unfold get_board_position, in_bounds. destruct (board_flipped g); cbn [fst snd]; lia.
Qed.

(** ** Selection *)

Section ReturningHandlers.
Variable b : list ref.
Variable m : nat.
Hypothesis Hb : board_in m b.

Lemma stable_modify (os : list Piece) (f : ChessGame -> ChessGame) (w : World) :
  stable os b m w -> board (f (self w)) = board (self w) ->
  stable os b m (mkWorld (heap w) (f (self w))).
Proof. intros [Hh Hbw] Hf. split; [done|]. cbn. by rewrite Hf. Qed.

Lemma returns_select_piece (os : list Piece) (pos : Z * Z) :
  Forall piece_ok os ->
  0 <= fst pos < BOARD_SIZE -> 0 <= snd pos ->
  returns (fun w => stable os b m w /\ selection_ok (length os) (self w))
    (select_piece pos)
    (fun _ w => stable os b m w /\ selection_ok (length os) (self w)).
Proof.
  intros Hos Hx Hy. unfold select_piece.
  destruct (BOARD_SIZE <=? snd pos) eqn:Hbelow; [by apply returns_ret|].
  apply Z.leb_gt in Hbelow.
  apply returns_pre with (P' := stable os b m); [by intros w [Hw _]|].
  eapply returns_bind; [apply returns_stable_get_self|]. intros g.
  apply returns_assume. intros Hg.
  pose proof (get_board_position_in_bounds g pos Hx (conj Hy Hbelow)) as Hin.
  destruct (get_board_position g pos) as [row col]. rewrite Hg.
  destruct Hin as [Hr Hc]. cbn [fst snd] in Hr, Hc.
  eapply returns_bind; [by apply returns_stable_board_read|]. intros cell.
  apply returns_assume. intros Hcell.
  eapply returns_bind with
    (Q := fun chosen w => stable os b m w /\ (cell = None -> chosen = false)).
  { destruct cell as [q|]; [|by apply returns_ret].
    destruct (ref_lookup os q (Hcell q eq_refl)) as [qp Hqp].
    eapply returns_bind; [apply (returns_stable_load _ _ _ _ _ Hqp)|]. intros qp'.
    apply returns_assume. intros ->. by apply returns_ret. }
  intros chosen. apply returns_assume. intros Hchosen.
  destruct chosen.
  - destruct cell as [q|]; [|by specialize (Hchosen eq_refl)].
    specialize (Hcell q eq_refl).
    eapply returns_bind with
      (Q := fun _ w => stable os b m w /\ selected_piece (self w) = Some q).
    { apply returns_modify_self. intros w Hw. split; [by apply stable_modify|done]. }
    intros ?.
    eapply returns_bind.
    { eapply (returns_heap_only (stable os b m) _ _
                (fun g => selected_piece g = Some q));
        [apply heap_only_get_legal_moves|by apply returns_get_legal_moves]. }
    intros moves. cbn beta.
    apply returns_pre with
      (P' := fun w => (stable os b m w /\ selected_piece (self w) = Some q) /\
                      Forall in_bounds moves); [by intros w [[? ?] ?]|].
    apply returns_assume. intros Hmoves.
    eapply returns_bind with
      (Q := fun _ w => stable os b m w /\ selected_piece (self w) = Some q /\
                       valid_moves (self w) = moves).
    { apply returns_modify_self. intros w [Hw Hs].
      split; [by apply stable_modify|]. by split. }
    intros ?.
    apply returns_modify_self. intros w (Hw & Hs & Hv).
    split; [by apply stable_modify|]. split; cbn.
    + intros q' Hq'. rewrite Hs in Hq'. by injection Hq' as <-.
    + by rewrite Hv.
  - eapply returns_bind with
      (Q := fun _ w => stable os b m w /\ selected_piece (self w) = None).
    { apply returns_modify_self. intros w Hw. split; [by apply stable_modify|done]. }
    intros ?.
    apply returns_modify_self. intros w [Hw Hs].
    split; [by apply stable_modify|]. split; cbn; [|done].
    intros q Hq. congruence.
Qed.

(** ** Moves *)

Lemma returns_stable_ok {A} (n : nat) (f : M A) :
  (forall os, Forall piece_ok os ->
              returns (stable os b m) f (fun _ => stable os b m)) ->
  returns (stable_ok n b m) f (fun _ => stable_ok n b m).
Proof.
  intros H. unfold stable_ok. apply returns_exists. intros os.
  apply returns_assume. intros [Hos Hlen].
  eapply returns_post; [by apply H|]. intros a w Hw. by exists os.
Qed.

Lemma stable_ok_intro (os : list Piece) (w : World) :
  stable os b m w -> Forall piece_ok os -> stable_ok (length os) b m w.
Proof. intros Hw Hos. by exists os. Qed.

Lemma piece_ok_set_en_passant_vulnerable (v : bool) (x : Piece) :
  piece_ok x -> piece_ok (set_en_passant_vulnerable v x).
Proof. by intros [Hpos Hpawn]. Qed.

Lemma piece_ok_moved (dest : Square) (x : Piece) :
  in_bounds dest ->
  cls x <> Pawn \/ has_moved x = true \/ fst dest = 0 \/ fst dest = 7 ->
  piece_ok (set_position dest x).
Proof.
  intros Hdest Hx. split; [done|]. cbn. intros Hcls Hm.
  destruct Hx as [Hx|[Hx|Hx]]; [done|congruence|].
  destruct (color x); cbn; lia.
Qed.

Lemma returns_reset_en_passant (n : nat) (mover : ref) (clr : Color) :
  returns (stable_ok n b m) (reset_en_passant mover clr) (fun _ => stable_ok n b m).
Proof.
  unfold reset_en_passant.
  eapply returns_bind.
  { apply returns_get_self with (G := fun g => board g = b).
    by intros w (os & [_ Hbw] & _). }
  intros g. apply returns_assume. intros ->.
  apply returns_for_each. intros rr Hrr.
  eapply returns_bind.
  { apply returns_get_heap with
      (H := fun h => rows_ok h /\ (m <= length (lsts h))%nat /\ length (objs h) = n).
    intros w (os & [(Ho & Hl & Hr) _] & _ & Hn). by rewrite Ho. }
  intros h. apply returns_assume. intros (Hrows & Hl & Hn).
  assert (Hlt : (rr < m)%nat).
  { destruct Hb as [_ Hlt]. rewrite Forall_forall in Hlt.
    by apply Hlt, list_elem_of_In. }
  destruct (lsts h !! rr) as [row|] eqn:Hrow; [|apply lookup_ge_None in Hrow; lia].
  assert (Hok : row_ok h row = true).
  { unfold rows_ok in Hrows. rewrite Forall_forall in Hrows.
    apply Hrows. by eapply list_elem_of_lookup_2. }
  eapply returns_bind.
  { apply returns_lift with (F := fun row' => row' = row). exists row.
    split; [|done]. unfold deref_list. by rewrite Hrow. }
  intros row'. apply returns_assume. intros ->.
  apply returns_for_each. intros cell Hcell.
  destruct cell as [q|]; [|by apply returns_ret].
  assert (Hq : (q < n)%nat).
  { unfold row_ok in Hok. apply andb_true_iff in Hok as [_ Hcells].
    rewrite forallb_forall in Hcells. specialize (Hcells _ Hcell).
    cbn in Hcells. apply Nat.ltb_lt in Hcells. lia. }
  unfold stable_ok. apply returns_exists. intros os.
  apply returns_assume. intros [Hos Hlen]. rewrite <- Hlen in Hq.
  destruct (ref_lookup os q Hq) as [x Hx].
  eapply returns_bind; [apply (returns_stable_load _ _ _ _ _ Hx)|]. intros qp.
  apply returns_assume. intros ->.
  destruct (_ && _ && _).
  - eapply returns_post; [apply (returns_stable_update_piece _ _ _ _ _ _ Hx)|].
    intros ? w Hw. eexists. split; [exact Hw|]. split.
    + apply Forall_insert; [done|]. apply piece_ok_set_en_passant_vulnerable.
      rewrite Forall_forall in Hos. apply Hos. by eapply list_elem_of_lookup_2.
    + by rewrite length_insert.
  - apply returns_ret. intros w Hw. by exists os.
Qed.

Lemma returns_move_piece (os : list Piece) (sel : ref) (vm : list Square)
    (end_pos : Z * Z) :
  Forall piece_ok os ->
  (sel < length os)%nat ->
  Forall in_bounds vm ->
  returns (fun w => stable os b m w /\
                    (selected_piece (self w) = Some sel /\ valid_moves (self w) = vm))
    (move_piece end_pos)
    (fun _ => stable_ok (length os) b m).
Proof.
  intros Hos Hsel Hvm. unfold move_piece.
  destruct (BOARD_SIZE <=? snd end_pos).
  { apply returns_ret. intros w [Hw _]. by apply stable_ok_intro. }
  eapply returns_bind.
  { apply returns_get_self with
      (G := fun g => board g = b /\ selected_piece g = Some sel /\ valid_moves g = vm).
    by intros w [[_ Hbw] [Hs Hv]]. }
  intros g. apply returns_assume. intros (Hg & Hgs & Hgv).
  apply returns_pre with (P' := stable os b m); [by intros w [Hw _]|].
  destruct (get_board_position g end_pos) as [end_row end_col].
  rewrite Hgs, Hgv, Hg.
  eapply returns_bind; [apply returns_ret_eq|]. intros sel'.
  apply returns_assume. intros ->.
  destruct (ref_lookup os sel Hsel) as [piece Hpiece].
  pose proof (os_piece_ok os Hos _ _ Hpiece) as [Hstart Hguard].
  eapply returns_bind; [apply (returns_stable_load _ _ _ _ _ Hpiece)|]. intros piece'.
  apply returns_assume. intros ->.
  destruct (position piece) as [start_row start_col] eqn:Hposition.
  destruct Hstart as [Hsr Hsc]. cbn [fst snd] in Hsr, Hsc.
  destruct (existsb _ vm) eqn:Hex.
  2:{ apply returns_ret. intros w Hw. by apply stable_ok_intro. }
  apply existsb_Square_eqb in Hex.
  assert (Hend : in_bounds (end_row, end_col)).
  { rewrite Forall_forall in Hvm. by apply Hvm, list_elem_of_In. }
  destruct Hend as [Her Hec]. cbn [fst snd] in Her, Hec.
  eapply returns_bind with (Q := fun _ => stable os b m).
  { destruct (_ && _); [|by apply returns_ret].
    eapply returns_bind; [by apply returns_stable_board_read|]. intros dest.
    apply returns_assume. intros _.
    destruct dest; [by apply returns_ret|].
    by apply returns_stable_board_set. }
  intros ?.
  eapply returns_bind.
  { apply returns_stable_board_set; [done..|]. by intros q [= <-]. }
  intros ?.
  eapply returns_bind; [by apply returns_stable_board_set|]. intros ?.
  eapply returns_bind; [apply (returns_stable_update_piece _ _ _ _ _ _ Hpiece)|].
  intros ?.
  set (moved := set_position (end_row, end_col) piece).
  assert (Hmoved : <[sel:=moved]> os !! sel = Some moved)
    by (by apply list_lookup_insert_eq).
  destruct (is_class Pawn piece && ((end_row =? 0) || (end_row =? 7))) eqn:Hpromotion.
  { apply andb_true_iff in Hpromotion as [_ Hrank].
    eapply returns_bind; [by apply returns_stable_modify_self|]. intros ?.
    apply returns_ret. intros w Hw.
    exists (<[sel:=moved]> os). split; [done|]. split; [|by rewrite length_insert].
    apply Forall_insert; [done|]. apply piece_ok_moved; [done|].
    right. right. cbn [fst]. lia. }
  eapply returns_bind with (Q := fun _ => stable_ok (length os) b m).
  { unfold is_class. destruct (bool_decide (cls piece = Pawn)) eqn:Hpawn.
    - eapply returns_bind;
        [apply (returns_stable_update_piece _ _ _ _ _ _ Hmoved)|]. intros ?.
      eapply returns_post.
      { apply returns_stable_update_piece.
        by apply list_lookup_insert_eq; rewrite length_insert. }
      intros ? w Hw. eexists. split; [exact Hw|].
      split; [|by rewrite !length_insert].
      rewrite !list_insert_insert_eq. apply Forall_insert; [done|].
      split; [done|]. cbn. congruence.
    - apply bool_decide_eq_false in Hpawn.
      apply returns_ret. intros w Hw.
      exists (<[sel:=moved]> os). split; [done|]. split; [|by rewrite length_insert].
      apply Forall_insert; [done|]. apply piece_ok_moved; [done|]. by left. }
  intros ?.
  eapply returns_bind; [apply returns_reset_en_passant|]. intros ?.
  eapply returns_bind.
  { apply returns_stable_ok. intros os' _. by apply returns_stable_modify_self. }
  intros ?.
  eapply returns_bind.
  { apply returns_stable_ok. intros os' _. by apply returns_stable_modify_self. }
  intros ?.
  eapply returns_bind.
  { apply returns_stable_ok. intros os' Hos'. by apply returns_update_check_status. }
  intros ?.
  eapply returns_bind.
  { apply returns_stable_ok. intros os' Hos'. by apply returns_update_game_over. }
  intros ?.
  eapply returns_bind.
  { apply returns_stable_ok. intros os' Hos'. by apply returns_update_position_history. }
  intros ?.
  by apply returns_ret.
Qed.

End ReturningHandlers.

(** ** The handlers *)

Lemma keeps_selected_piece_move_piece (pos : Z * Z) :
  keeps_attr selected_piece (move_piece pos).
Proof. unfold move_piece. keeps_attr_steps. Qed.

Lemma keeps_valid_moves_move_piece (pos : Z * Z) :
  keeps_attr valid_moves (move_piece pos).
Proof. unfold move_piece. keeps_attr_steps. Qed.

Lemma stable_ok_modify (n : nat) (b : list ref) (m : nat)
    (f : ChessGame -> ChessGame) (w : World) :
  stable_ok n b m w -> board (f (self w)) = board (self w) ->
  stable_ok n b m (mkWorld (heap w) (f (self w))).
Proof.
  intros (os & Hw & Hos) Hf. exists os. split; [|done]. by apply stable_modify.
Qed.

Lemma well_formed_of_ok (n : nat) (b : list ref) (m : nat) (w : World) :
  stable_ok n b m w -> board_in m b -> selection_ok n (self w) -> well_formed w.
Proof.
  intros (os & Hw & Hos & <-) Hb Hsel. by eapply well_formed_of.
Qed.

Lemma well_formed_modify (f : ChessGame -> ChessGame) (w : World) :
  well_formed w ->
  board (f (self w)) = board (self w) ->
  selected_piece (f (self w)) = selected_piece (self w) ->
  valid_moves (f (self w)) = valid_moves (self w) ->
  well_formed (mkWorld (heap w) (f (self w))).
Proof.
  intros (Hos & Hrows & Hb & Hsel) Hfb Hfs Hfv. unfold well_formed, selection_ok.
  cbn [heap self]. by rewrite Hfb, Hfs, Hfv.
Qed.

Lemma returns_move_piece_selected (os : list Piece) (b : list ref) (m : nat)
    (sel : ref) (vm : list Square) (pos : Z * Z) :
  board_in m b ->
  Forall piece_ok os ->
  (sel < length os)%nat ->
  Forall in_bounds vm ->
  returns (fun w => stable os b m w /\
                    (selected_piece (self w) = Some sel /\ valid_moves (self w) = vm))
    (move_piece pos)
    (fun _ w => stable_ok (length os) b m w /\
                selection_ok (length os) (self w)).
Proof.
  intros Hb Hos Hsel Hvm.
  pose proof (returns_move_piece b m Hb os sel vm pos Hos Hsel Hvm) as H0.
  pose proof (returns_keeps_attr selected_piece (Some sel) _ _ _
                (keeps_selected_piece_move_piece pos) H0) as H1.
  pose proof (returns_keeps_attr valid_moves vm _ _ _
                (keeps_valid_moves_move_piece pos) H1) as H2.
  cbn beta in H2.
  eapply returns_pre; [|eapply returns_post; [exact H2|]].
  - intros w (Hw & Hs & Hv). split; [split|]; [split; [|split]| |]; assumption.
  - intros ? w [[Hw Hs] Hv]. split; [done|]. split.
    + intros q Hq. rewrite Hs in Hq. by injection Hq as <-.
    + by rewrite Hv.
Qed.

Lemma returns_select_piece_ok (n : nat) (b : list ref) (m : nat) (pos : Z * Z) :
  board_in m b ->
  0 <= fst pos < BOARD_SIZE -> 0 <= snd pos ->
  returns (fun w => stable_ok n b m w /\ selection_ok n (self w))
    (select_piece pos) (fun _ => well_formed).
Proof.
  intros Hb Hx Hy.
  apply returns_pre with
    (P' := fun w => exists os, (stable os b m w /\ selection_ok (length os) (self w)) /\
                               Forall piece_ok os).
  { intros w [(os & Hw & Hos & <-) Hsel]. by exists os. }
  apply returns_exists. intros os. apply returns_assume. intros Hos.
  eapply returns_post; [by apply returns_select_piece|].
  intros ? w [Hw Hsel]. by eapply well_formed_of.
Qed.

Lemma returns_handle_click (pos : Z * Z) :
  in_window pos ->
  returns well_formed (handle_click pos) (fun _ => well_formed).
Proof.
  intros [Hx Hy]. unfold WIDTH, HEIGHT in *.
  assert (Hx' : 0 <= fst pos < BOARD_SIZE) by (unfold BOARD_SIZE; lia).
  assert (Hy' : 0 <= snd pos) by lia.
  apply returns_at. intros w0 Hwf.
  pose proof (well_formed_stable w0 Hwf) as Hst.
  destruct Hwf as (Hos & Hrows & Hb & Hsel).
  unfold handle_click.
  eapply returns_bind.
  { apply returns_get_self with (G := fun g => g = self w0). by intros w ->. }
  intros g. apply returns_assume. intros ->.
  destruct (negb (game_over (self w0))).
  2:{ apply returns_ret. by intros w ->. }
  destruct (selected_piece (self w0)) as [sel|] eqn:Hsel0.
  - eapply returns_bind.
    { apply returns_pre with
        (P' := fun w => stable (objs (heap w0)) (board (self w0))
                          (length (lsts (heap w0))) w /\
                        (selected_piece (self w) = Some sel /\
                         valid_moves (self w) = valid_moves (self w0))).
      { by intros w ->. }
      apply returns_move_piece_selected; [done|done| |apply Hsel].
      by apply Hsel. }
    intros moved. destruct moved.
    + eapply returns_bind with
        (Q := fun _ w => stable_ok (length (objs (heap w0))) (board (self w0))
                           (length (lsts (heap w0))) w /\
                         selected_piece (self w) = None).
      { apply returns_modify_self. intros w [Hw _].
        split; [by apply stable_ok_modify|done]. }
      intros ?. apply returns_modify_self. intros w [Hw Hs].
      eapply well_formed_of_ok; [by apply stable_ok_modify|done|].
      split; cbn; [|done]. intros q Hq. congruence.
    + by apply returns_select_piece_ok.
  - apply returns_pre with
      (P' := fun w => stable_ok (length (objs (heap w0))) (board (self w0))
                        (length (lsts (heap w0))) w /\
                      selection_ok (length (objs (heap w0))) (self w)).
    { intros w ->. split; [by apply stable_ok_intro|done]. }
    by apply returns_select_piece_ok.
Qed.

Lemma returns_handle_release (pos : Z * Z) :
  returns well_formed (handle_release pos) (fun _ => well_formed).
Proof.
  apply returns_at. intros w0 Hwf.
  pose proof (well_formed_stable w0 Hwf) as Hst.
  destruct Hwf as (Hos & Hrows & Hb & Hsel).
  unfold handle_release.
  eapply returns_bind.
  { apply returns_get_self with (G := fun g => g = self w0). by intros w ->. }
  intros g. apply returns_assume. intros ->.
  destruct (bool_decide _ && _ && _) eqn:Hcond.
  2:{ apply returns_ret. by intros w ->. }
  apply andb_true_iff in Hcond as [Hcond _].
  apply andb_true_iff in Hcond as [Hcond _].
  apply bool_decide_eq_true in Hcond as [sel Hsel0].
  eapply returns_bind.
  { apply returns_pre with
      (P' := fun w => stable (objs (heap w0)) (board (self w0))
                        (length (lsts (heap w0))) w /\
                      (selected_piece (self w) = Some sel /\
                       valid_moves (self w) = valid_moves (self w0))).
    { by intros w ->. }
    apply returns_move_piece_selected; [done|done| |apply Hsel].
    by apply Hsel. }
  intros moved.
  eapply returns_bind with
    (Q := fun _ w => stable_ok (length (objs (heap w0))) (board (self w0))
                       (length (lsts (heap w0))) w /\
                     selected_piece (self w) = None).
  { apply returns_modify_self. intros w [Hw _].
    split; [by apply stable_ok_modify|done]. }
  intros ?.
  eapply returns_bind with
    (Q := fun _ w => stable_ok (length (objs (heap w0))) (board (self w0))
                       (length (lsts (heap w0))) w /\
                     selected_piece (self w) = None /\ valid_moves (self w) = []).
  { apply returns_modify_self. intros w [Hw Hs].
    split; [by apply stable_ok_modify|done]. }
  intros ?. apply returns_modify_self. intros w (Hw & Hs & Hv).
  eapply well_formed_of_ok; [by apply stable_ok_modify|done|].
  split; cbn; [|by rewrite Hv]. intros q Hq. congruence.
Qed.

Lemma returns_call (c : Call) :
  call_in_window c -> returns well_formed (call c) (fun _ => well_formed).
Proof.
  destruct c as [pos|pos| |]; cbn [call call_in_window]; intros Hc.
  - by apply returns_handle_click.
  - apply returns_handle_release.
  - apply returns_modify_self. intros w Hw. by apply well_formed_modify.
  - apply returns_modify_self. intros w Hw. by apply well_formed_modify.
Qed.

Lemma returns_run {A} (P : World -> Prop) (m : M A) (Q : A -> World -> Prop)
    (w : World) :
  returns P m Q -> P w -> exists w' a, run m w = (w', Ok a) /\ Q a w'.
Proof.
  intros H Hw. specialize (H w Hw). destruct (run m w) as [w' [a|e]]; [|done].
  by exists w', a.
Qed.

Lemma returns_query {A} (m : M A) (F : A -> Prop) (w : World) :
  heap_only m ->
  (forall os b k, Forall piece_ok os -> board_in k b ->
                  returns (stable os b k) m (fun a w' => stable os b k w' /\ F a)) ->
  well_formed w ->
  exists w' a, run m w = (w', Ok a) /\ F a /\ well_formed w'.
Proof.
  intros Hm H Hwf. pose proof (well_formed_stable w Hwf) as Hst.
  destruct Hwf as (Hos & Hrows & Hb & Hsel).
  pose proof (returns_heap_only _ _ _
                (fun g => selection_ok (length (objs (heap w))) g) Hm
                (H _ _ _ Hos Hb)) as Hr.
  destruct (returns_run _ _ _ w Hr (conj Hst Hsel)) as (w' & a & Hrun & [Hw' Ha] & Hsel').
  exists w', a. split; [done|]. split; [done|]. by eapply well_formed_of.
Qed.

(** X19. In a well-formed world — every row a list of eight cells that are
    empty or name a piece, every piece on a square of the board, no pawn with
    [has_moved] clear one rank before its last rank — [get_legal_moves]
    returns for every piece, all the moves it returns are on the board, and
    the world it leaves is well-formed. *)
Theorem get_legal_moves_returns (w : World) (piece : ref) :
  well_formed w ->
  (piece < length (objs (heap w)))%nat ->
  exists w' legal,
    run (get_legal_moves piece) w = (w', Ok legal) /\
    Forall in_bounds legal /\
    well_formed w'.
Proof.
  intros Hwf Hpiece.
  pose proof (well_formed_stable w Hwf) as Hst.
  destruct Hwf as (Hos & Hrows & Hb & Hsel).
  pose proof (returns_heap_only _ _ _
                (fun g => selection_ok (length (objs (heap w))) g)
                (heap_only_get_legal_moves piece)
                (returns_get_legal_moves _ _ _ Hos Hb piece Hpiece)) as Hr.
  destruct (returns_run _ _ _ w Hr (conj Hst Hsel))
    as (w' & legal & Hrun & [Hw' Hlegal] & Hsel').
  exists w', legal. split; [done|]. split; [done|]. by eapply well_formed_of.
Qed.

Lemma get_legal_moves_returns_witness :
  exists w' legal,
    run (get_legal_moves 11%nat) en_passant_position = (w', Ok legal) /\
    Forall in_bounds legal /\
    well_formed w'.
Proof.
  apply (get_legal_moves_returns en_passant_position 11%nat).
  - apply well_formedb_true. vm_compute. reflexivity.
  - vm_compute. lia.
Defined.

(** X20. In a well-formed world the check queries return: [is_in_check]
    for either colour, without a change, and [is_checkmate] and
    [is_stalemate] for either colour, in a well-formed world. *)
Theorem check_queries_return (w : World) (clr : Color) :
  well_formed w ->
  (exists b, run (is_in_check clr) w = (w, Ok b)) /\
  (exists w' b, run (is_checkmate clr) w = (w', Ok b) /\ well_formed w') /\
  (exists w' b, run (is_stalemate clr) w = (w', Ok b) /\ well_formed w').
Proof.
  intros Hwf. split; [|split].
  - destruct (returns_query (is_in_check clr) (fun _ => True) w) as (w' & b & Hrun & _).
    + apply heap_only_is_in_check.
    + intros os b k Hos Hb. eapply returns_post; [by apply returns_is_in_check|].
      by intros a w' Hw'.
    + done.
    + exists b. rewrite is_in_check_run in Hrun |- *.
      injection Hrun as _ Hb. by rewrite Hb.
  - destruct (returns_query (is_checkmate clr) (fun _ => True) w)
      as (w' & b & Hrun & _ & Hw'); [apply heap_only_is_checkmate| |done|by exists w', b].
    intros os b k Hos Hb. eapply returns_post; [by apply returns_is_checkmate|].
    by intros a w' Hw'.
  - destruct (returns_query (is_stalemate clr) (fun _ => True) w)
      as (w' & b & Hrun & _ & Hw'); [apply heap_only_is_stalemate| |done|by exists w', b].
    intros os b k Hos Hb. eapply returns_post; [by apply returns_is_stalemate|].
    by intros a w' Hw'.
Qed.

Lemma check_queries_return_witness :
  let w := en_passant_position in
  (exists b, run (is_in_check white) w = (w, Ok b)) /\
  (exists w' b, run (is_checkmate white) w = (w', Ok b) /\ well_formed w') /\
  (exists w' b, run (is_stalemate white) w = (w', Ok b) /\ well_formed w').
Proof.
  intros w. apply (check_queries_return w white).
  apply well_formedb_true. vm_compute. reflexivity.
Defined.

(** X21. In a well-formed world a click at a position of the window is
    handled without an exception, whatever is selected and whether the
    click starts, completes or fails a move, and the world it leaves is
    well-formed. *)
Theorem handle_click_returns (w : World) (pos : Z * Z) :
  well_formed w ->
  in_window pos ->
  exists w', run (handle_click pos) w = (w', Ok tt) /\ well_formed w'.
Proof.
  intros Hwf Hpos.
  destruct (returns_run _ _ _ w (returns_handle_click pos Hpos) Hwf)
    as (w' & [] & Hrun & Hw').
  by exists w'.
Qed.

Lemma handle_click_returns_witness :
  exists w', run (handle_click (square_center (6, 4))) (new_game white) = (w', Ok tt) /\
             well_formed w'.
Proof.
  apply (handle_click_returns (new_game white) (square_center (6, 4))).
  - apply well_formedb_true. vm_compute. reflexivity.
  - vm_compute. repeat split; discriminate.
Defined.

(** X22. In a well-formed world the release of the mouse button is handled
    without an exception wherever it happens, and the world it leaves is
    well-formed. *)
Theorem handle_release_returns (w : World) (pos : Z * Z) :
  well_formed w ->
  exists w', run (handle_release pos) w = (w', Ok tt) /\ well_formed w'.
Proof.
  intros Hwf.
  destruct (returns_run _ _ _ w (returns_handle_release pos) Hwf)
    as (w' & [] & Hrun & Hw').
  by exists w'.
Qed.

Lemma handle_release_returns_witness :
  let w := fst (run (handle_click (square_center (6, 4))) (new_game white)) in
  exists w', run (handle_release (square_center (4, 4))) w = (w', Ok tt) /\
             well_formed w'.
Proof.
  intros w. apply (handle_release_returns w (square_center (4, 4))).
  apply well_formedb_true. vm_compute. reflexivity.
Defined.

(** X23. From a new game, for either colour of the player, every sequence
    of calls of [handle_click], [handle_release], [flip_board] and [resign]
    with positions in the window runs to its end without an exception, and
    leaves a well-formed world. *)
Theorem calls_from_new_game_return (player : Color) (calls : list Call) :
  Forall call_in_window calls ->
  exists w, run (for_each calls call) (new_game player) = (w, Ok tt) /\
            well_formed w.
Proof.
  intros Hcalls.
  assert (Hr : returns well_formed (for_each calls call) (fun _ => well_formed)).
  { apply returns_for_each. intros c Hc. apply returns_call.
    rewrite Forall_forall in Hcalls. by apply Hcalls, list_elem_of_In. }
  destruct (returns_run _ _ _ _ Hr (new_game_well_formed player))
    as (w & [] & Hrun & Hw).
  by exists w.
Qed.

Lemma calls_from_new_game_return_witness :
  exists w,
    run (for_each [Click (square_center (6, 4)); Release (square_center (4, 4));
                   Flip; Click (100, 520); Resign] call)
        (new_game black) = (w, Ok tt) /\
    well_formed w.
Proof.
  apply (calls_from_new_game_return black).
  repeat (apply List.Forall_cons;
          [first [exact I | vm_compute; repeat split; discriminate]|]).
  apply List.Forall_nil.
Defined.

(** ** Promotion *)

Lemma row_ok_grows (h h' : Heap) (row : list (option ref)) :
  (length (objs h) <= length (objs h'))%nat ->
  row_ok h row = true -> row_ok h' row = true.
Proof.
  unfold row_ok. rewrite !andb_true_iff, !forallb_forall. intros Hle [Hlen Hcells].
  split; [done|]. intros cell Hcell. specialize (Hcells cell Hcell).
  destruct cell as [q|]; [|done]. apply Nat.ltb_lt in Hcells. apply Nat.ltb_lt. lia.
Qed.

Lemma returns_stable_alloc_piece (os : list Piece) (b : list ref) (m : nat)
    (x : Piece) :
  returns (stable os b m) (alloc_piece x)
    (fun r w => stable (os ++ [x]) b m w /\ r = length os).
Proof.
  intros w ((Ho & Hl & Hrows) & Hb). unfold alloc_piece.
  rewrite run_bind. cbn [get_heap run]. rewrite run_bind. cbn [put_heap run].
  cbn [mret M_ret run]. rewrite Ho. split; [|done].
  split; [|done]. cbn [heap objs lsts]. split; [done|]. split; [done|].
  unfold rows_ok in *. cbn [lsts]. eapply Forall_impl; [exact Hrows|].
  intros row. apply row_ok_grows. cbn [objs]. rewrite Ho, length_app. lia.
Qed.

Lemma returns_promote_pawn (os : list Piece) (b : list ref) (m : nat)
    (pending : ref) (piece_class : PieceClass) :
  board_in m b ->
  Forall piece_ok os ->
  (pending < length os)%nat ->
  piece_class <> Pawn ->
  returns (fun w => stable os b m w /\ promotion_pawn (self w) = Some pending)
    (promote_pawn piece_class)
    (fun _ => stable_ok (S (length os)) b m).
Proof.
  intros Hb Hos Hpending Hclass. unfold promote_pawn.
  eapply returns_bind.
  { apply returns_get_self with
      (G := fun g => board g = b /\ promotion_pawn g = Some pending).
    by intros w [[_ Hbw] Hp]. }
  intros g. apply returns_assume. intros [Hg Hgp].
  apply returns_pre with (P' := stable os b m); [by intros w [Hw _]|].
  rewrite Hgp, Hg.
  destruct (ref_lookup os pending Hpending) as [pawn Hpawn].
  pose proof (os_piece_ok os Hos _ _ Hpawn) as [Hpos _].
  eapply returns_bind; [apply (returns_stable_load _ _ _ _ _ Hpawn)|]. intros pawn'.
  apply returns_assume. intros ->.
  destruct (position pawn) as [row col]. destruct Hpos as [Hr Hc].
  cbn [fst snd] in Hr, Hc.
  eapply returns_bind; [apply returns_stable_alloc_piece|]. intros fresh.
  apply returns_assume. intros ->.
  set (queen := new_piece piece_class (color pawn) (row, col)).
  assert (Hos' : Forall piece_ok (os ++ [queen])).
  { apply Forall_app. split; [done|]. apply Forall_cons. split; [|done].
    split; [done|]. by intros Hcls. }
  eapply returns_bind.
  { apply returns_stable_board_set; [done..|].
    intros q [= <-]. rewrite length_app. cbn. lia. }
  intros ?.
  eapply returns_bind; [by apply returns_stable_modify_self|]. intros ?.
  eapply returns_bind; [by apply returns_update_check_status|]. intros ?.
  eapply returns_bind; [by apply returns_update_game_over|]. intros ?.
  eapply returns_post; [by apply returns_update_position_history|].
  intros ? w Hw. exists (os ++ [queen]). split; [done|]. split; [done|].
  rewrite length_app. cbn. lia.
Qed.

(** X24. In a well-formed world with a pending promotion, [promote_pawn]
    with one of the classes that [main] offers (any class but [Pawn])
    returns without an exception and leaves a well-formed world. *)
Theorem promote_pawn_returns (w : World) (pending : ref) (piece_class : PieceClass) :
  well_formed w ->
  promotion_pawn (self w) = Some pending ->
  (pending < length (objs (heap w)))%nat ->
  piece_class <> Pawn ->
  exists w', run (promote_pawn piece_class) w = (w', Ok tt) /\ well_formed w'.
Proof.
  intros Hwf Hp Hlt Hclass.
  pose proof (well_formed_stable w Hwf) as Hst.
  destruct Hwf as (Hos & Hrows & Hb & Hsel).
  assert (Hkeep : forall {X} (f : ChessGame -> X),
             (forall v g, f (set_promotion_pawn v g) = f g) ->
             (forall c v g, f (set_in_check c v g) = f g) ->
             (forall msg g, f (set_over msg g) = f g) ->
             (forall v g, f (set_position_history v g) = f g) ->
             keeps_attr f (promote_pawn piece_class)).
  { intros X f H1 H2 H3 H4. unfold promote_pawn.
    apply keeps_attr_bind; [apply keeps_attr_heap_only; auto with heap_only|].
    intros g. apply keeps_attr_bind.
    { destruct (promotion_pawn g); apply keeps_attr_heap_only; auto with heap_only. }
    intros pawn. destruct (position pawn) as [row col].
    apply keeps_attr_bind; [apply keeps_attr_heap_only, heap_only_alloc_piece|].
    intros fresh.
    apply keeps_attr_bind; [apply keeps_attr_heap_only; auto with heap_only|].
    intros ?.
    apply keeps_attr_bind; [by apply keeps_attr_modify_self|]. intros ?.
    by apply updates_keep. }
  pose proof (returns_promote_pawn _ _ _ pending piece_class Hb Hos Hlt Hclass) as H0.
  pose proof (returns_keeps_attr selected_piece (selected_piece (self w)) _ _ _
                (Hkeep _ selected_piece (fun _ _ => eq_refl) (fun _ _ _ => eq_refl)
                   (fun _ _ => eq_refl) (fun _ _ => eq_refl)) H0) as H1.
  pose proof (returns_keeps_attr valid_moves (valid_moves (self w)) _ _ _
                (Hkeep _ valid_moves (fun _ _ => eq_refl) (fun _ _ _ => eq_refl)
                   (fun _ _ => eq_refl) (fun _ _ => eq_refl)) H1) as H2.
  cbn beta in H2.
  destruct (returns_run _ _ _ w H2) as (w' & [] & Hrun & [[Hw' Hs] Hv]).
  { split; [split|]; [split| |]; done. }
  exists w'. split; [done|].
  eapply well_formed_of_ok; [exact Hw'|done|].
  destruct Hsel as [Hsel Hvm]. split.
  - intros q Hq. rewrite Hs in Hq. specialize (Hsel q Hq). lia.
  - by rewrite Hv.
Qed.

Lemma promote_pawn_returns_witness :
  exists w', run (promote_pawn Queen) promotion_position = (w', Ok tt) /\
             well_formed w'.
Proof.
  apply (promote_pawn_returns promotion_position 1%nat Queen).
  - apply well_formedb_true. vm_compute. reflexivity.
  - vm_compute. reflexivity.
  - vm_compute. lia.
  - discriminate.
Defined.

(** ** The flags of the pawns *)

Section Flags.
Variable mover : ref.
Variable clr : Color.

Lemma clears_flags_refl (os : list Piece) : clears_flags mover clr os os.
Proof. split; [done|]. intros q x Hx. exists x. auto. Qed.

Lemma clears_flags_trans (os1 os2 os3 : list Piece) :
  clears_flags mover clr os1 os2 -> clears_flags mover clr os2 os3 ->
  clears_flags mover clr os1 os3.
Proof.
  intros [Hl12 H12] [Hl23 H23]. split; [congruence|]. intros q x Hx.
  destruct (H12 q x Hx) as (x2 & Hx2 & Hrel2).
  destruct (H23 q x2 Hx2) as (x3 & Hx3 & Hrel3).
  exists x3. split; [done|].
  destruct Hrel2 as [->|(-> & Hc & Hcl & Hne)]; [done|].
  destruct Hrel3 as [->|(-> & _)]; right; by repeat split.
Qed.

Lemma unflagged_stable (os os' : list Piece) (q : ref) :
  clears_flags mover clr os os' -> unflagged mover clr os q ->
  unflagged mover clr os' q.
Proof.
  intros [Hlen Hrel] Hq Hne x' Hx' Hcls Hclr.
  pose proof (lookup_lt_Some _ _ _ Hx') as Hlt. rewrite Hlen in Hlt.
  destruct (ref_lookup os q Hlt) as [x Hx].
  destruct (Hrel q x Hx) as (x'' & Hx'' & Hcase).
  assert (x'' = x') as -> by (exact (lookup_unique _ _ _ _ Hx'' Hx')).
  destruct Hcase as [->|(-> & _)]; [by apply (Hq Hne x)|done].
Qed.

Lemma reset_cell_run (cell : option ref) (w w' : World) :
  run (match cell with
       | Some q =>
           qp ← load q;
           if is_class Pawn qp && color_eqb (color qp) clr && negb (q =? mover)%nat
           then update_piece q (set_en_passant_vulnerable false)
           else mret tt
       | None => mret tt
       end) w = (w', Ok tt) ->
  lsts (heap w') = lsts (heap w) /\ self w' = self w /\
  clears_flags mover clr (objs (heap w)) (objs (heap w')) /\
  forall q, cell = Some q -> unflagged mover clr (objs (heap w')) q.
Proof.
  destruct cell as [q|].
  2:{ intros [= <-]. repeat split; [apply clears_flags_refl|done]. }
  intros Hrun. apply run_bind_Ok in Hrun as (w1 & qp & Hload & Hrun).
  unfold load in Hload. rewrite run_bind in Hload. cbn [get_heap run lift] in Hload.
  destruct (deref (heap w) q) as [x|] eqn:Hx; [|discriminate].
  injection Hload as <- <-. apply deref_lookup in Hx.
  destruct (is_class Pawn x && color_eqb (color x) clr && negb (q =? mover)%nat)
    eqn:Hcond.
  - apply update_piece_run in Hrun as (x0 & Hx0 & ->). apply deref_lookup in Hx0.
    assert (x0 = x) as -> by (exact (lookup_unique _ _ _ _ Hx0 Hx)).
    apply andb_true_iff in Hcond as [Hcond Hne].
    apply andb_true_iff in Hcond as [Hcls Hclr].
    apply bool_decide_eq_true in Hcls, Hclr.
    apply negb_true_iff, Nat.eqb_neq in Hne.
    cbn [heap objs lsts self]. repeat split.
    + by rewrite length_insert.
    + intros q' y Hy. destruct (decide (q' = q)) as [->|Hq'].
      * assert (y = x) as -> by (exact (lookup_unique _ _ _ _ Hy Hx)).
        eexists. split; [apply list_lookup_insert_eq; by eapply lookup_lt_Some|].
        right. by repeat split.
      * exists y. split; [by rewrite list_lookup_insert_ne|by left].
    + intros q' [= <-] _ y Hy _ _.
      rewrite list_lookup_insert_eq in Hy by (by eapply lookup_lt_Some).
      by injection Hy as <-.
  - injection Hrun as <-. repeat split; [apply clears_flags_refl|].
    intros q' [= <-] Hne y Hy Hcls Hclr.
    assert (y = x) as -> by (exact (lookup_unique _ _ _ _ Hy Hx)).
    unfold is_class, color_eqb in Hcond.
    rewrite (bool_decide_eq_true_2 _ Hcls), (bool_decide_eq_true_2 _ Hclr) in Hcond.
    apply Nat.eqb_neq in Hne. by rewrite Hne in Hcond.
Qed.

Lemma reset_row_run (row : list (option ref)) (w w' : World) :
  run (for_each row (fun cell =>
         match cell with
         | Some q =>
             qp ← load q;
             if is_class Pawn qp && color_eqb (color qp) clr && negb (q =? mover)%nat
             then update_piece q (set_en_passant_vulnerable false)
             else mret tt
         | None => mret tt
         end)) w = (w', Ok tt) ->
  lsts (heap w') = lsts (heap w) /\ self w' = self w /\
  clears_flags mover clr (objs (heap w)) (objs (heap w')) /\
  forall q, In (Some q) row -> unflagged mover clr (objs (heap w')) q.
Proof.
  revert w. induction row as [|cell rest IH]; intros w; cbn [for_each].
  - intros [= <-]. repeat split; [apply clears_flags_refl|]. intros q [].
  - intros Hrun. apply run_bind_Ok in Hrun as (w1 & [] & Hcell & Hrun).
    apply reset_cell_run in Hcell as (Hl1 & Hs1 & Hc1 & Hu1).
    apply IH in Hrun as (Hl2 & Hs2 & Hc2 & Hu2).
    split; [congruence|]. split; [congruence|].
    split; [by eapply clears_flags_trans|].
    intros q [->|Hq]; [|by apply Hu2].
    eapply unflagged_stable; [exact Hc2|by apply Hu1].
Qed.

Lemma reset_rows_run (rows : list ref) (w w' : World) :
  run (for_each rows (fun rr =>
         h ← get_heap;
         row ← lift (deref_list h rr);
         for_each row (fun cell =>
           match cell with
           | Some q =>
               qp ← load q;
               if is_class Pawn qp && color_eqb (color qp) clr && negb (q =? mover)%nat
               then update_piece q (set_en_passant_vulnerable false)
               else mret tt
           | None => mret tt
           end))) w = (w', Ok tt) ->
  lsts (heap w') = lsts (heap w) /\ self w' = self w /\
  clears_flags mover clr (objs (heap w)) (objs (heap w')) /\
  forall rr, In rr rows ->
    exists row, lsts (heap w') !! rr = Some row /\
                forall q, In (Some q) row -> unflagged mover clr (objs (heap w')) q.
Proof.
  revert w. induction rows as [|rr rest IH]; intros w; cbn [for_each].
  - intros [= <-]. repeat split; [apply clears_flags_refl|]. intros q [].
  - intros Hrun. apply run_bind_Ok in Hrun as (w1 & [] & Hrow & Hrun).
    rewrite run_bind in Hrow. cbn [get_heap run] in Hrow.
    rewrite run_bind in Hrow. cbn [lift run] in Hrow.
    unfold deref_list in Hrow.
    destruct (lsts (heap w) !! rr) as [row|] eqn:Hrr; [|discriminate].
    apply reset_row_run in Hrow as (Hl1 & Hs1 & Hc1 & Hu1).
    apply IH in Hrun as (Hl2 & Hs2 & Hc2 & Hu2).
    split; [congruence|]. split; [congruence|].
    split; [by eapply clears_flags_trans|].
    intros rr' [<-|Hrr']; [|by apply Hu2].
    exists row. split; [by rewrite Hl2, Hl1|].
    intros q Hq. eapply unflagged_stable; [exact Hc2|by apply Hu1].
Qed.

Lemma reset_en_passant_run (w w' : World) :
  run (reset_en_passant mover clr) w = (w', Ok tt) ->
  lsts (heap w') = lsts (heap w) /\ self w' = self w /\
  clears_flags mover clr (objs (heap w)) (objs (heap w')) /\
  forall rr, In rr (board (self w)) ->
    exists row, lsts (heap w') !! rr = Some row /\
                forall q, In (Some q) row -> unflagged mover clr (objs (heap w')) q.
Proof.
  unfold reset_en_passant. rewrite run_bind. cbn [get_self run].
  apply reset_rows_run.
Qed.

End Flags.

Lemma board_set_keeps_objs (b : list ref) (r c : Z) (v : option ref) (w w' : World) :
  run (board_set b r c v) w = (w', Ok tt) ->
  objs (heap w') = objs (heap w) /\ self w' = self w.
Proof. intros H. apply board_set_run in H as (rr & row & row' & _ & _ & _ & ->). done. Qed.

Lemma en_passant_removal_keeps_objs (b : list ref) (cond : bool) (r c r' : Z)
    (w w' : World) :
  run (if cond then
         dest ← board_read b r c;
         match dest with
         | None => board_set b r' c None
         | Some _ => mret tt
         end
       else mret tt) w = (w', Ok tt) ->
  objs (heap w') = objs (heap w) /\ self w' = self w.
Proof.
  destruct cond; [|by intros [= <-]].
  intros H. apply run_bind_Ok in H as (w1 & dest & Hread & H).
  unfold board_read in Hread. rewrite run_bind in Hread. cbn [get_heap run lift] in Hread.
  destruct (board_get _ _ _ _) as [cell|]; [|discriminate]. injection Hread as <- <-.
  destruct cell; [by injection H as <-|]. by apply board_set_keeps_objs in H.
Qed.

(** X25. After an accepted move that is not a pawn reaching rank index 0 or
    7: a moved pawn has [has_moved] set and is [en_passant_vulnerable]
    exactly when it went two ranks; every other piece keeps [has_moved], and
    keeps [en_passant_vulnerable] unless it is a pawn of the mover's colour,
    whose flag may be cleared; and no pawn of the mover's colour on the
    board, but the moved one, is flagged. *)
Theorem completed_move_sets_pawn_flags (w w' : World) (end_pos : Z * Z)
    (sel : ref) (p : Piece) :
  selected_piece (self w) = Some sel ->
  deref (heap w) sel = Ok p ->
  is_class Pawn p
    && ((fst (get_board_position (self w) end_pos) =? 0)
        || (fst (get_board_position (self w) end_pos) =? 7)) = false ->
  run (move_piece end_pos) w = (w', Ok true) ->
  (exists p',
      deref (heap w') sel = Ok p' /\
      (cls p = Pawn ->
       has_moved p' = true /\
       en_passant_vulnerable p'
       = (Z.abs (fst (position p) - fst (get_board_position (self w) end_pos)) =? 2))) /\
  (forall q x,
      q <> sel -> deref (heap w) q = Ok x ->
      exists x',
        deref (heap w') q = Ok x' /\
        has_moved x' = has_moved x /\
        (en_passant_vulnerable x' = en_passant_vulnerable x \/
         (en_passant_vulnerable x' = false /\ cls x = Pawn /\ color x = color p))) /\
  (forall r c q x,
      board_get (heap w') (board (self w')) r c = Ok (Some q) ->
      q <> sel ->
      deref (heap w') q = Ok x -> cls x = Pawn -> color x = color p ->
      en_passant_vulnerable x = false).
Proof.
  intros Hsel Hp Hnp Hrun.
  assert (Hboard : board (self w') = board (self w)).
  { assert (keeps_attr board (move_piece end_pos))
      by (unfold move_piece; keeps_attr_steps).
    by eapply keeps_attr_run. }
  unfold move_piece in Hrun.
  destruct (BOARD_SIZE <=? end_pos.2); [discriminate|].
  rewrite run_bind in Hrun. cbn [get_self run] in Hrun.
  destruct (get_board_position (self w) end_pos) as [end_row end_col].
  cbn [fst] in Hnp |- *.
  rewrite Hsel, run_bind in Hrun. cbn [mret M_ret run] in Hrun.
  rewrite run_bind in Hrun. unfold load in Hrun. rewrite run_bind in Hrun.
  cbn [get_heap run lift] in Hrun. rewrite Hp in Hrun.
  destruct (position p) as [start_row start_col] eqn:Hpos.
  destruct (existsb _ _); [|discriminate].
  cbn [fst].
  apply run_bind_Ok in Hrun as (wa & [] & Ha & Hrun).
  apply run_bind_Ok in Hrun as (wb & [] & Hb & Hrun).
  apply run_bind_Ok in Hrun as (wc & [] & Hc & Hrun).
  apply run_bind_Ok in Hrun as (wd & [] & Hdd & Hrun).
  rewrite Hnp in Hrun.
  apply run_bind_Ok in Hrun as (we & [] & He & Hrun).
  apply run_bind_Ok in Hrun as (wf & [] & Hf & Hrun).
  apply en_passant_removal_keeps_objs in Ha as [Hoa Hsa].
  apply board_set_keeps_objs in Hb as [Hob Hsb].
  apply board_set_keeps_objs in Hc as [Hoc Hsc].
  apply update_piece_run in Hdd as (x & Hx & ->).
  apply deref_lookup in Hx, Hp.
  rewrite Hoc, Hob, Hoa in Hx.
  assert (x = p) as -> by (exact (lookup_unique _ _ _ _ Hx Hp)).
  set (moved := set_position (end_row, end_col) p) in *.
  assert (Hlt : (sel < length (objs (heap w)))%nat) by (by eapply lookup_lt_Some).
  (* the pawn updates *)
  assert (He' : exists pe,
             objs (heap we) = <[sel:=pe]> (objs (heap w)) /\
             self we = self w /\ lsts (heap we) = lsts (heap wc) /\
             (cls p = Pawn ->
              has_moved pe = true /\
              en_passant_vulnerable pe = (Z.abs (start_row - end_row) =? 2))).
  { unfold is_class in He. destruct (bool_decide (cls p = Pawn)) eqn:Hpawn.
    - apply run_bind_Ok in He as (w1 & [] & H1 & H2).
      apply update_piece_run in H1 as (x1 & Hx1 & ->).
      apply update_piece_run in H2 as (x2 & Hx2 & ->).
      apply deref_lookup in Hx1, Hx2. cbn [heap objs] in Hx1, Hx2.
      rewrite Hoc, Hob, Hoa in Hx1, Hx2.
      rewrite list_lookup_insert_eq in Hx1 by done. injection Hx1 as <-.
      rewrite list_lookup_insert_eq in Hx2 by (by rewrite length_insert).
      injection Hx2 as <-.
      eexists. cbn [heap objs lsts self]. rewrite Hoc, Hob, Hoa.
      rewrite !list_insert_insert_eq. split; [reflexivity|].
      split; [congruence|]. split; [done|]. intros _. by split.
    - injection He as <-. exists moved. cbn [heap objs lsts self].
      rewrite Hoc, Hob, Hoa. split; [done|]. split; [congruence|]. split; [done|].
      apply bool_decide_eq_false in Hpawn. done. }
  clear He. destruct He' as (pe & Hoe & Hse & Hle & Hpe).
  apply reset_en_passant_run in Hf as (Hlf & Hsf & Hcf & Huf).
  assert (Hgrow : heap_grows wf w').
  { eapply grows_run; [|exact Hrun].
    apply grows_bind; [apply grows_modify_self|intros ?].
    apply grows_bind; [apply grows_modify_self|intros ?].
    apply grows_bind; [apply grows_update_check_status|intros ?].
    apply grows_bind; [apply grows_update_game_over|intros ?].
    apply grows_bind; [apply grows_update_position_history|intros ?].
    apply grows_ret. }
  clear Hrun. destruct Hgrow as (Hof & extra & Hlw).
  destruct Hcf as [Hlen Hcf]. rewrite Hoe in Hcf.
  split; [|split].
  - destruct (Hcf sel pe) as (p' & Hp' & Hcase);
      [by apply list_lookup_insert_eq|].
    exists p'. split; [apply deref_lookup; by rewrite Hof|].
    destruct Hcase as [->|(_ & _ & _ & Hne)]; [exact Hpe|done].
  - intros q y Hq Hy. apply deref_lookup in Hy.
    destruct (Hcf q y) as (y' & Hy' & Hcase);
      [by rewrite list_lookup_insert_ne|].
    exists y'. split; [apply deref_lookup; by rewrite Hof|].
    destruct Hcase as [->|(-> & Hcls & Hclr & _)]; [by split; [|left]|].
    split; [done|]. right. by repeat split.
  - intros r c q y Hget Hq Hy Hcls Hclr. rewrite Hboard in Hget.
    unfold board_get in Hget.
    apply Res_bind_Ok in Hget as (rr & Hrr & Hget).
    apply Res_bind_Ok in Hget as (row & Hrow & Hcell).
    apply getitem_elem, list_elem_of_In in Hrr.
    rewrite <- Hse, <- Hsf in Hrr. rewrite Hsf in Hrr.
    destruct (Huf rr Hrr) as (row0 & Hrow0 & Hun).
    unfold deref_list in Hrow. rewrite Hlw, (lookup_app_l_Some _ _ _ _ Hrow0) in Hrow.
    injection Hrow as <-.
    apply getitem_elem, list_elem_of_In in Hcell.
    apply deref_lookup in Hy. rewrite Hof in Hy.
    by apply (Hun q Hcell Hq y).
Qed.

Lemma completed_move_sets_pawn_flags_witness :
  let w := fst (run (handle_click (square_center (1, 6)))
                  (fst (run (play (take 11 en_passant_game)) (new_game white)))) in
  let end_pos := square_center (3, 6) in
  let w' := fst (run (move_piece end_pos) w) in
  let p := mkPiece Pawn black (1, 6) false false in
  (exists p',
      deref (heap w') 12%nat = Ok p' /\
      (cls p = Pawn ->
       has_moved p' = true /\
       en_passant_vulnerable p'
       = (Z.abs (fst (position p) - fst (get_board_position (self w) end_pos)) =? 2))) /\
  (forall q x,
      q <> 12%nat -> deref (heap w) q = Ok x ->
      exists x',
        deref (heap w') q = Ok x' /\
        has_moved x' = has_moved x /\
        (en_passant_vulnerable x' = en_passant_vulnerable x \/
         (en_passant_vulnerable x' = false /\ cls x = Pawn /\ color x = color p))) /\
  (forall r c q x,
      board_get (heap w') (board (self w')) r c = Ok (Some q) ->
      q <> 12%nat ->
      deref (heap w') q = Ok x -> cls x = Pawn -> color x = color p ->
      en_passant_vulnerable x = false).
Proof.
  intros w end_pos w' p.
  apply (completed_move_sets_pawn_flags w w' end_pos 12%nat p).
  - vm_compute. reflexivity.
  - vm_compute. reflexivity.
  - vm_compute. reflexivity.
  - vm_compute. reflexivity.
Defined.

(** ** The simulated move *)

Lemma Forall2_lookup_prefix {A} (l extra : list A) (rows : list ref) (contents : list A) :
  Forall (fun rr => (rr < length l)%nat) rows ->
  Forall2 (fun rr row => (l ++ extra) !! rr = Some row) rows contents ->
  Forall2 (fun rr row => l !! rr = Some row) rows contents.
Proof.
  intros Hrows Hall. revert Hrows.
  induction Hall as [|rr row rows contents Hrr Hall IH]; intros Hrows; [constructor|].
  apply Forall_cons in Hrows as [Hlt Hrest].
  constructor; [|by apply IH].
  by rewrite lookup_app_l in Hrr.
Qed.

Lemma copy_rows_run (rows : list ref) (w w' : World) (refs : list ref) :
  Forall (fun rr => (rr < length (lsts (heap w)))%nat) rows ->
  run (map_M (fun rr => h ← get_heap; row ← lift (deref_list h rr); alloc_list row)
             rows) w = (w', Ok refs) ->
  exists contents,
    Forall2 (fun rr row => lsts (heap w) !! rr = Some row) rows contents /\
    refs = seq (length (lsts (heap w))) (length rows) /\
    w' = mkWorld (mkHeap (objs (heap w)) (lsts (heap w) ++ contents)) (self w).
Proof.
  revert w refs. induction rows as [|rr rest IH]; intros w refs Hrows; cbn [map_M].
  - intros [= <- <-]. exists []. split; [constructor|]. split; [done|].
    rewrite app_nil_r. by destruct w as [[] ?].
  - apply Forall_cons in Hrows as [Hrr Hrest].
    intros Hrun. apply run_bind_Ok in Hrun as (w1 & r & Hcopy & Hrun).
    apply run_bind_Ok in Hrun as (w2 & refs' & Hrec & Hrun).
    injection Hrun as <- <-.
    rewrite run_bind in Hcopy. cbn [get_heap run] in Hcopy.
    rewrite run_bind in Hcopy. cbn [lift run] in Hcopy. unfold deref_list in Hcopy.
    destruct (lsts (heap w) !! rr) as [row|] eqn:Hrow; [|discriminate].
    unfold alloc_list in Hcopy. rewrite run_bind in Hcopy. cbn [get_heap run] in Hcopy.
    rewrite run_bind in Hcopy. cbn [put_heap run mret M_ret heap objs lsts self] in Hcopy.
    injection Hcopy as <- <-.
    apply IH in Hrec as (contents & Hall & -> & ->).
    2:{ cbn [heap lsts]. eapply Forall_impl; [exact Hrest|]. cbn. intros x Hx.
        rewrite length_app. lia. }
    cbn [heap objs lsts self] in *.
    exists (row :: contents). split; [|split].
    + constructor; [done|]. by eapply Forall2_lookup_prefix.
    + cbn [length seq]. f_equal. f_equal. rewrite length_app. cbn. lia.
    + by rewrite <- app_assoc.
Qed.

Lemma copy_rows_grid (b : list ref) (w w' : World) (temp : list ref) :
  grid (heap w) b ->
  run (map_M (fun rr => h ← get_heap; row ← lift (deref_list h rr); alloc_list row)
             b) w = (w', Ok temp) ->
  grid (heap w') temp /\
  objs (heap w') = objs (heap w) /\
  self w' = self w /\
  forall s, in_bounds s ->
            board_get (heap w') temp (fst s) (snd s)
            = board_get (heap w) b (fst s) (snd s).
Proof.
  intros Hgrid Hrun. pose proof Hgrid as (Hlen & Hnd & Hrows).
  apply copy_rows_run in Hrun as (contents & Hall & -> & ->).
  2:{ apply Forall_forall. intros rr Hrr. apply list_elem_of_In in Hrr.
      destruct (Hrows rr Hrr) as (row & Hrow & _). by eapply lookup_lt_Some. }
  cbn [heap objs lsts self]. rewrite Hlen.
  pose proof (Forall2_length _ _ _ Hall) as Hclen. rewrite Hlen in Hclen.
  set (k := length (lsts (heap w))).
  assert (Hrow : forall i rr, b !! i = Some rr ->
                   exists row, lsts (heap w) !! rr = Some row /\
                               length row = 8%nat /\
                               (lsts (heap w) ++ contents) !! (k + i)%nat = Some row).
  { intros i rr Hi.
    destruct (Forall2_lookup_l _ _ _ _ _ Hall Hi) as (row & Hci & Hrr).
    exists row. split; [done|]. split.
    - destruct (Hrows rr) as (row' & Hrow' & Hl'); [by eapply list_elem_of_In, list_elem_of_lookup_2|].
      congruence.
    - rewrite lookup_app_r by (unfold k; lia).
      by replace (k + i - length (lsts (heap w)))%nat with i by (unfold k; lia). }
  split; [|split; [done|split; [done|]]].
  - split; [by rewrite length_seq|]. split; [apply NoDup_ListNoDup, List.seq_NoDup|].
    intros rr Hrr. apply in_seq in Hrr.
    destruct (ref_lookup b (rr - k)%nat) as [r0 Hr0]; [lia|].
    destruct (Hrow _ _ Hr0) as (row & _ & Hl & Hlook).
    exists row. split; [|done]. by replace (k + (rr - k))%nat with rr in Hlook by lia.
  - intros s Hs.
    destruct (board_get_grid _ _ _ Hgrid Hs) as (rr & row & cell & Hrr & Hrw & Hrl & Hcell & ->).
    destruct (Hrow _ _ Hrr) as (row' & Hrow' & _ & Hlook).
    assert (row' = row) as -> by congruence.
    destruct Hs as [Hr Hc]. unfold board_get.
    assert (Hget : getitem (A:=ref) (seq k 8) (fst s) = Ok (k + Z.to_nat (fst s))%nat).
    { destruct (getitem_in_range (A:=ref) (seq k 8) (fst s)) as (x & Hx & ->);
        [by rewrite length_seq|done|].
      apply lookup_seq in Hx as [-> _]. done. }
    rewrite Hget. res_simpl. unfold deref_list. cbn [lsts]. unfold ref in *.
    rewrite Hlook. res_simpl.
    destruct (getitem_in_range row (snd s) Hrl Hc) as (x & Hx & ->). congruence.
Qed.

Lemma move_causes_check_run (w w' : World) (piece : ref) (p : Piece)
    (move : Square) (bad : bool) :
  grid (heap w) (board (self w)) ->
  deref (heap w) piece = Ok p ->
  in_bounds (position p) -> in_bounds move -> move <> position p ->
  run (move_causes_check piece move) w = (w', Ok bad) ->
  exists temp,
    grid (heap w') temp /\
    objs (heap w') = objs (heap w) /\
    board_get (heap w') temp (fst move) (snd move) = Ok (Some piece) /\
    board_get (heap w') temp (fst (position p)) (snd (position p)) = Ok None /\
    (forall s, in_bounds s -> s <> move -> s <> position p ->
               board_get (heap w') temp (fst s) (snd s)
               = board_get (heap w) (board (self w)) (fst s) (snd s)) /\
    exists king,
      find_king (heap w') (color p) temp = Ok king /\
      is_square_under_attack (heap w') king (color p) temp = Ok bad.
Proof.
  intros Hgrid Hp Hstart Hmove Hne Hrun. unfold move_causes_check in Hrun.
  rewrite run_bind in Hrun. cbn [get_self run] in Hrun.
  apply run_bind_Ok in Hrun as (w1 & temp & Hcopy & Hrun).
  apply copy_rows_grid in Hcopy as (Hg1 & Ho1 & Hs1 & Hc1); [|done].
  rewrite run_bind in Hrun. unfold load in Hrun. rewrite run_bind in Hrun.
  cbn [get_heap run lift] in Hrun.
  assert (Hp1 : deref (heap w1) piece = Ok p) by (unfold deref; by rewrite Ho1).
  rewrite Hp1 in Hrun.
  destruct (position p) as [start_row start_col] eqn:Hpos.
  destruct move as [end_row end_col].
  apply run_bind_Ok in Hrun as (w2 & [] & Hset1 & Hrun).
  apply run_bind_Ok in Hrun as (w3 & [] & Hset2 & Hrun).
  destruct (board_set_grid temp (end_row, end_col) (Some piece) w1 Hg1 Hmove)
    as (w2' & Hrun2 & Hg2 & Hs2 & Ho2 & Hget2 & Hf2).
  cbn [fst snd] in Hrun2. rewrite Hrun2 in Hset1. injection Hset1 as ->.
  destruct (board_set_grid temp (start_row, start_col) None w2 Hg2 Hstart)
    as (w3' & Hrun3 & Hg3 & Hs3 & Ho3 & Hget3 & Hf3).
  cbn [fst snd] in Hrun3. rewrite Hrun3 in Hset2. injection Hset2 as ->.
  rewrite run_bind in Hrun. cbn [get_heap run] in Hrun.
  rewrite run_bind in Hrun. cbn [lift run] in Hrun.
  destruct (find_king (heap w3) (color p) temp) as [king|] eqn:Hking; [|discriminate].
  cbn [lift run] in Hrun.
  destruct (is_square_under_attack (heap w3) king (color p) temp) as [a|] eqn:Hatt;
    [|discriminate].
  injection Hrun as <- <-.
  exists temp. split; [done|]. split; [congruence|]. split.
  { rewrite (Hf3 (end_row, end_col)) by done. exact Hget2. }
  split; [exact Hget3|]. split.
  { intros s Hs H1 H2. by rewrite Hf3, Hf2, Hc1. }
  by exists king.
Qed.

(** X26. [move_causes_check] tries the move on a copy of the board: on the
    copy the piece stands on the destination, its start square is empty, and
    every other square holds what the board holds (the pawn that an en
    passant capture would take is still there); no piece object is changed,
    not even the position of the piece that is tried. Its answer is that of
    [is_square_under_attack] for the square that [find_king] finds on the
    copy. *)
Theorem move_causes_check_simulates (w w' : World) (piece : ref) (p : Piece)
    (move : Square) (bad : bool) :
  grid (heap w) (board (self w)) ->
  deref (heap w) piece = Ok p ->
  in_bounds (position p) -> in_bounds move -> move <> position p ->
  run (move_causes_check piece move) w = (w', Ok bad) ->
  exists temp,
    objs (heap w') = objs (heap w) /\
    board_get (heap w') temp (fst move) (snd move) = Ok (Some piece) /\
    board_get (heap w') temp (fst (position p)) (snd (position p)) = Ok None /\
    (forall s, in_bounds s -> s <> move -> s <> position p ->
               board_get (heap w') temp (fst s) (snd s)
               = board_get (heap w) (board (self w)) (fst s) (snd s)) /\
    exists king,
      find_king (heap w') (color p) temp = Ok king /\
      is_square_under_attack (heap w') king (color p) temp = Ok bad.
Proof.
  intros Hgrid Hp Hstart Hmove Hne Hrun.
  destruct (move_causes_check_run _ _ _ _ _ _ Hgrid Hp Hstart Hmove Hne Hrun)
    as (temp & _ & H).
  by exists temp.
Qed.

Lemma move_causes_check_simulates_witness :
  let w := en_passant_position in
  let p := mkPiece Pawn white (3, 5) true false in
  let w' := fst (run (move_causes_check 11%nat (2, 6)) w) in
  exists temp,
    objs (heap w') = objs (heap w) /\
    board_get (heap w') temp 2 6 = Ok (Some 11%nat) /\
    board_get (heap w') temp 3 5 = Ok None /\
    (forall s, in_bounds s -> s <> (2, 6) -> s <> (3, 5) ->
               board_get (heap w') temp (fst s) (snd s)
               = board_get (heap w) (board (self w)) (fst s) (snd s)) /\
    exists king,
      find_king (heap w') white temp = Ok king /\
      is_square_under_attack (heap w') king white temp = Ok false.
Proof.
  intros w p w'.
  apply (move_causes_check_simulates w w' 11%nat p (2, 6) false).
  - apply gridb_true. vm_compute. reflexivity.
  - vm_compute. reflexivity.
  - unfold in_bounds. cbn. lia.
  - unfold in_bounds. cbn. lia.
  - discriminate.
  - vm_compute. reflexivity.
Defined.

(** ** Boards with the same cells *)

Lemma getitem_wrap {A} (l : list A) (i : Z) :
  length l = 8%nat ->
  getitem l i = match py_index 8 i with
                | Some n => getitem l (Z.of_nat n)
                | None => Raise IndexError
                end.
Proof.
  intros Hlen. unfold getitem. rewrite Hlen. change (Z.of_nat 8) with 8.
  destruct (py_index 8 i) as [n|] eqn:Hn; [|done].
  apply py_index_lt in Hn. rewrite py_index_in_range by lia. by rewrite Nat2Z.id.
Qed.

Lemma board_get_wrap (h : Heap) (b : list ref) (r c : Z) :
  grid h b ->
  board_get h b r c =
  match py_index 8 r, py_index 8 c with
  | Some i, Some j => board_get h b (Z.of_nat i) (Z.of_nat j)
  | _, _ => Raise IndexError
  end.
Proof.
  intros (Hlen & Hnd & Hrows). unfold board_get.
  rewrite (getitem_wrap b r Hlen).
  destruct (py_index 8 r) as [i|] eqn:Hi; [|done].
  apply py_index_lt in Hi.
  destruct (getitem_in_range b (Z.of_nat i) Hlen) as (rr & Hrr & ->); [lia|].
  res_simpl.
  destruct (Hrows rr) as (row & Hrow & Hrl);
    [by eapply list_elem_of_In, list_elem_of_lookup_2|].
  unfold deref_list. rewrite Hrow. res_simpl.
  rewrite (getitem_wrap row c Hrl). by destruct (py_index 8 c).
Qed.

Lemma board_get_ext (h1 h2 : Heap) (b1 b2 : list ref) :
  grid h1 b1 -> grid h2 b2 ->
  (forall s, in_bounds s ->
             board_get h1 b1 (fst s) (snd s) = board_get h2 b2 (fst s) (snd s)) ->
  forall r c, board_get h1 b1 r c = board_get h2 b2 r c.
Proof.
  intros H1 H2 Hcells r c.
  rewrite (board_get_wrap h1 b1 r c H1), (board_get_wrap h2 b2 r c H2).
  destruct (py_index 8 r) as [i|] eqn:Hi; [|done].
  destruct (py_index 8 c) as [j|] eqn:Hj; [|done].
  apply py_index_lt in Hi, Hj.
  apply (Hcells (Z.of_nat i, Z.of_nat j)). split; cbn [fst snd]; lia.
Qed.

Lemma collect_ext {A B} (f g : A -> Res (list B)) (l : list A) :
  (forall a, In a l -> f a = g a) -> collect f l = collect g l.
Proof.
  induction l as [|a l IH]; cbn [collect]; intros H; [done|].
  rewrite (H a) by (by left). rewrite IH; [done|]. intros a' Ha'. apply H. by right.
Qed.

Section SameCells.
Variables h1 h2 : Heap.
Variables b1 b2 : list ref.
Hypothesis Hcells : forall r c, board_get h1 b1 r c = board_get h2 b2 r c.
Hypothesis Hobjs : objs h1 = objs h2.

Lemma Pawn_forward_same (self : Piece) :
  Pawn_forward h1 b1 self = Pawn_forward h2 b2 self.
Proof. unfold Pawn_forward. destruct (position self). by rewrite !Hcells. Qed.

Lemma Pawn_diagonal_same (self : Piece) (dcol : Z) :
  Pawn_diagonal h1 b1 self dcol = Pawn_diagonal h2 b2 self dcol.
Proof.
  unfold Pawn_diagonal, deref. destruct (position self). by rewrite !Hcells, Hobjs.
Qed.

Lemma slide_same (clr : Color) (pos : Square) (dr dc : Z) (steps : list Z) :
  slide h1 b1 clr pos dr dc steps = slide h2 b2 clr pos dr dc steps.
Proof.
  induction steps as [|i rest IH]; cbn [slide]; [done|].
  unfold deref. by rewrite Hcells, IH, Hobjs.
Qed.

Lemma jump_same (self : Piece) (d : Z * Z) : jump h1 b1 self d = jump h2 b2 self d.
Proof. unfold jump, deref. by rewrite Hcells, Hobjs. Qed.

Lemma get_valid_moves_same (self : Piece) :
  get_valid_moves h1 b1 self = get_valid_moves h2 b2 self.
Proof.
  unfold get_valid_moves, Pawn_get_valid_moves, _get_straight_moves,
    _get_diagonal_moves.
  rewrite Pawn_forward_same.
  rewrite (collect_ext (Pawn_diagonal h1 b1 self) (Pawn_diagonal h2 b2 self))
    by (intros; apply Pawn_diagonal_same).
  rewrite (collect_ext (jump h1 b1 self) (jump h2 b2 self))
    by (intros; apply jump_same).
  rewrite (collect_ext (jump h1 b1 self) (jump h2 b2 self) king_moves)
    by (intros; apply jump_same).
  rewrite !(collect_ext
              (fun d : Z * Z => slide h1 b1 (color self) (position self) d.1 d.2 range_1_8)
              (fun d : Z * Z => slide h2 b2 (color self) (position self) d.1 d.2 range_1_8))
    by (intros; apply slide_same).
  done.
Qed.

Lemma find_king_from_same (clr : Color) (sqs : list Square) :
  find_king_from h1 clr b1 sqs = find_king_from h2 clr b2 sqs.
Proof.
  induction sqs as [|[row col] rest IH]; cbn [find_king_from]; [done|].
  unfold deref. by rewrite Hcells, IH, Hobjs.
Qed.

Lemma is_square_under_attack_from_same (target : option Square) (clr : Color)
    (sqs : list Square) :
  is_square_under_attack_from h1 target clr b1 sqs
  = is_square_under_attack_from h2 target clr b2 sqs.
Proof.
  induction sqs as [|[row col] rest IH]; cbn [is_square_under_attack_from]; [done|].
  rewrite Hcells, IH. destruct (board_get h2 b2 row col) as [[q|]|]; [|done|done].
  res_simpl. unfold deref. rewrite Hobjs. destruct (objs h2 !! q) as [qp|]; [|done].
  res_simpl. by rewrite get_valid_moves_same.
Qed.

End SameCells.

(** ** Queries in worlds that show the same board *)

Lemma valid_moves_on_board (h : Heap) (board : list ref) (self : Piece)
    (moves : list Square) :
  get_valid_moves h board self = Ok moves -> piece_ok self ->
  Forall in_bounds moves.
Proof.
  intros H [Hpos Hguard]. apply Forall_forall. intros dest Hin.
  apply list_elem_of_In in Hin. unfold get_valid_moves in H.
  assert (Hslide : forall dirs,
             slides_to h board (color self) (position self) dirs dest -> in_bounds dest).
  { by intros dirs (d & i & _ & _ & _ & _ & Hb & _). }
  assert (Hjump : forall offsets,
             jumps_to h board (color self) (position self) offsets dest -> in_bounds dest).
  { by intros offsets (d & _ & _ & Hb & _). }
  destruct (cls self) eqn:Hcls.
  - apply (Pawn_get_valid_moves_spec _ _ _ _ dest H) in Hin.
    unfold pawn_moves_to in Hin. cbv zeta in Hin.
    destruct Hpos as [Hr Hc].
    destruct Hin as (Ha & [[-> _]|[(-> & Hm & _)|(dcol & _ & -> & Hcol & _)]]).
    + by split.
    + specialize (Hguard eq_refl Hm). split; cbn [fst snd]; [|done].
      destruct (color self); cbn in *; lia.
    + by split.
  - apply (Hslide rook_directions). by apply (collect_slide_iff _ _ _ _ _ _ dest H).
  - apply (Hjump knight_moves). by apply (collect_jump_iff _ _ _ _ _ dest H).
  - apply (Hslide bishop_directions). by apply (collect_slide_iff _ _ _ _ _ _ dest H).
  - apply Res_bind_Ok in H as (straight & Hs & H).
    apply Res_bind_Ok in H as (diagonal & Hd & H). injection H as <-.
    apply in_app_or in Hin as [Hin|Hin].
    + apply (Hslide rook_directions). by apply (collect_slide_iff _ _ _ _ _ _ dest Hs).
    + apply (Hslide bishop_directions). by apply (collect_slide_iff _ _ _ _ _ _ dest Hd).
  - apply (Hjump king_moves). by apply (collect_jump_iff _ _ _ _ _ dest H).
Qed.

Lemma same_board_refl (w : World) :
  grid (heap w) (board (self w)) -> same_board w w.
Proof. intros Hg. split; [done|]. split; [done|]. split; [done|]. by split. Qed.

Lemma same_board_grows (w w1 w2 : World) :
  same_board w w1 -> heap_grows w1 w2 -> self w2 = self w1 -> same_board w w2.
Proof.
  intros (Hs & Ho & Hg & Hg1 & Hc) (Ho2 & Hl2) Hs2.
  split; [congruence|]. split; [congruence|]. split; [done|].
  split; [by eapply grid_grows|].
  intros s Hs'. rewrite <- (Hc s Hs').
  destruct (board_get_grid _ _ _ Hg1 Hs') as (? & ? & cell & _ & _ & _ & _ & Hget).
  rewrite Hget. by eapply board_get_lists_grow.
Qed.

Lemma same_board_grows_l (w wa w1 : World) :
  same_board w w1 -> heap_grows w wa -> self wa = self w -> same_board wa w1.
Proof.
  intros (Hs & Ho & Hg & Hg1 & Hc) (Hoa & Hla) Hsa.
  unfold same_board. rewrite Hsa.
  split; [done|]. split; [congruence|]. split; [by eapply grid_grows|].
  split; [done|].
  intros s Hs'. rewrite (Hc s Hs').
  destruct (board_get_grid _ _ _ Hg Hs') as (? & ? & cell & _ & _ & _ & _ & Hget).
  rewrite Hget. symmetry. by eapply board_get_lists_grow.
Qed.

Lemma grows_move_causes_check (piece : ref) (move : Square) :
  grows (move_causes_check piece move).
Proof. apply grows_of_extends. intros w0. by apply move_causes_check_extends. Qed.

Lemma heap_only_move_causes_check (piece : ref) (move : Square) :
  heap_only (move_causes_check piece move).
Proof. apply heap_only_of_extends. intros w0. by apply move_causes_check_extends. Qed.

Lemma move_causes_check_same (w w1 w' w1' : World) (piece : ref) (p : Piece)
    (move : Square) (bad bad1 : bool) :
  same_board w w1 ->
  deref (heap w) piece = Ok p ->
  in_bounds (position p) -> in_bounds move -> move <> position p ->
  run (move_causes_check piece move) w = (w', Ok bad) ->
  run (move_causes_check piece move) w1 = (w1', Ok bad1) ->
  bad = bad1.
Proof.
  intros (Hs & Ho & Hg & Hg1 & Hc) Hp Hstart Hmove Hne Hrun Hrun1.
  assert (Hp1 : deref (heap w1) piece = Ok p) by (unfold deref; by rewrite Ho).
  rewrite <- Hs in Hg1.
  destruct (move_causes_check_run _ _ _ _ _ _ Hg Hp Hstart Hmove Hne Hrun)
    as (temp & Hgt & Hot & Hm & Hst & Hrest & king & Hking & Hatt).
  destruct (move_causes_check_run _ _ _ _ _ _ Hg1 Hp1 Hstart Hmove Hne Hrun1)
    as (temp1 & Hgt1 & Hot1 & Hm1 & Hst1 & Hrest1 & king1 & Hking1 & Hatt1).
  assert (Hcells : forall r c, board_get (heap w') temp r c
                               = board_get (heap w1') temp1 r c).
  { apply board_get_ext; [done|done|]. intros s Hsb.
    destruct (decide (s = move)) as [->|H1]; [by rewrite Hm, Hm1|].
    destruct (decide (s = position p)) as [->|H2]; [by rewrite Hst, Hst1|].
    rewrite Hrest, Hrest1 by done. rewrite Hs. symmetry. by apply Hc. }
  assert (Hobjs : objs (heap w') = objs (heap w1')) by congruence.
  unfold find_king in Hking, Hking1.
  rewrite (find_king_from_same _ _ _ _ Hcells Hobjs) in Hking.
  assert (king1 = king) as -> by congruence.
  unfold is_square_under_attack in Hatt, Hatt1.
  rewrite (is_square_under_attack_from_same _ _ _ _ Hcells Hobjs) in Hatt.
  congruence.
Qed.

Lemma well_formed_grid (w : World) :
  well_formed w -> NoDup (board (self w)) -> grid (heap w) (board (self w)).
Proof.
  intros (Hos & Hrows & [Hlen Hb] & Hsel) Hnd. split; [done|]. split; [done|].
  intros rr Hrr. rewrite Forall_forall in Hb.
  specialize (Hb rr (proj2 (list_elem_of_In _ _) Hrr)).
  destruct (ref_lookup (lsts (heap w)) rr Hb) as [row Hrow].
  exists row. split; [done|].
  unfold rows_ok in Hrows. rewrite Forall_forall in Hrows.
  specialize (Hrows row (list_elem_of_lookup_2 _ _ _ Hrow)).
  unfold row_ok in Hrows. apply andb_true_iff in Hrows as [Hl _]. by apply Nat.eqb_eq.
Qed.

Lemma move_causes_check_total (w : World) (piece : ref) (move : Square) :
  well_formed w -> (piece < length (objs (heap w)))%nat -> in_bounds move ->
  exists w2 bad, run (move_causes_check piece move) w = (w2, Ok bad).
Proof.
  intros Hwf Hpiece Hmove. pose proof (well_formed_stable w Hwf) as Hst.
  destruct Hwf as (Hos & Hrows & Hb & Hsel).
  destruct (returns_run _ _ _ w
              (returns_move_causes_check _ _ _ Hos Hb piece move Hpiece Hmove) Hst)
    as (w2 & bad & Hrun & _).
  by exists w2, bad.
Qed.

Lemma get_legal_moves_total (w : World) (piece : ref) :
  well_formed w -> (piece < length (objs (heap w)))%nat ->
  exists w2 legal, run (get_legal_moves piece) w = (w2, Ok legal).
Proof.
  intros Hwf Hpiece. pose proof (well_formed_stable w Hwf) as Hst.
  destruct Hwf as (Hos & Hrows & Hb & Hsel).
  destruct (returns_run _ _ _ w
              (returns_get_legal_moves _ _ _ Hos Hb piece Hpiece) Hst)
    as (w2 & legal & Hrun & _).
  by exists w2, legal.
Qed.

Section SameBoardQueries.
Variable w : World.
Hypothesis Hwf : well_formed w.
Hypothesis Hnd : NoDup (board (self w)).

Lemma legal_among_iff (w1 w' : World) (piece : ref) (p : Piece)
    (moves legal : list Square) :
  same_board w w1 ->
  deref (heap w) piece = Ok p -> in_bounds (position p) ->
  Forall in_bounds moves -> Forall (fun m => m <> position p) moves ->
  run (legal_among piece moves) w1 = (w', Ok legal) ->
  same_board w w' /\
  forall m, In m legal <->
            In m moves /\
            exists w2, run (move_causes_check piece m) w = (w2, Ok false).
Proof.
  intros Hsame Hp Hpos Hin Hne. revert w1 legal Hsame.
  assert (Hpiece : (piece < length (objs (heap w)))%nat).
  { apply deref_lookup in Hp. by eapply lookup_lt_Some. }
  induction moves as [|move rest IH]; intros w1 legal Hsame; cbn [legal_among].
  - intros [= <- <-]. split; [done|]. intros m. split; [intros []|by intros [[] _]].
  - apply Forall_cons in Hin as [Hmove Hin]. apply Forall_cons in Hne as [Hmne Hne].
    intros Hrun. apply run_bind_Ok in Hrun as (wa & bad & Hbad & Hrun).
    apply run_bind_Ok in Hrun as (wb & more & Hmore & Hrun).
    injection Hrun as <- <-.
    assert (Hsa : same_board w wa).
    { eapply same_board_grows; [exact Hsame| |].
      - eapply grows_run; [apply grows_move_causes_check|exact Hbad].
      - eapply heap_only_run; [apply heap_only_move_causes_check|exact Hbad]. }
    destruct (IH Hin Hne wa more Hsa Hmore) as (Hsb & Hiff).
    split; [done|].
    destruct (move_causes_check_total w piece move Hwf Hpiece Hmove) as (w2 & bad0 & Hrun0).
    assert (bad0 = bad) as ->
      by (exact (move_causes_check_same _ _ _ _ _ _ _ _ _ Hsame Hp Hpos Hmove Hmne
                   Hrun0 Hbad)).
    intros m. destruct bad.
    + rewrite Hiff. split.
      * intros [Hm Hok]. split; [by right|done].
      * intros [[<-|Hm] Hok]; [|done].
        destruct Hok as (w3 & Hok). rewrite Hrun0 in Hok. discriminate.
    + cbn [In]. rewrite Hiff. split.
      * intros [<-|[Hm Hok]]; [|by split; [right|]].
        split; [by left|]. by exists w2.
      * intros [[<-|Hm] Hok]; [by left|by right].
Qed.

Lemma same_board_valid_moves (w1 : World) (p : Piece) :
  same_board w w1 ->
  get_valid_moves (heap w1) (board (self w1)) p
  = get_valid_moves (heap w) (board (self w)) p.
Proof.
  intros (Hs & Ho & Hg & Hg1 & Hc). rewrite Hs.
  apply get_valid_moves_same; [|done].
  by apply board_get_ext.
Qed.

Lemma get_legal_moves_filter (w1 w' : World) (piece : ref) (p : Piece)
    (legal : list Square) :
  same_board w w1 ->
  deref (heap w) piece = Ok p ->
  run (get_legal_moves piece) w1 = (w', Ok legal) ->
  same_board w w' /\
  exists potential,
    get_valid_moves (heap w) (board (self w)) p = Ok potential /\
    forall m, In m legal <->
              In m potential /\
              exists w2, run (move_causes_check piece m) w = (w2, Ok false).
Proof.
  intros Hsame Hp Hrun.
  assert (Hok : piece_ok p).
  { destruct Hwf as (Hos & _). by eapply deref_piece_ok. }
  unfold get_legal_moves in Hrun.
  rewrite run_bind in Hrun. cbn [get_self run] in Hrun.
  rewrite run_bind in Hrun. cbn [get_heap run] in Hrun.
  rewrite run_bind in Hrun. cbn [lift run] in Hrun.
  assert (Hp1 : deref (heap w1) piece = Ok p).
  { destruct Hsame as (_ & Ho & _). unfold deref. by rewrite Ho. }
  rewrite Hp1 in Hrun. rewrite run_bind in Hrun. cbn [lift run] in Hrun.
  rewrite (same_board_valid_moves w1 p Hsame) in Hrun.
  destruct (get_valid_moves (heap w) (board (self w)) p) as [potential|] eqn:Hpot;
    [|discriminate].
  destruct (legal_among_iff w1 w' piece p potential legal Hsame Hp) as (Hs' & Hiff);
    [apply Hok|by eapply valid_moves_on_board| |done|].
  - apply Forall_forall. intros m Hm. apply list_elem_of_In in Hm.
    by destruct (valid_move_elsewhere_and_free _ _ _ _ _ Hpot Hm).
  - split; [done|]. by exists potential.
Qed.

Lemma get_legal_moves_same_members (w1 w' w2 : World) (piece : ref)
    (l l1 : list Square) :
  same_board w w1 ->
  run (get_legal_moves piece) w1 = (w', Ok l1) ->
  run (get_legal_moves piece) w = (w2, Ok l) ->
  forall m, In m l <-> In m l1.
Proof.
  intros Hsame Hrun1 Hrun.
  pose proof (well_formed_grid w Hwf Hnd) as Hgrid.
  assert (Hp : exists p, deref (heap w) piece = Ok p).
  { unfold get_legal_moves in Hrun.
    rewrite run_bind in Hrun. cbn [get_self run] in Hrun.
    rewrite run_bind in Hrun. cbn [get_heap run] in Hrun.
    rewrite run_bind in Hrun. cbn [lift run] in Hrun.
    destruct (deref (heap w) piece) as [p|]; [by exists p|discriminate]. }
  destruct Hp as [p Hp].
  destruct (get_legal_moves_filter w1 w' piece p l1 Hsame Hp Hrun1)
    as (_ & pot1 & Hpot1 & Hiff1).
  destruct (get_legal_moves_filter w w2 piece p l (same_board_refl w Hgrid) Hp Hrun)
    as (_ & pot & Hpot & Hiff).
  assert (pot1 = pot) as -> by congruence.
  intros m. by rewrite Hiff, Hiff1.
Qed.

Lemma has_no_legal_moves_from_iff (clr : Color) (sqs : list Square)
    (w1 w' : World) (b : bool) :
  same_board w w1 ->
  Forall in_bounds sqs ->
  run (has_no_legal_moves_from clr sqs) w1 = (w', Ok b) ->
  b = true <->
  forall s q qp,
    In s sqs ->
    board_get (heap w) (board (self w)) (fst s) (snd s) = Ok (Some q) ->
    deref (heap w) q = Ok qp -> color qp = clr ->
    exists w2, run (get_legal_moves q) w = (w2, Ok []).
Proof.
  intros Hsame Hsqs. revert w1 Hsame.
  induction sqs as [|[row col] rest IH]; intros w1 Hsame;
    cbn [has_no_legal_moves_from].
  - intros [= <- <-]. split; [by intros _ s q qp []|done].
  - apply Forall_cons in Hsqs as [Hs Hsqs]. specialize (IH Hsqs).
    intros Hrun.
    rewrite run_bind in Hrun. cbn [get_self run] in Hrun.
    rewrite run_bind in Hrun. unfold board_read in Hrun.
    rewrite run_bind in Hrun. cbn [get_heap run lift] in Hrun.
    pose proof Hsame as (Hs1 & Ho1 & Hg & Hg1 & Hc).
    pose proof (Hc (row, col) Hs) as Hc'. cbn [fst snd] in Hc'.
    rewrite Hs1, Hc' in Hrun.
    destruct (board_get (heap w) (board (self w)) row col) as [cell|] eqn:Hcell;
      [|discriminate].
    assert (Hskip : forall w0, same_board w w0 ->
              (forall q qp, cell = Some q -> deref (heap w) q = Ok qp ->
                            color qp = clr ->
                            exists w2, run (get_legal_moves q) w = (w2, Ok [])) ->
              run (has_no_legal_moves_from clr rest) w0 = (w', Ok b) ->
              b = true <->
              forall s q qp,
                In s ((row, col) :: rest) ->
                board_get (heap w) (board (self w)) (fst s) (snd s) = Ok (Some q) ->
                deref (heap w) q = Ok qp -> color qp = clr ->
                exists w2, run (get_legal_moves q) w = (w2, Ok [])).
    { intros w0 Hs0 Hhere Hrest. rewrite (IH w0 Hs0 Hrest). split.
      - intros H s q qp [<-|Hin] Hget Hq Hclr; [|by eapply H].
        cbn [fst snd] in Hget. rewrite Hcell in Hget. injection Hget as ->.
        by eapply Hhere.
      - intros H s q qp Hin. apply H. by right. }
    destruct cell as [q|].
    2:{ apply (Hskip w1 Hsame); [by intros q qp [=]|exact Hrun]. }
    rewrite run_bind in Hrun. unfold load in Hrun. rewrite run_bind in Hrun.
    cbn [get_heap run lift] in Hrun.
    destruct (deref (heap w1) q) as [qp|] eqn:Hq1; [|discriminate].
    assert (Hq : deref (heap w) q = Ok qp) by (unfold deref in *; by rewrite <- Ho1).
    destruct (color_eqb (color qp) clr) eqn:Hclr.
    2:{ apply (Hskip w1 Hsame); [|exact Hrun].
        intros q' qp' [= <-] Hq' Hcq. rewrite Hq in Hq'. injection Hq' as <-.
        unfold color_eqb in Hclr. by apply bool_decide_eq_false in Hclr. }
    apply run_bind_Ok in Hrun as (wa & moves & Hmoves & Hrun).
    destruct (get_legal_moves_filter w1 wa q qp moves Hsame Hq Hmoves) as (Hsa & _).
    assert (Hlt : (q < length (objs (heap w)))%nat).
    { apply deref_lookup in Hq. by eapply lookup_lt_Some. }
    destruct (get_legal_moves_total w q Hwf Hlt) as (w2 & l & Hl).
    pose proof (get_legal_moves_same_members w1 wa w2 q l moves Hsame Hmoves Hl) as Hmem.
    destruct moves as [|m ms].
    + apply (Hskip wa Hsa); [|exact Hrun].
      intros q' qp' [= <-] _ _. exists w2.
      destruct l as [|m l]; [done|]. by destruct (proj1 (Hmem m) (or_introl eq_refl)).
    + injection Hrun as <- <-. split; [done|]. intros H.
      destruct (H (row, col) q qp) as (w3 & Hw3); [by left|done|done| |].
      * unfold color_eqb in Hclr. by apply bool_decide_eq_true in Hclr.
      * rewrite Hl in Hw3. injection Hw3 as _ ->.
        by destruct (proj2 (Hmem m) (or_introl eq_refl)).
Qed.

End SameBoardQueries.

(** X27. In a well-formed world whose board is made of eight different
    rows, the legal moves of a piece are exactly its valid moves for which
    [move_causes_check], asked in that world, answers [False]. *)
Theorem legal_moves_iff (w w' : World) (piece : ref) (p : Piece)
    (legal : list Square) :
  well_formed w -> NoDup (board (self w)) ->
  deref (heap w) piece = Ok p ->
  run (get_legal_moves piece) w = (w', Ok legal) ->
  exists potential,
    get_valid_moves (heap w) (board (self w)) p = Ok potential /\
    forall m, In m legal <->
              In m potential /\
              exists w2, run (move_causes_check piece m) w = (w2, Ok false).
Proof.
  intros Hwf Hnd Hp Hrun.
  destruct (get_legal_moves_filter w Hwf w w' piece p legal
              (same_board_refl w (well_formed_grid w Hwf Hnd)) Hp Hrun) as (_ & H).
  exact H.
Qed.

Lemma legal_moves_iff_witness :
  let w := en_passant_position in
  let p := mkPiece Pawn white (3, 5) true false in
  exists potential,
    get_valid_moves (heap w) (board (self w)) p = Ok potential /\
    forall m, In m [(2, 5); (2, 4); (2, 6)] <->
              In m potential /\
              exists w2, run (move_causes_check 11%nat m) w = (w2, Ok false).
Proof.
  intros w p.
  apply (legal_moves_iff w (fst (run (get_legal_moves 11%nat) w)) 11%nat p).
  - apply well_formedb_true. vm_compute. reflexivity.
  - apply (bool_decide_unpack _). vm_compute. exact I.
  - vm_compute. reflexivity.
  - vm_compute. reflexivity.
Defined.

(** X28. In a well-formed world whose board is made of eight different
    rows, [is_checkmate] answers [True] exactly when the stored check flag of
    the colour is set and no piece of the colour on the board has a legal
    move, and [is_stalemate] exactly when the flag is clear and no piece of
    the colour has a legal move. *)
Theorem checkmate_and_stalemate_iff (w wc ws : World) (clr : Color)
    (mate stale : bool) :
  well_formed w -> NoDup (board (self w)) ->
  run (is_checkmate clr) w = (wc, Ok mate) ->
  run (is_stalemate clr) w = (ws, Ok stale) ->
  (mate = true <-> in_check_of (self w) clr = true /\ no_legal_move w clr) /\
  (stale = true <-> in_check_of (self w) clr = false /\ no_legal_move w clr).
Proof.
  intros Hwf Hnd.
  pose proof (well_formed_grid w Hwf Hnd) as Hgrid.
  assert (Hloop : forall w' b, run (has_no_legal_moves clr) w = (w', Ok b) ->
                               (b = true <-> no_legal_move w clr)).
  { intros w' b Hrun.
    rewrite (has_no_legal_moves_from_iff w Hwf Hnd clr all_squares w w' b
               (same_board_refl w Hgrid) all_squares_in_bounds Hrun).
    unfold no_legal_move. split.
    - intros H s q qp Hs. apply H. by apply In_all_squares.
    - intros H s q qp Hs. apply H. by apply In_all_squares. }
  unfold is_checkmate, is_stalemate. rewrite !run_bind. cbn [get_self run].
  destruct (in_check_of (self w) clr); cbn [negb].
  - intros Hmate [= <- <-]. rewrite (Hloop _ _ Hmate).
    split; [by split; [|intros [_ ?]]|by split; [|intros [? _]]].
  - intros [= <- <-] Hstale. rewrite (Hloop _ _ Hstale).
    split; [by split; [|intros [? _]]|by split; [|intros [_ ?]]].
Qed.

Lemma checkmate_and_stalemate_iff_witness :
  let w := fools_mate_position in
  (true = true <-> in_check_of (self w) white = true /\ no_legal_move w white) /\
  (false = true <-> in_check_of (self w) white = false /\ no_legal_move w white).
Proof.
  intros w.
  apply (checkmate_and_stalemate_iff w (fst (run (is_checkmate white) w)) w white
           true false).
  - apply well_formedb_true. vm_compute. reflexivity.
  - apply (bool_decide_unpack _). vm_compute. exact I.
  - vm_compute. reflexivity.
  - vm_compute. reflexivity.
Defined.

(** ** Answers that stay when the store grows *)

Lemma collect_mono {A B} (f g : A -> Res (list B)) (l : list A) (ys : list B) :
  (forall a xs, f a = Ok xs -> g a = Ok xs) ->
  collect f l = Ok ys -> collect g l = Ok ys.
Proof.
  intros Hfg. revert ys. induction l as [|a l IH]; cbn [collect]; intros ys H; [done|].
  apply Res_bind_Ok in H as (xs & Hxs & H).
  apply Res_bind_Ok in H as (rest & Hrest & H).
  by rewrite (Hfg _ _ Hxs), (IH _ Hrest).
Qed.

Section GrownStore.
Variables h1 h2 : Heap.
Variable b : list ref.
Hypothesis Hget : forall r c x, board_get h1 b r c = Ok x -> board_get h2 b r c = Ok x.
Hypothesis Hobjs : objs h2 = objs h1.

Lemma Pawn_forward_mono (self : Piece) (moves : list Square) :
  Pawn_forward h1 b self = Ok moves -> Pawn_forward h2 b self = Ok moves.
Proof.
  unfold Pawn_forward. destruct (position self) as [row col]. cbv zeta.
  destruct (in_range _); [|done].
  intros H. apply Res_bind_Ok in H as (ahead & Ha & H).
  rewrite (Hget _ _ _ Ha). res_simpl. destruct ahead; [done|].
  apply Res_bind_Ok in H as (double & Hd & H).
  destruct (negb (has_moved self)).
  - apply Res_bind_Ok in Hd as (two & Ht & Hd).
    rewrite (Hget _ _ _ Ht). res_simpl. by rewrite Hd.
  - by rewrite Hd.
Qed.

Lemma Pawn_diagonal_mono (self : Piece) (dcol : Z) (moves : list Square) :
  Pawn_diagonal h1 b self dcol = Ok moves -> Pawn_diagonal h2 b self dcol = Ok moves.
Proof.
  unfold Pawn_diagonal, deref. rewrite Hobjs.
  destruct (position self) as [row col]. cbv zeta.
  destruct (in_range _ && in_range _); [|done].
  intros H. apply Res_bind_Ok in H as (target & Ht & H).
  rewrite (Hget _ _ _ Ht). res_simpl. destruct target; [done|].
  destruct (_ || _); [|done].
  apply Res_bind_Ok in H as (beside & Hb & H).
  by rewrite (Hget _ _ _ Hb).
Qed.

Lemma slide_mono (clr : Color) (pos : Square) (dr dc : Z) (steps : list Z)
    (moves : list Square) :
  slide h1 b clr pos dr dc steps = Ok moves -> slide h2 b clr pos dr dc steps = Ok moves.
Proof.
  revert moves. induction steps as [|i rest IH]; cbn [slide]; intros moves; [done|].
  destruct (in_range _ && in_range _); [|done].
  intros H. apply Res_bind_Ok in H as (cell & Hc & H).
  rewrite (Hget _ _ _ Hc). res_simpl. destruct cell.
  - unfold deref in *. by rewrite Hobjs.
  - apply Res_bind_Ok in H as (more & Hm & H). by rewrite (IH _ Hm).
Qed.

Lemma jump_mono (self : Piece) (d : Z * Z) (moves : list Square) :
  jump h1 b self d = Ok moves -> jump h2 b self d = Ok moves.
Proof.
  unfold jump, deref. rewrite Hobjs.
  destruct (in_range _ && in_range _); [|done].
  intros H. apply Res_bind_Ok in H as (cell & Hc & H).
  by rewrite (Hget _ _ _ Hc).
Qed.

Lemma get_valid_moves_mono (self : Piece) (moves : list Square) :
  get_valid_moves h1 b self = Ok moves -> get_valid_moves h2 b self = Ok moves.
Proof.
  unfold get_valid_moves, Pawn_get_valid_moves, _get_straight_moves,
    _get_diagonal_moves.
  assert (Hslides : forall dirs l,
             collect (fun d : Z * Z =>
                        slide h1 b (color self) (position self) d.1 d.2 range_1_8)
                     dirs = Ok l ->
             collect (fun d : Z * Z =>
                        slide h2 b (color self) (position self) d.1 d.2 range_1_8)
                     dirs = Ok l).
  { intros dirs l. apply collect_mono. intros d xs. apply slide_mono. }
  assert (Hjumps : forall offsets l,
             collect (jump h1 b self) offsets = Ok l ->
             collect (jump h2 b self) offsets = Ok l).
  { intros offsets l. apply collect_mono. intros d xs. apply jump_mono. }
  destruct (cls self); auto.
  - intros H. apply Res_bind_Ok in H as (fwd & Hf & H).
    apply Res_bind_Ok in H as (diag & Hd & H).
    rewrite (Pawn_forward_mono _ _ Hf). res_simpl.
    rewrite (collect_mono _ (Pawn_diagonal h2 b self) _ _
               (Pawn_diagonal_mono self) Hd). done.
  - intros H. apply Res_bind_Ok in H as (straight & Hs & H).
    apply Res_bind_Ok in H as (diagonal & Hd & H).
    by rewrite (Hslides _ _ Hs), (Hslides _ _ Hd).
Qed.

Lemma find_king_from_mono (clr : Color) (sqs : list Square) (found : option Square) :
  find_king_from h1 clr b sqs = Ok found -> find_king_from h2 clr b sqs = Ok found.
Proof.
  induction sqs as [|[row col] rest IH]; cbn [find_king_from]; [done|].
  intros H. apply Res_bind_Ok in H as (cell & Hc & H).
  rewrite (Hget _ _ _ Hc). res_simpl. destruct cell as [q|]; [|by apply IH].
  unfold deref in *. rewrite Hobjs. destruct (objs h1 !! q) as [qp|]; [|done].
  res_simpl. cbn [mbind Res_bind] in H. destruct (_ && _); [done|by apply IH].
Qed.

Lemma is_square_under_attack_from_mono (target : option Square) (clr : Color)
    (sqs : list Square) (a : bool) :
  is_square_under_attack_from h1 target clr b sqs = Ok a ->
  is_square_under_attack_from h2 target clr b sqs = Ok a.
Proof.
  induction sqs as [|[row col] rest IH]; cbn [is_square_under_attack_from]; [done|].
  intros H. apply Res_bind_Ok in H as (cell & Hc & H).
  rewrite (Hget _ _ _ Hc). res_simpl. destruct cell as [q|]; [|by apply IH].
  unfold deref in *. rewrite Hobjs. destruct (objs h1 !! q) as [qp|]; [|done].
  res_simpl. cbn [mbind Res_bind] in H. destruct (negb _); [|by apply IH].
  apply Res_bind_Ok in H as (moves & Hm & H).
  rewrite (get_valid_moves_mono _ _ Hm). res_simpl.
  destruct (square_in _ _); [done|by apply IH].
Qed.

Lemma check_mono (clr : Color) (a : bool) :
  (king ← find_king h1 clr b; is_square_under_attack h1 king clr b) = Ok a ->
  (king ← find_king h2 clr b; is_square_under_attack h2 king clr b) = Ok a.
Proof.
  intros H. apply Res_bind_Ok in H as (king & Hk & H).
  unfold find_king, is_square_under_attack in *.
  rewrite (find_king_from_mono _ _ _ Hk). res_simpl.
  by apply is_square_under_attack_from_mono.
Qed.

End GrownStore.

(** ** The check flags *)

Lemma updates_set_check_flags (w1 w' : World) (clr : Color) :
  run (update_check_status;; update_game_over;; update_position_history) w1
  = (w', Ok tt) ->
  run (is_in_check clr) w' = (w', Ok (in_check_of (self w') clr)).
Proof.
  intros Hrun. apply run_bind_Ok in Hrun as (wu & [] & Hucs & Hrest).
  unfold update_check_status in Hucs.
  rewrite run_bind, is_in_check_run in Hucs.
  destruct (king ← find_king (heap w1) white (board (self w1));
            is_square_under_attack (heap w1) king white (board (self w1)))
    as [bw|] eqn:Hw; [|discriminate].
  rewrite run_bind in Hucs. cbn [modify_self run] in Hucs.
  rewrite run_bind, is_in_check_run in Hucs. cbn [heap self] in Hucs.
  change (board (set_in_check white bw (self w1))) with (board (self w1)) in Hucs.
  destruct (king ← find_king (heap w1) black (board (self w1));
            is_square_under_attack (heap w1) king black (board (self w1)))
    as [bb|] eqn:Hb; [|discriminate].
  cbn [modify_self run heap self] in Hucs. injection Hucs as <-.
  assert (Hgrow : heap_grows
                    (mkWorld (heap w1)
                       (set_in_check black bb (set_in_check white bw (self w1)))) w').
  { eapply grows_run; [|exact Hrest].
    apply grows_bind; [apply grows_update_game_over|intros ?].
    apply grows_update_position_history. }
  assert (Hflags : in_check (self w') = (bw, bb)).
  { assert (Hk : keeps_attr in_check (update_game_over;; update_position_history)).
    { unfold update_game_over, update_position_history. keeps_attr_steps. }
    by rewrite (keeps_attr_run in_check _ _ _ _ Hk Hrest). }
  assert (Hboard : board (self w') = board (self w1)).
  { assert (Hk : keeps_attr board (update_game_over;; update_position_history)).
    { unfold update_game_over, update_position_history. keeps_attr_steps. }
    by rewrite (keeps_attr_run board _ _ _ _ Hk Hrest). }
  destruct Hgrow as (Ho & Hl). cbn [heap] in Ho, Hl.
  rewrite is_in_check_run, Hboard. f_equal.
  unfold in_check_of. rewrite Hflags.
  destruct clr; cbn [fst snd];
    (eapply check_mono; [|exact Ho|eassumption]);
    intros r c x; by apply board_get_lists_grow.
Qed.

(** X29. After a move that [move_piece] accepts and that is not a pawn
    reaching rank index 0 or 7, and after [promote_pawn], the stored check
    flags are current: for either colour, [is_in_check] asked in the world
    that the call leaves answers the flag stored in [in_check]. *)
Theorem check_flags_are_current (w w' : World) (clr : Color) :
  (exists end_pos sel p,
      selected_piece (self w) = Some sel /\
      deref (heap w) sel = Ok p /\
      is_class Pawn p
        && ((fst (get_board_position (self w) end_pos) =? 0)
            || (fst (get_board_position (self w) end_pos) =? 7)) = false /\
      run (move_piece end_pos) w = (w', Ok true)) \/
  (exists piece_class, run (promote_pawn piece_class) w = (w', Ok tt)) ->
  run (is_in_check clr) w' = (w', Ok (in_check_of (self w') clr)).
Proof.
  intros [(end_pos & sel & p & Hsel & Hp & Hnp & Hrun)|(piece_class & Hrun)].
  - destruct (move_piece_completed_self _ _ _ _ _ Hsel Hp Hnp Hrun) as (w1 & _ & H).
    by eapply updates_set_check_flags.
  - destruct (promote_pawn_completed _ _ _ Hrun) as (w1 & _ & H).
    by eapply updates_set_check_flags.
Qed.

Lemma check_flags_are_current_witness :
  let w := fst (run (handle_click (square_center (0, 3)))
                  (fst (run (play (take 3 fools_mate_game)) (new_game white)))) in
  let w' := fst (run (move_piece (square_center (4, 7))) w) in
  run (is_in_check white) w' = (w', Ok (in_check_of (self w') white)).
Proof.
  intros w w'. apply (check_flags_are_current w w' white). left.
  exists (square_center (4, 7)), 22%nat, (mkPiece Queen black (0, 3) false false).
  split; [vm_compute; reflexivity|]. split; [vm_compute; reflexivity|].
  split; vm_compute; reflexivity.
Defined.

(** X30. For a position of the mouse inside the board, [get_board_position]
    is a square of the board; [flip_board] changes nothing but the
    orientation, after which the same position is the square mirrored
    through the centre of the board; and flipping twice gives back the
    world. *)
Theorem flip_board_mirrors (w : World) (pos : Z * Z) :
  0 <= fst pos < BOARD_SIZE -> 0 <= snd pos < BOARD_SIZE ->
  let s := get_board_position (self w) pos in
  let w' := fst (run flip_board w) in
  in_bounds s /\
  heap w' = heap w /\
  self w' = set_board_flipped (negb (board_flipped (self w))) (self w) /\
  get_board_position (self w') pos = (7 - fst s, 7 - snd s) /\
  fst (run flip_board w') = w.
Proof.
  intros Hx Hy s w'.
  split; [by apply get_board_position_in_bounds|].
  split; [done|]. split; [done|]. split.
  - subst s w'. unfold get_board_position. cbn. destruct pos as [x y].
    destruct (board_flipped (self w)); cbn; f_equal; lia.
  - subst w'. destruct w as [h g]. destruct g. cbn. by rewrite negb_involutive.
Qed.

Lemma flip_board_mirrors_witness :
  let w := new_game white in
  let pos := square_center (6, 4) in
  let s := get_board_position (self w) pos in
  let w' := fst (run flip_board w) in
  in_bounds s /\
  heap w' = heap w /\
  self w' = set_board_flipped (negb (board_flipped (self w))) (self w) /\
  get_board_position (self w') pos = (7 - fst s, 7 - snd s) /\
  fst (run flip_board w') = w.
Proof.
  intros w pos. apply (flip_board_mirrors w pos).
  - vm_compute. split; [discriminate|reflexivity].
  - vm_compute. split; [discriminate|reflexivity].
Defined.
